(** * A shallow embedding of the BitTorrent client's download engine

    The development follows the Go packages of the repository:
    [bencode], [torrent], [disk], [piece], [peer] and [download].  Part I
    embeds the code; Part II states and proves the properties.

    Conventions.
    - Go's [int] and [int64] are 64-bit; they are modelled by [Z] and the
      wrap-around of an arithmetic result is written [go.int64 _].
      [uint8] and [uint32] conversions are [go.uint8] and [go.uint32].
      Go's [/] and [%] truncate towards zero: [Z.quot] and [Z.rem].
    - A byte is a [Z] in [0, 256); a [[]byte] is a [list Z]; a nil slice
      that the code distinguishes from an empty one is an [option].
    - A Go [string] that names something (a map key built with
      [fmt.Sprintf], an address) is a [string] and [fmt.Sprintf "%d"] is
      stdpp's [pretty]; the byte strings of the bencode codec and of the
      metainfo are [list Z] like every [[]byte].
    - A Go [map] is a [gmap]; pointers to peers are their keys in the
      store of peers.
    - Locks are not modelled: every method that takes a mutex for its whole
      body is one atomic step.  A goroutine started with [go f(x)] is
      returned to the caller as a pending task.
    - A run-time panic (index out of range) is the outcome [Panics]. *)

From Stdlib Require Import ZArith Lia Bool.
From stdpp Require Import base numbers option list strings pretty gmap fin_maps sorting.

Open Scope Z_scope.

(* ===================================================================== *)
(** * Part I: the embedding *)
(* ===================================================================== *)

Module go.

Definition error := string.

Definition byte := Z.

(** The instant of [time.Time] in nanoseconds; the zero [Time] is [0]. *)
Definition Time := Z.

Definition Second : Z := 1000000000.

Inductive outcome (A : Type) : Type :=
| Returns (a : A)
| Panics (reason : string).
Arguments Returns {A} a.
Arguments Panics {A} reason.

#[global] Instance outcome_ret : MRet outcome := λ A a, Returns a.
#[global] Instance outcome_bind : MBind outcome := λ A B f x,
  match x with
  | Returns a => f a
  | Panics r => Panics r
  end.
#[global] Instance outcome_fmap : FMap outcome := λ A B f x,
  match x with
  | Returns a => Returns (f a)
  | Panics r => Panics r
  end.

(** [(T, error)] results. *)
Inductive result (A : Type) : Type :=
| Ok (a : A)
| Err (e : error).
Arguments Ok {A} a.
Arguments Err {A} e.

Definition int64 (x : Z) : Z := (x + 2 ^ 63) `mod` 2 ^ 64 - 2 ^ 63.
Definition uint32 (x : Z) : Z := x `mod` 2 ^ 32.
Definition uint8 (x : Z) : Z := x `mod` 2 ^ 8.

(** [s[i]]: [None] stands for the index-out-of-range panic. *)
Definition index {A} (s : list A) (i : Z) : option A :=
  if decide (0 ≤ i) then s !! Z.to_nat i else None.

(** [len(s)] *)
Definition len {A} (s : list A) : Z := Z.of_nat (length s).

(** [s[lo:hi]] for [0 <= lo <= hi <= len(s)]. *)
Definition slice {A} (s : list A) (lo hi : Z) : list A :=
  take (Z.to_nat (hi - lo)) (drop (Z.to_nat lo) s).

(** [make([]byte, n)] *)
Definition make (n : Z) : list byte := replicate (Z.to_nat n) 0.

(** The byte constant [1 << k] of the bitfield code. *)
Definition bit (k : Z) : byte := uint8 (Z.shiftl 1 k).

(** [crypto/sha1]: [sha1.Sum] is a parameter of the development. *)
Class Sha1 := sha1_Sum : list byte → list byte.

(** [filepath.Join] of two elements is a parameter of the development. *)
Class FilePath := filepath_Join : list byte → list byte → list byte.

(** The bytes of a string literal. *)
Definition bytes (s : string) : list byte :=
  (λ c, Z.of_N (Ascii.N_of_ascii c)) <$> String.list_ascii_of_string s.

#[global] Instance result_ret : MRet result := λ A a, Ok a.
#[global] Instance result_bind : MBind result := λ A B f x,
  match x with
  | Ok a => f a
  | Err e => Err e
  end.

(** [sort.Slice] is not stable.  Go sorts slices of fewer than 12 elements by
    insertion: each element moves left while it is [less] than its left
    neighbour.  The model sorts every slice this way; [sortSlice_insert]
    works on the sorted prefix in reverse order.  The element that ends up
    first is minimal for [less] whatever the algorithm. *)
Fixpoint sortSlice_insert {A} (less : A → A → bool) (x : A) (racc : list A) : list A :=
  match racc with
  | [] => [x]
  | y :: racc' => if less x y then y :: sortSlice_insert less x racc' else x :: racc
  end.

Definition sortSlice {A} (less : A → A → bool) (l : list A) : list A :=
  rev (foldl (λ racc x, sortSlice_insert less x racc) [] l).

(** A slice that [sort.Slice] leaves as it is: no element is [less] than
    its predecessor. *)
Fixpoint inOrder {A} (less : A → A → bool) (l : list A) : Prop :=
  match l with
  | x :: rest =>
      match rest with
      | y :: _ => less y x = false
      | [] => True
      end ∧ inOrder less rest
  | [] => True
  end.

End go.

(* --------------------------------------------------------------------- *)
(** ** Package [piece]: pieces, blocks and the piece manager *)
(* --------------------------------------------------------------------- *)

Module piece.
Import go.

Definition BlockSize : Z := 16384.
Definition MaxRequestsPerPeer : Z := 5.
Definition RequestTimeout : Z := 30 * Second.

Inductive PieceState :=
| PieceStateMissing
| PieceStateRequested
| PieceStateDownloaded
| PieceStateVerified.

#[global] Instance PieceState_eq_dec : EqDecision PieceState.
Proof. solve_decision. Defined.

Definition Hash := list byte.

Module Block.
Record t := mk {
  Index : Z;
  Begin : Z;
  Length : Z;
  Data : option (list byte);
  RequestedAt : Time }.
Definition with_Data (d : option (list byte)) (b : t) : t :=
  mk (Index b) (Begin b) (Length b) d (RequestedAt b).
Definition with_RequestedAt (now : Time) (b : t) : t :=
  mk (Index b) (Begin b) (Length b) (Data b) now.
End Block.

Module Request.
Record t := mk {
  Block : Block.t;
  PeerID : string;
  Timestamp : Time }.
End Request.

Module Piece.
Record t := mk {
  Index : Z;
  Length : Z;
  Hash : Hash;
  State : PieceState;
  Blocks : list Block.t;
  Requests : gmap string Request.t }.
Definition with_State (s : PieceState) (p : t) : t :=
  mk (Index p) (Length p) (Hash p) s (Blocks p) (Requests p).
Definition with_Blocks (bs : list Block.t) (p : t) : t :=
  mk (Index p) (Length p) (Hash p) (State p) bs (Requests p).
Definition with_Requests (rs : gmap string Request.t) (p : t) : t :=
  mk (Index p) (Length p) (Hash p) (State p) (Blocks p) rs.
End Piece.

(** [NewPiece]: block [i] starts at [i * BlockSize]; only the last block
    may be shorter. *)
Definition NewPiece_block (index length numBlocks : Z) (i : nat) : Block.t :=
  let i := Z.of_nat i in
  let blockLength :=
    if decide (i = numBlocks - 1) then
      let remaining := int64 (length - int64 (i * BlockSize)) in
      if decide (remaining < BlockSize) then remaining else BlockSize
    else BlockSize in
  Block.mk index (int64 (i * BlockSize)) blockLength None 0.

Definition NewPiece (index length : Z) (hash : Hash) : outcome Piece.t :=
  let numBlocks := int64 (int64 (length + BlockSize) - 1) `quot` BlockSize in
  if decide (numBlocks < 0) then Panics "makeslice: len out of range"
  else Returns
    (Piece.mk index length hash PieceStateMissing
       (NewPiece_block index length numBlocks <$> seq 0 (Z.to_nat numBlocks))
       ∅).

Definition hasData (b : Block.t) : bool :=
  match Block.Data b with Some _ => true | None => false end.

(** [Piece.IsComplete] *)
Definition IsComplete (p : Piece.t) : bool := forallb hasData (Piece.Blocks p).

(** [Piece.GetMissingBlocks] *)
Definition GetMissingBlocks (p : Piece.t) : list Block.t :=
  filter (λ b, hasData b = false) (Piece.Blocks p).

(** The key [fmt.Sprintf("%s-%d-%d", peerID, begin, length)]. *)
Definition requestKey (peerID : string) (begin length : Z) : string :=
  peerID +:+ "-" +:+ pretty begin +:+ "-" +:+ pretty length.

(** [Piece.AddRequest] at time [now]. *)
Definition Piece_AddRequest (now : Time) (peerID : string) (block : Block.t)
    (p : Piece.t) : Piece.t :=
  Piece.with_Requests
    (<[requestKey peerID (Block.Begin block) (Block.Length block) :=
         Request.mk block peerID now]> (Piece.Requests p)) p.

(** [Piece.RemoveRequest] *)
Definition Piece_RemoveRequest (peerID : string) (begin length : Z)
    (p : Piece.t) : Piece.t :=
  Piece.with_Requests (delete (requestKey peerID begin length) (Piece.Requests p)) p.

(** [Piece.SetBlockData]: the first block whose [Begin] is [begin] receives
    a copy of [data] when the lengths agree; the pending requests for that
    offset are deleted. *)
Definition SetBlockData (begin : Z) (data : list byte) (p : Piece.t)
    : Piece.t * option error :=
  match list_find (λ b, Block.Begin b = begin) (Piece.Blocks p) with
  | Some (i, block) =>
      if decide (len data ≠ Block.Length block) then
        (p, Some "block data length mismatch")
      else
        let blocks := <[i := Block.with_Data (Some data) block]> (Piece.Blocks p) in
        let requests :=
          filter (λ kr, Block.Begin (Request.Block kr.2) ≠ begin) (Piece.Requests p) in
        (Piece.with_Requests requests (Piece.with_Blocks blocks p), None)
  | None => (p, Some "block with begin offset not found")
  end.

(** [Piece.GetData] *)
Definition GetData (p : Piece.t) : result (list byte) :=
  if IsComplete p then
    Ok (concat ((λ b, default [] (Block.Data b)) <$> Piece.Blocks p))
  else Err "piece is not complete".

(** Payloads delivered one after the other, each with the offset of its
    block: [SetBlockData] for each, until one returns an error. *)
Definition storeBlocks (payloads : list (Z * list byte)) (p : Piece.t)
    : Piece.t * option error :=
  foldl (λ acc payload,
           match acc with
           | (q, None) => SetBlockData payload.1 payload.2 q
           | (q, Some err) => (q, Some err)
           end) (p, None) payloads.

(** *** Selection strategies (strategy.go) *)

(** [peerHasPiece]: bit [pieceIndex] of a big-endian bitfield.  The callers
    pass indices of a [range] loop, which are not negative; for a negative
    [byteIndex] Go would panic and the model answers [false]. *)
Definition peerHasPiece (bitfield : list byte) (pieceIndex : Z) : bool :=
  if decide (len bitfield = 0) then false
  else
    let byteIndex := pieceIndex `quot` 8 in
    let bitIndex := pieceIndex `rem` 8 in
    if decide (byteIndex >= len bitfield) then false
    else match index bitfield byteIndex with
         | Some b => negb (Z.land b (bit (7 - bitIndex)) =? 0)
         | None => false
         end.

Module pieceRarity.
Record t := mk { index : nat; rarity : Z }.
End pieceRarity.

(** The state of a [SmartStrategy].  Its [endGame] field is
    [NewEndGameStrategy(5, rarestFirst)]: the base strategy of the end game
    is the very [rarestFirst] object, so one field holds the bitfields both
    see, and [endGame_threshold] is the threshold of that [EndGameStrategy].
    The [random] field is never used by [SelectPiece]. *)
Module SmartStrategy.
Record t := mk {
  rarestFirst : gmap string (list byte);
  endGame_threshold : Z;
  sequentialThreshold : Z;
  endGameThreshold : Z }.
End SmartStrategy.

(** The implementations of the interface [SelectionStrategy].
    [RandomStrategy] draws from [math/rand] and is left out. *)
Inductive SelectionStrategy :=
| SequentialStrategy
| RarestFirstStrategy (peerBitfields : gmap string (list byte))
| EndGameStrategy (threshold : Z) (baseStrategy : SelectionStrategy)
| SmartStrategy (s : SmartStrategy.t)
| PriorityStrategy (priorities : gmap Z Z) (baseStrategy : SelectionStrategy).

Definition NewSequentialStrategy : SelectionStrategy := SequentialStrategy.
Definition NewRarestFirstStrategy : SelectionStrategy := RarestFirstStrategy ∅.
Definition NewEndGameStrategy (threshold : Z) (baseStrategy : SelectionStrategy) :=
  EndGameStrategy threshold baseStrategy.
Definition NewSmartStrategy : SelectionStrategy :=
  SmartStrategy (SmartStrategy.mk ∅ 5 4 10).

Definition isVerified (p : Piece.t) : bool :=
  bool_decide (Piece.State p = PieceStateVerified).

(** A strategy returns a pointer into [pieces]: the position of the piece. *)

(** [SequentialStrategy.SelectPiece]; [i] is the position of the head of
    [pieces] in the whole slice. *)
Fixpoint Sequential_SelectPiece (i : nat) (pieces : list Piece.t)
    (peerBitfield : list byte) : option nat :=
  match pieces with
  | [] => None
  | piece :: rest =>
      if isVerified piece then Sequential_SelectPiece (S i) rest peerBitfield
      else if negb (peerHasPiece peerBitfield (Z.of_nat i)) then
        Sequential_SelectPiece (S i) rest peerBitfield
      else Some i
  end.

(** The number of known peers whose bitfield has piece [i]. *)
Definition rarityOf (peerBitfields : gmap string (list byte)) (i : nat) : Z :=
  Z.of_nat (size (filter (λ kb, peerHasPiece kb.2 (Z.of_nat i) = true) peerBitfields)).

Fixpoint RarestFirst_candidates (peerBitfields : gmap string (list byte))
    (i : nat) (pieces : list Piece.t) (peerBitfield : list byte)
    : list pieceRarity.t :=
  match pieces with
  | [] => []
  | piece :: rest =>
      let tail := RarestFirst_candidates peerBitfields (S i) rest peerBitfield in
      if isVerified piece then tail
      else if negb (peerHasPiece peerBitfield (Z.of_nat i)) then tail
      else pieceRarity.mk i (rarityOf peerBitfields i) :: tail
  end.

(** [RarestFirstStrategy.SelectPiece] *)
Definition RarestFirst_SelectPiece (peerBitfields : gmap string (list byte))
    (pieces : list Piece.t) (peerBitfield : list byte) : option nat :=
  let candidates := RarestFirst_candidates peerBitfields 0 pieces peerBitfield in
  match sortSlice (λ a b, pieceRarity.rarity a <? pieceRarity.rarity b) candidates with
  | [] => None
  | c :: _ => Some (pieceRarity.index c)
  end.

(** The number of pieces whose state is not [Verified]. *)
Definition countMissing (pieces : list Piece.t) : Z :=
  len (filter (λ p, isVerified p = false) pieces).

Definition countCompleted (pieces : list Piece.t) : Z :=
  len (filter (λ p, isVerified p = true) pieces).

(** The scan of the end game: the first piece that is not verified and that
    the peer has. *)
Fixpoint EndGame_scan (i : nat) (pieces : list Piece.t) (peerBitfield : list byte)
    : option nat :=
  match pieces with
  | [] => None
  | piece :: rest =>
      if negb (isVerified piece) && peerHasPiece peerBitfield (Z.of_nat i)
      then Some i
      else EndGame_scan (S i) rest peerBitfield
  end.

Fixpoint Priority_candidates (priorities : gmap Z Z) (i : nat)
    (pieces : list Piece.t) (peerBitfield : list byte) : list (nat * Z) :=
  match pieces with
  | [] => []
  | piece :: rest =>
      let tail := Priority_candidates priorities (S i) rest peerBitfield in
      if isVerified piece then tail
      else if negb (peerHasPiece peerBitfield (Z.of_nat i)) then tail
      else (i, default 0 (priorities !! Z.of_nat i)) :: tail
  end.

(** [EndGameStrategy.SelectPiece], given the [SelectPiece] of its base. *)
Definition EndGame_SelectPiece (threshold : Z)
    (baseStrategy : list Piece.t → list byte → option nat)
    (pieces : list Piece.t) (peerBitfield : list byte) : option nat :=
  let missing := countMissing pieces in
  if decide (missing ≤ threshold) then EndGame_scan 0 pieces peerBitfield
  else baseStrategy pieces peerBitfield.

(** [SmartStrategy.SelectPiece] *)
Definition Smart_SelectPiece (s : SmartStrategy.t) (pieces : list Piece.t)
    (peerBitfield : list byte) : option nat :=
  let completed := countCompleted pieces in
  let total := len pieces in
  let remaining := total - completed in
  let rarestFirst := RarestFirst_SelectPiece (SmartStrategy.rarestFirst s) in
  let endGame := EndGame_SelectPiece (SmartStrategy.endGame_threshold s) rarestFirst in
  let later :=
    if decide (remaining ≤ SmartStrategy.endGameThreshold s)
    then endGame pieces peerBitfield
    else rarestFirst pieces peerBitfield in
  if decide (completed < SmartStrategy.sequentialThreshold s) then
    match Sequential_SelectPiece 0 pieces peerBitfield with
    | Some piece => Some piece
    | None => later
    end
  else later.

(** [SelectionStrategy.SelectPiece], by cases on the implementation. *)
Fixpoint SelectPiece (s : SelectionStrategy) (pieces : list Piece.t)
    (peerBitfield : list byte) : option nat :=
  match s with
  | SequentialStrategy => Sequential_SelectPiece 0 pieces peerBitfield
  | RarestFirstStrategy peerBitfields =>
      RarestFirst_SelectPiece peerBitfields pieces peerBitfield
  | EndGameStrategy threshold baseStrategy =>
      EndGame_SelectPiece threshold (SelectPiece baseStrategy) pieces peerBitfield
  | SmartStrategy s => Smart_SelectPiece s pieces peerBitfield
  | PriorityStrategy priorities baseStrategy =>
      let candidates := Priority_candidates priorities 0 pieces peerBitfield in
      match sortSlice (λ a b, a.2 >? b.2) candidates with
      | [] => None
      | c :: _ =>
          if decide (c.2 = 0) then SelectPiece baseStrategy pieces peerBitfield
          else Some c.1
      end
  end.

(** [RarestFirstStrategy.UpdatePeerBitfield] and
    [SmartStrategy.UpdatePeerBitfield]; other strategies have no such method. *)
Definition UpdatePeerBitfield (peerID : string) (bitfield : list byte)
    (s : SelectionStrategy) : SelectionStrategy :=
  match s with
  | RarestFirstStrategy pb => RarestFirstStrategy (<[peerID := bitfield]> pb)
  | SmartStrategy st =>
      SmartStrategy
        (SmartStrategy.mk (<[peerID := bitfield]> (SmartStrategy.rarestFirst st))
           (SmartStrategy.endGame_threshold st)
           (SmartStrategy.sequentialThreshold st)
           (SmartStrategy.endGameThreshold st))
  | _ => s
  end.

(** *** The piece manager (manager.go) *)

(** The interface [DiskManager].  A method that writes returns the new state
    of the disk manager with its error. *)
Class DiskManager (D : Type) := {
  WritePiece : D → Z → list byte → outcome (D * option error);
  ReadPiece : D → Z → outcome (result (list byte));
  ReadBlock : D → Z → Z → Z → outcome (result (list byte));
  VerifyPiece : D → Z → list byte → bool }.

(** [Statistics] without the download speed, a [float64] computed from the
    wall clock. *)
Module Statistics.
Record t := mk {
  TotalPieces : Z;
  CompletedPieces : Z;
  VerifiedPieces : Z;
  ActiveRequests : Z;
  BytesDownloaded : Z;
  BytesVerified : Z }.
End Statistics.

Module BlockRequest.
Record t := mk { Begin : Z; Length : Z }.
End BlockRequest.

Module Manager.
Record t (D : Type) := mk {
  pieces : list Piece.t;
  bitfield : list byte;
  strategy : option SelectionStrategy;
  stats : Statistics.t;
  diskManager : option D }.
Arguments mk {D}.
Arguments pieces {D}.
Arguments bitfield {D}.
Arguments strategy {D}.
Arguments stats {D}.
Arguments diskManager {D}.
Definition with_pieces {D} (ps : list Piece.t) (m : t D) : t D :=
  mk ps (bitfield m) (strategy m) (stats m) (diskManager m).
Definition with_bitfield {D} (bf : list byte) (m : t D) : t D :=
  mk (pieces m) bf (strategy m) (stats m) (diskManager m).
Definition with_strategy {D} (s : option SelectionStrategy) (m : t D) : t D :=
  mk (pieces m) (bitfield m) s (stats m) (diskManager m).
Definition with_stats {D} (st : Statistics.t) (m : t D) : t D :=
  mk (pieces m) (bitfield m) (strategy m) st (diskManager m).
Definition with_diskManager {D} (d : option D) (m : t D) : t D :=
  mk (pieces m) (bitfield m) (strategy m) (stats m) d.
End Manager.

Section manager.
Context {D : Type} `{DiskManager D}.

Definition zeroHash : Hash := replicate 20 0.

(** [NewManager(numPieces, pieceLength, lastPieceLength, pieceHashes)] *)
Definition NewManager (numPieces pieceLength lastPieceLength : Z)
    (pieceHashes : list Hash) : outcome (Manager.t D) :=
  if decide (numPieces < 0) then Panics "makeslice: len out of range"
  else
    pieces ← mapM (λ i : nat,
        let i := Z.of_nat i in
        let length :=
          if decide (i = numPieces - 1 ∧ lastPieceLength > 0)
          then lastPieceLength else pieceLength in
        let hash :=
          if decide (i < len pieceHashes)
          then default zeroHash (index pieceHashes i) else zeroHash in
        NewPiece i length hash) (seq 0 (Z.to_nat numPieces));
    let bitfieldSize := int64 (numPieces + 7) `quot` 8 in
    Returns
      (Manager.mk pieces (make bitfieldSize) (Some NewSequentialStrategy)
         (Statistics.mk numPieces 0 0 0 0 0) None).

Definition SetSelectionStrategy (strategy : SelectionStrategy) (m : Manager.t D) :=
  Manager.with_strategy (Some strategy) m.

Definition SetDiskManager (diskManager : D) (m : Manager.t D) :=
  Manager.with_diskManager (Some diskManager) m.

(** [GetBitfield]: a copy of the bitfield. *)
Definition GetBitfield (m : Manager.t D) : list byte := Manager.bitfield m.

Definition inRange (m : Manager.t D) (index : Z) : bool :=
  negb (bool_decide (index < 0 ∨ index >= len (Manager.pieces m))).

Definition HasPiece (m : Manager.t D) (index : Z) : bool :=
  if inRange m index then
    match go.index (Manager.pieces m) index with
    | Some piece => isVerified piece
    | None => false
    end
  else false.

Definition GetPiece (m : Manager.t D) (index : Z) : option Piece.t :=
  if inRange m index then go.index (Manager.pieces m) index else None.

(** The piece at position [i] replaced; the pieces are shared by pointer, so
    this is a write through [m.pieces[i]]. *)
Definition setPiece (i : Z) (piece : Piece.t) (m : Manager.t D) : Manager.t D :=
  Manager.with_pieces (<[Z.to_nat i := piece]> (Manager.pieces m)) m.

(** [MarkPieceVerified] *)
Definition MarkPieceVerified (index : Z) (m : Manager.t D)
    : Manager.t D * option error :=
  if negb (inRange m index) then (m, Some "piece index out of range")
  else
    match go.index (Manager.pieces m) index with
    | None => (m, Some "piece index out of range")
    | Some piece =>
        let m := setPiece index (Piece.with_State PieceStateVerified piece) m in
        let byteIndex := index `quot` 8 in
        let bitIndex := index `rem` 8 in
        let m :=
          if decide (byteIndex < len (Manager.bitfield m)) then
            match go.index (Manager.bitfield m) byteIndex with
            | Some b =>
                Manager.with_bitfield
                  (<[Z.to_nat byteIndex := Z.lor b (bit (7 - bitIndex))]>
                     (Manager.bitfield m)) m
            | None => m
            end
          else m in
        let st := Manager.stats m in
        let st :=
          Statistics.mk (Statistics.TotalPieces st)
            (int64 (Statistics.CompletedPieces st + 1))
            (int64 (Statistics.VerifiedPieces st + 1))
            (Statistics.ActiveRequests st)
            (Statistics.BytesDownloaded st)
            (int64 (Statistics.BytesVerified st + Piece.Length piece)) in
        (Manager.with_stats st m, None)
    end.

(** The reset of a piece whose hash does not match. *)
Definition resetPiece (piece : Piece.t) : Piece.t :=
  Piece.with_Blocks (Block.with_Data None <$> Piece.Blocks piece)
    (Piece.with_State PieceStateMissing piece).

(** [verifyAndStorePiece], the body of the goroutine that [AddBlockData]
    starts. *)
Definition verifyAndStorePiece (pieceIndex : Z) (m : Manager.t D)
    : outcome (Manager.t D) :=
  match go.index (Manager.pieces m) pieceIndex with
  | None => Panics "index out of range"
  | Some piece =>
      match Manager.diskManager m with
      | None => Returns m
      | Some diskManager =>
          match GetData piece with
          | Err _ => Returns m
          | Ok data =>
              if negb (VerifyPiece diskManager pieceIndex data) then
                Returns (setPiece pieceIndex (resetPiece piece) m)
              else
                r ← WritePiece diskManager pieceIndex data;
                let m := Manager.with_diskManager (Some r.1) m in
                match r.2 with
                | Some _ => Returns m
                | None => Returns (MarkPieceVerified pieceIndex m).1
                end
          end
      end
  end.

(** [AddBlockData]: the third component tells whether the goroutine
    [verifyAndStorePiece(pieceIndex)] was started. *)
Definition AddBlockData (pieceIndex begin : Z) (data : list byte)
    (m : Manager.t D) : outcome (Manager.t D * option error * bool) :=
  match go.index (Manager.pieces m) pieceIndex with
  | None => Panics "index out of range"
  | Some piece =>
      match SetBlockData begin data piece with
      | (_, Some err) => Returns (m, Some err, false)
      | (piece, None) =>
          let m := setPiece pieceIndex piece m in
          let st := Manager.stats m in
          let st :=
            Statistics.mk (Statistics.TotalPieces st)
              (Statistics.CompletedPieces st) (Statistics.VerifiedPieces st)
              (Statistics.ActiveRequests st)
              (int64 (Statistics.BytesDownloaded st + len data))
              (Statistics.BytesVerified st) in
          let m := Manager.with_stats st m in
          if IsComplete piece then
            Returns
              (setPiece pieceIndex (Piece.with_State PieceStateDownloaded piece) m,
               None, true)
          else Returns (m, None, false)
      end
  end.

(** [ReadBlockFromDisk] *)
Definition ReadBlockFromDisk (pieceIndex begin length : Z) (m : Manager.t D)
    : outcome (result (list byte)) :=
  match go.index (Manager.pieces m) pieceIndex with
  | None => Panics "index out of range"
  | Some piece =>
      if negb (isVerified piece) then Returns (Err "piece not verified")
      else
        match Manager.diskManager m with
        | None => Returns (Err "disk manager not set")
        | Some diskManager => ReadBlock diskManager pieceIndex begin length
        end
  end.

Fixpoint neededFrom (i : nat) (pieces : list Piece.t) : list Z :=
  match pieces with
  | [] => []
  | piece :: rest =>
      if isVerified piece then neededFrom (S i) rest
      else Z.of_nat i :: neededFrom (S i) rest
  end.

(** [GetNeededPieces] (and [GetMissingPieces]) *)
Definition GetNeededPieces (m : Manager.t D) : list Z :=
  neededFrom 0 (Manager.pieces m).

(** [SelectPieceForPeer] *)
Definition SelectPieceForPeer (peerBitfield : list byte) (m : Manager.t D)
    : result Z :=
  match Manager.strategy m with
  | None => Err "no selection strategy set"
  | Some strategy =>
      match SelectPiece strategy (Manager.pieces m) peerBitfield with
      | None => Err "no piece selected"
      | Some i =>
          match Manager.pieces m !! i with
          | Some piece => Ok (Piece.Index piece)
          | None => Err "no piece selected"
          end
      end
  end.

(** [GetBlockRequests] *)
Definition GetBlockRequests (pieceIndex : Z) (m : Manager.t D)
    : list BlockRequest.t :=
  if inRange m pieceIndex then
    match go.index (Manager.pieces m) pieceIndex with
    | Some piece =>
        (λ b, BlockRequest.mk (Block.Begin b) (Block.Length b))
          <$> GetMissingBlocks piece
    | None => []
    end
  else [].

(** [RequestBlock] at time [now]: the first block with this offset and
    length is stamped. *)
Definition RequestBlock (now : Time) (pieceIndex begin length : Z)
    (m : Manager.t D) : Manager.t D * option error :=
  if inRange m pieceIndex then
    match go.index (Manager.pieces m) pieceIndex with
    | Some piece =>
        match list_find (λ b, Block.Begin b = begin ∧ Block.Length b = length)
                (Piece.Blocks piece) with
        | Some (i, block) =>
            (setPiece pieceIndex
               (Piece.with_Blocks
                  (<[i := Block.with_RequestedAt now block]> (Piece.Blocks piece))
                  piece) m, None)
        | None => (m, None)
        end
    | None => (m, Some "invalid piece index")
    end
  else (m, Some "invalid piece index").

(** [GetProgressCounts] *)
Definition GetProgressCounts (m : Manager.t D) : Z * Z :=
  (countCompleted (Manager.pieces m), len (Manager.pieces m)).

End manager.

End piece.

(* --------------------------------------------------------------------- *)
(** ** Package [peer]: wire messages and the peer session *)
(* --------------------------------------------------------------------- *)

Module peer.
Import go.

Definition MsgChoke : Z := 0.
Definition MsgUnchoke : Z := 1.
Definition MsgInterested : Z := 2.
Definition MsgNotInterested : Z := 3.
Definition MsgHave : Z := 4.
Definition MsgBitfield : Z := 5.
Definition MsgRequest : Z := 6.
Definition MsgPiece : Z := 7.
Definition MsgCancel : Z := 8.
Definition MsgPort : Z := 9.

Definition MaxMessageLength : Z := 131072.

(** A [*Message]; the nil pointer, a keep-alive, is [None] where a message
    is optional. *)
Module Message.
Record t := mk { ID : Z; Payload : list byte }.
End Message.

(** [binary.BigEndian.PutUint32] and [binary.BigEndian.Uint32] *)
Definition PutUint32 (v : Z) : list byte :=
  [ Z.shiftr v 24 `mod` 256; Z.shiftr v 16 `mod` 256;
    Z.shiftr v 8 `mod` 256; v `mod` 256 ].

Definition Uint32 (b : list byte) : Z :=
  match b with
  | b0 :: b1 :: b2 :: b3 :: _ =>
      Z.lor (Z.lor (Z.lor (Z.shiftl b0 24) (Z.shiftl b1 16)) (Z.shiftl b2 8)) b3
  | _ => 0
  end.

Definition NewMessage (id : Z) (payload : list byte) : Message.t :=
  Message.mk id payload.
Definition NewChokeMessage := NewMessage MsgChoke [].
Definition NewUnchokeMessage := NewMessage MsgUnchoke [].
Definition NewInterestedMessage := NewMessage MsgInterested [].
Definition NewNotInterestedMessage := NewMessage MsgNotInterested [].
Definition NewHaveMessage (index : Z) := NewMessage MsgHave (PutUint32 index).
Definition NewBitfieldMessage (bitfield : list byte) := NewMessage MsgBitfield bitfield.
Definition NewRequestMessage (index begin length : Z) :=
  NewMessage MsgRequest (PutUint32 index ++ PutUint32 begin ++ PutUint32 length).
Definition NewPieceMessage (index begin : Z) (block : list byte) :=
  NewMessage MsgPiece (PutUint32 index ++ PutUint32 begin ++ block).

Definition ParseHave (m : Message.t) : result Z :=
  if decide (Message.ID m ≠ MsgHave) then Err "not a have message"
  else if decide (len (Message.Payload m) ≠ 4) then Err "invalid have payload length"
  else Ok (Uint32 (Message.Payload m)).

Definition ParseBitfield (m : Message.t) : result (list byte) :=
  if decide (Message.ID m ≠ MsgBitfield) then Err "not a bitfield message"
  else Ok (Message.Payload m).

Definition ParseRequest (m : Message.t) : result (Z * Z * Z) :=
  if decide (Message.ID m ≠ MsgRequest) then Err "not a request message"
  else if decide (len (Message.Payload m) ≠ 12) then Err "invalid request payload length"
  else Ok (Uint32 (slice (Message.Payload m) 0 4),
           Uint32 (slice (Message.Payload m) 4 8),
           Uint32 (slice (Message.Payload m) 8 12)).

Definition ParsePiece (m : Message.t) : result (Z * Z * list byte) :=
  if decide (Message.ID m ≠ MsgPiece) then Err "not a piece message"
  else if decide (len (Message.Payload m) < 8) then Err "invalid piece payload length"
  else Ok (Uint32 (slice (Message.Payload m) 0 4),
           Uint32 (slice (Message.Payload m) 4 8),
           drop 8 (Message.Payload m)).

Definition NewCancelMessage (index begin length : Z) :=
  NewMessage MsgCancel (PutUint32 index ++ PutUint32 begin ++ PutUint32 length).

Definition ParseCancel (m : Message.t) : result (Z * Z * Z) :=
  if decide (Message.ID m ≠ MsgCancel) then Err "not a cancel message"
  else if decide (len (Message.Payload m) ≠ 12) then Err "invalid cancel payload length"
  else Ok (Uint32 (slice (Message.Payload m) 0 4),
           Uint32 (slice (Message.Payload m) 4 8),
           Uint32 (slice (Message.Payload m) 8 12)).

(** [Serialize]; the nil message is the keep-alive.  The length prefix and
    the size of the buffer are [uint32] values; a buffer too short for the
    message id stands for the index-out-of-range panic, and [copy] fills
    what the buffer has room for. *)
Definition Serialize (m : option Message.t) : outcome (list byte) :=
  match m with
  | None => Returns [0; 0; 0; 0]
  | Some m =>
      let length := uint32 (1 + len (Message.Payload m)) in
      let size := uint32 (4 + length) in
      if decide (size < 5) then Panics "index out of range"
      else
        Returns (PutUint32 length ++ [Message.ID m]
                   ++ take (Z.to_nat (size - 5)) (Message.Payload m)
                   ++ make (size - 5 - len (Message.Payload m)))
  end.

(** [io.ReadFull(r, buf)] for a buffer of [n] bytes, on a reader that holds
    the bytes [r] and then ends. *)
Definition ReadFull (n : Z) (r : list byte) : result (list byte * list byte) :=
  if decide (len r < n) then Err "unexpected EOF"
  else Ok (take (Z.to_nat n) r, drop (Z.to_nat n) r).

(** [ReadMessage], with the bytes that are left in the reader. *)
Definition ReadMessage (r : list byte) : result (option Message.t * list byte) :=
  '(lengthBuf, r) ← ReadFull 4 r;
  let length := Uint32 lengthBuf in
  if decide (length = 0) then Ok (None, r)
  else if decide (length > MaxMessageLength) then Err "message too large"
  else
    '(messageBuf, r) ← ReadFull length r;
    match messageBuf with
    | id :: payload => Ok (Some (Message.mk id payload), r)
    | [] => Err "index out of range"
    end.

(** [IsValid] *)
Definition IsValid (m : option Message.t) : bool :=
  match m with
  | None => true
  | Some m =>
      let id := Message.ID m in
      let n := len (Message.Payload m) in
      if decide (id = MsgChoke ∨ id = MsgUnchoke ∨ id = MsgInterested
                 ∨ id = MsgNotInterested) then bool_decide (n = 0)
      else if decide (id = MsgHave) then bool_decide (n = 4)
      else if decide (id = MsgBitfield) then bool_decide (n > 0)
      else if decide (id = MsgRequest ∨ id = MsgCancel) then bool_decide (n = 12)
      else if decide (id = MsgPiece) then bool_decide (n >= 8)
      else if decide (id = MsgPort) then bool_decide (n = 2)
      else false
  end.

(** [MessageLength] *)
Definition MessageLength (m : option Message.t) : Z :=
  match m with
  | None => 4
  | Some m => 4 + 1 + len (Message.Payload m)
  end.

(** *** The handshake *)

Definition ProtocolIdentifier : list byte := bytes "BitTorrent protocol".
Definition HandshakeLength : Z := 68.

(** The arrays [[8]byte] and [[20]byte] are lists of that length. *)
Module Handshake.
Record t := mk {
  Pstr : list byte;
  Reserved : list byte;
  InfoHash : list byte;
  PeerID : list byte }.
End Handshake.

Definition NewHandshake (infoHash peerID : list byte) : Handshake.t :=
  Handshake.mk ProtocolIdentifier (make 8) infoHash peerID.

(** A window of [n] zero bytes of the buffer after [copy(window, src)]. *)
Definition copied (n : Z) (src : list byte) : list byte :=
  take (Z.to_nat n) src ++ make (n - len src).

(** [Handshake.Serialize] *)
Definition Handshake_Serialize (h : Handshake.t) : list byte :=
  [uint8 (len (Handshake.Pstr h))]
    ++ copied 19 (Handshake.Pstr h)
    ++ copied 8 (Handshake.Reserved h)
    ++ copied 20 (Handshake.InfoHash h)
    ++ copied 20 (Handshake.PeerID h).

(** [Read], with the bytes that are left in the reader. *)
Definition Read (r : list byte) : result (Handshake.t * list byte) :=
  '(lengthBuf, r) ← ReadFull 1 r;
  let pstrlen := default 0 (index lengthBuf 0) in
  if decide (pstrlen = 0) then Err "invalid protocol string length: 0"
  else
    '(handshakeBuf, r) ← ReadFull (pstrlen + 48) r;
    let pstr := slice handshakeBuf 0 pstrlen in
    if decide (pstr ≠ ProtocolIdentifier) then Err "invalid protocol identifier"
    else
      Ok (Handshake.mk pstr
            (slice handshakeBuf pstrlen (pstrlen + 8))
            (slice handshakeBuf (pstrlen + 8) (pstrlen + 28))
            (slice handshakeBuf (pstrlen + 28) (pstrlen + 48)),
          r).

Module Extensions.
Record t := mk { DHT : bool; FastPeers : bool; ExtProtocol : bool }.
End Extensions.

(** [ParseExtensions] *)
Definition ParseExtensions (h : Handshake.t) : Extensions.t :=
  let reserved i := default 0 (index (Handshake.Reserved h) i) in
  Extensions.mk
    (bool_decide (Z.land (reserved 7) 1 ≠ 0))
    (bool_decide (Z.land (reserved 7) 4 ≠ 0))
    (bool_decide (Z.land (reserved 5) 16 ≠ 0)).

(** [SetExtensions] *)
Definition SetExtensions (ext : Extensions.t) (h : Handshake.t) : Handshake.t :=
  let reserved7 := 0 in
  let reserved5 := 0 in
  let reserved7 := if Extensions.DHT ext then Z.lor reserved7 1 else reserved7 in
  let reserved7 := if Extensions.FastPeers ext then Z.lor reserved7 4 else reserved7 in
  let reserved5 := if Extensions.ExtProtocol ext then Z.lor reserved5 16 else reserved5 in
  Handshake.mk (Handshake.Pstr h) [0; 0; 0; 0; 0; reserved5; 0; reserved7]
    (Handshake.InfoHash h) (Handshake.PeerID h).

(** [ValidatePeerID] *)
Definition ValidatePeerID (peerID : list byte) : bool :=
  negb (forallb (λ b, bool_decide (b = 0)) peerID).

Module PeerState.
Record t := mk {
  AmChoking : bool;
  AmInterested : bool;
  PeerChoking : bool;
  PeerInterested : bool }.
End PeerState.

Definition NewPeerState : PeerState.t := PeerState.mk true false true false.

(** The fields of [Peer] that the protocol logic reads and writes.  [sendCh]
    holds the messages queued for the send loop (capacity 100); [closed]
    tells that the context of the peer is cancelled. *)
Module Peer.
Record t := mk {
  state : PeerState.t;
  bitfield : option (list byte);
  sendCh : list Message.t;
  closed : bool;
  lastSeen : Time }.
Definition with_state (s : PeerState.t) (p : t) : t :=
  mk s (bitfield p) (sendCh p) (closed p) (lastSeen p).
Definition with_bitfield (b : option (list byte)) (p : t) : t :=
  mk (state p) b (sendCh p) (closed p) (lastSeen p).
Definition with_sendCh (q : list Message.t) (p : t) : t :=
  mk (state p) (bitfield p) q (closed p) (lastSeen p).
End Peer.

Definition NewPeer (now : Time) : Peer.t := Peer.mk NewPeerState None [] false now.

(** [SendMessage]: the message is queued unless the peer is closed or the
    channel stays full for five seconds. *)
Definition SendMessage (msg : Message.t) (p : Peer.t) : Peer.t * option error :=
  if Peer.closed p then (p, Some "peer connection closed")
  else if decide (len (Peer.sendCh p) < 100) then
    (Peer.with_sendCh (Peer.sendCh p ++ [msg]) p, None)
  else (p, Some "send channel full").

Definition GetState (p : Peer.t) : PeerState.t := Peer.state p.

Definition GetBitfield (p : Peer.t) : option (list byte) := Peer.bitfield p.

(** [Peer.HasPiece]; indices are not negative at the call sites. *)
Definition HasPiece (index : Z) (p : Peer.t) : bool :=
  match Peer.bitfield p with
  | None => false
  | Some bitfield =>
      let byteIndex := index `quot` 8 in
      let bitIndex := index `rem` 8 in
      if decide (byteIndex >= len bitfield) then false
      else match go.index bitfield byteIndex with
           | Some b => negb (Z.land b (bit (7 - bitIndex)) =? 0)
           | None => false
           end
  end.

(** [setPieceUnsafe] (and [SetPiece], which takes the lock first) *)
Definition setPieceUnsafe (index : Z) (p : Peer.t) : Peer.t :=
  match Peer.bitfield p with
  | None => p
  | Some bitfield =>
      let byteIndex := index `quot` 8 in
      let bitIndex := index `rem` 8 in
      if decide (byteIndex >= len bitfield) then p
      else match go.index bitfield byteIndex with
           | Some b =>
               Peer.with_bitfield
                 (Some (<[Z.to_nat byteIndex := Z.lor b (bit (7 - bitIndex))]> bitfield)) p
           | None => p
           end
  end.

Definition SetPiece := setPieceUnsafe.

Definition set_PeerChoking (v : bool) (p : Peer.t) : Peer.t :=
  let s := Peer.state p in
  Peer.with_state
    (PeerState.mk (PeerState.AmChoking s) (PeerState.AmInterested s) v
       (PeerState.PeerInterested s)) p.

Definition set_PeerInterested (v : bool) (p : Peer.t) : Peer.t :=
  let s := Peer.state p in
  Peer.with_state
    (PeerState.mk (PeerState.AmChoking s) (PeerState.AmInterested s)
       (PeerState.PeerChoking s) v) p.

Definition set_AmInterested (v : bool) (p : Peer.t) : Peer.t :=
  let s := Peer.state p in
  Peer.with_state
    (PeerState.mk (PeerState.AmChoking s) v (PeerState.PeerChoking s)
       (PeerState.PeerInterested s)) p.

(** [handleMessage]: [None] is a keep-alive. *)
Definition handleMessage (msg : option Message.t) (p : Peer.t)
    : Peer.t * option error :=
  match msg with
  | None => (p, None)
  | Some msg =>
      let id := Message.ID msg in
      if decide (id = MsgChoke) then (set_PeerChoking true p, None)
      else if decide (id = MsgUnchoke) then (set_PeerChoking false p, None)
      else if decide (id = MsgInterested) then (set_PeerInterested true p, None)
      else if decide (id = MsgNotInterested) then (set_PeerInterested false p, None)
      else if decide (id = MsgHave) then
        match ParseHave msg with
        | Err e => (p, Some e)
        | Ok index => (setPieceUnsafe index p, None)
        end
      else if decide (id = MsgBitfield) then
        match ParseBitfield msg with
        | Err e => (p, Some e)
        | Ok bitfield => (Peer.with_bitfield (Some bitfield) p, None)
        end
      else (p, None)
  end.

Definition Interested (p : Peer.t) : Peer.t * option error :=
  SendMessage NewInterestedMessage (set_AmInterested true p).

Definition NotInterested (p : Peer.t) : Peer.t * option error :=
  SendMessage NewNotInterestedMessage (set_AmInterested false p).

(** [RequestPiece(index, begin, length uint32)] *)
Definition RequestPiece (index begin length : Z) (p : Peer.t)
    : Peer.t * option error :=
  if PeerState.PeerChoking (GetState p) then (p, Some "peer is choking us")
  else SendMessage (NewRequestMessage index begin length) p.

Definition CanDownload (p : Peer.t) : bool :=
  negb (PeerState.PeerChoking (GetState p)) && PeerState.AmInterested (GetState p).

Definition CanUpload (p : Peer.t) : bool :=
  negb (PeerState.AmChoking (GetState p)) && PeerState.PeerInterested (GetState p).

Definition NeedsPieces (neededPieces : list Z) (p : Peer.t) : bool :=
  match Peer.bitfield p with
  | None => false
  | Some _ => existsb (λ pieceIndex, HasPiece pieceIndex p) neededPieces
  end.

Definition EnsureInterested (neededPieces : list Z) (p : Peer.t)
    : Peer.t * option error :=
  let shouldBeInterested := NeedsPieces neededPieces p in
  let state := GetState p in
  if shouldBeInterested && negb (PeerState.AmInterested state) then Interested p
  else if negb shouldBeInterested && PeerState.AmInterested state then NotInterested p
  else (p, None).

(** *** The peer manager: the path of a received PIECE message *)

(** The interfaces [PieceManager] and [PieceHandler] of the peer manager.
    The objects behind them are shared with the coordinator, so their states
    are passed next to the manager, not stored in it. *)
Class PieceManager (PM : Type) := {
  ReadBlockFromDisk : Z → Z → Z → PM → outcome (result (list byte));
  AddBlockData : Z → Z → list byte → PM → outcome (PM * option error) }.

Class PieceHandler (PH : Type) := {
  HandlePieceReceived : Z → Z → PH → PH }.

Module Manager.
Record t := mk {
  peers : gmap string nat;
  bitfield : list byte;
  BytesDownloaded : Z;
  BytesUploaded : Z;
  pieceManager_set : bool;
  pieceHandler_set : bool }.
End Manager.

Section manager.
Context {PM PH : Type} `{PieceManager PM} `{PieceHandler PH}.

(** [handlePieceData(peer, index, begin, block)]: nothing is sent to, or
    changed in, the peer that delivered the block. *)
Definition handlePieceData (index begin : Z) (block : list byte)
    (m : Manager.t) (pm : PM) (ph : PH) : outcome (Manager.t * PM * PH) :=
  let m :=
    Manager.mk (Manager.peers m) (Manager.bitfield m)
      (int64 (Manager.BytesDownloaded m + len block)) (Manager.BytesUploaded m)
      (Manager.pieceManager_set m) (Manager.pieceHandler_set m) in
  if Manager.pieceManager_set m then
    r ← AddBlockData index begin block pm;
    let pm := r.1 in
    if Manager.pieceHandler_set m then
      Returns (m, pm, HandlePieceReceived index begin ph)
    else Returns (m, pm, ph)
  else Returns (m, pm, ph).

(** [handlePeerMessage] for a PIECE message. *)
Definition handlePeerMessage_piece (msg : Message.t)
    (m : Manager.t) (pm : PM) (ph : PH) : outcome (Manager.t * PM * PH) :=
  match ParsePiece msg with
  | Err _ => Returns (m, pm, ph)
  | Ok (index, begin, block) => handlePieceData index begin block m pm ph
  end.

End manager.

End peer.

(* --------------------------------------------------------------------- *)
(** ** Package [download]: the coordinator *)
(* --------------------------------------------------------------------- *)

Module download.
Import go.

(** The interface [PieceManager] of the coordinator. *)
Class PieceManager (PM : Type) := {
  GetNeededPieces : PM → list Z;
  SelectPieceForPeer : list byte → PM → result Z;
  GetBlockRequests : Z → PM → list piece.BlockRequest.t;
  RequestBlock : Time → Z → Z → Z → PM → PM * option error;
  GetProgressCounts : PM → Z * Z }.

(** [RequestInfo]; [Peer] is the pointer to the peer, its key in the store
    of peers. *)
Module RequestInfo.
Record t := mk {
  PieceIndex : Z;
  Begin : Z;
  Length : Z;
  RequestedAt : Time;
  Peer : nat }.
End RequestInfo.

Module Coordinator.
Record t := mk {
  activeRequests : gmap string RequestInfo.t;
  maxRequestsPerPeer : Z;
  requestTimeout : Z;
  downloadedPieces : Z;
  totalPieces : Z }.
Definition with_activeRequests (a : gmap string RequestInfo.t) (c : t) : t :=
  mk a (maxRequestsPerPeer c) (requestTimeout c) (downloadedPieces c) (totalPieces c).
End Coordinator.

Definition NewCoordinator : Coordinator.t :=
  Coordinator.mk ∅ 10 (15 * Second) 0 0.

(** The key [fmt.Sprintf("%d:%d", pieceIndex, begin)]. *)
Definition requestKey (pieceIndex begin : Z) : string :=
  pretty pieceIndex +:+ ":" +:+ pretty begin.

(** [countActiveRequestsForPeer] *)
Definition countActiveRequestsForPeer (targetPeer : nat) (c : Coordinator.t) : Z :=
  Z.of_nat (size (filter (λ kr, RequestInfo.Peer kr.2 = targetPeer)
                         (Coordinator.activeRequests c))).

(** [cleanupTimedOutRequests] at time [now] *)
Definition cleanupTimedOutRequests (now : Time) (c : Coordinator.t) : Coordinator.t :=
  Coordinator.with_activeRequests
    (filter (λ kr, ¬ (int64 (now - RequestInfo.RequestedAt kr.2)
                        > Coordinator.requestTimeout c))
            (Coordinator.activeRequests c)) c.

(** [HandlePieceReceived] *)
Definition HandlePieceReceived (pieceIndex begin : Z) (c : Coordinator.t)
    : Coordinator.t :=
  let requestKey := requestKey pieceIndex begin in
  match Coordinator.activeRequests c !! requestKey with
  | Some _ =>
      Coordinator.with_activeRequests (delete requestKey (Coordinator.activeRequests c)) c
  | None => c
  end.

Section coordinator.
Context {PM : Type} `{PieceManager PM}.

(** The loop over the block requests of [requestPiecesFromPeer]: the state
    is the request map, the peer, the piece manager and [requestsMade]. *)
Fixpoint requestLoop (now : Time) (p : nat) (pieceIndex requestsToMake : Z)
    (blockRequests : list piece.BlockRequest.t) (requestsMade : Z)
    (active : gmap string RequestInfo.t) (pr : peer.Peer.t) (pm : PM)
    : gmap string RequestInfo.t * peer.Peer.t * PM :=
  match blockRequests with
  | [] => (active, pr, pm)
  | blockReq :: rest =>
      if decide (requestsMade >= requestsToMake) then (active, pr, pm)
      else
        let key := requestKey pieceIndex (piece.BlockRequest.Begin blockReq) in
        match active !! key with
        | Some _ =>
            requestLoop now p pieceIndex requestsToMake rest requestsMade active pr pm
        | None =>
            match peer.RequestPiece (uint32 pieceIndex)
                    (uint32 (piece.BlockRequest.Begin blockReq))
                    (uint32 (piece.BlockRequest.Length blockReq)) pr with
            | (pr, Some _) =>
                requestLoop now p pieceIndex requestsToMake rest requestsMade active pr pm
            | (pr, None) =>
                let active :=
                  <[key := RequestInfo.mk pieceIndex
                             (piece.BlockRequest.Begin blockReq)
                             (piece.BlockRequest.Length blockReq) now p]> active in
                let pm :=
                  (RequestBlock now pieceIndex (piece.BlockRequest.Begin blockReq)
                     (piece.BlockRequest.Length blockReq) pm).1 in
                requestLoop now p pieceIndex requestsToMake rest
                  (int64 (requestsMade + 1)) active pr pm
            end
        end
  end.

(** [requestPiecesFromPeer(p, neededPieces)] at time [now]; [pr] is the
    peer that [p] points to. *)
Definition requestPiecesFromPeer (now : Time) (p : nat) (neededPieces : list Z)
    (c : Coordinator.t) (pr : peer.Peer.t) (pm : PM)
    : Coordinator.t * peer.Peer.t * PM :=
  let activeCount := countActiveRequestsForPeer p c in
  if decide (activeCount >= Coordinator.maxRequestsPerPeer c) then (c, pr, pm)
  else
    match peer.GetBitfield pr with
    | None => (c, pr, pm)
    | Some bitfield =>
        let availablePieces :=
          filter (λ pieceIndex, peer.HasPiece pieceIndex pr = true) neededPieces in
        if decide (len availablePieces = 0) then (c, pr, pm)
        else
          match SelectPieceForPeer bitfield pm with
          | Err _ => (c, pr, pm)
          | Ok pieceIndex =>
              let blockRequests := GetBlockRequests pieceIndex pm in
              let requestsToMake :=
                int64 (Coordinator.maxRequestsPerPeer c - activeCount) in
              let '(active, pr, pm) :=
                requestLoop now p pieceIndex requestsToMake blockRequests 0
                  (Coordinator.activeRequests c) pr pm in
              (Coordinator.with_activeRequests active c, pr, pm)
          end
    end.

(** [updateProgress] *)
Definition updateProgress (c : Coordinator.t) (pm : PM) : Coordinator.t :=
  let '(downloaded, total) := GetProgressCounts pm in
  Coordinator.mk (Coordinator.activeRequests c) (Coordinator.maxRequestsPerPeer c)
    (Coordinator.requestTimeout c) downloaded total.

(** The first loop of [processDownloadCycle]: interest is updated for every
    connected peer. *)
Fixpoint ensureAll (peers : list nat) (neededPieces : list Z)
    (heap : gmap nat peer.Peer.t) : gmap nat peer.Peer.t :=
  match peers with
  | [] => heap
  | p :: rest =>
      match heap !! p with
      | Some pr =>
          ensureAll rest neededPieces
            (<[p := (peer.EnsureInterested neededPieces pr).1]> heap)
      | None => ensureAll rest neededPieces heap
      end
  end.

(** The second loop: requests to every peer that can be downloaded from. *)
Fixpoint requestAll (now : Time) (peers : list nat) (neededPieces : list Z)
    (c : Coordinator.t) (heap : gmap nat peer.Peer.t) (pm : PM)
    : Coordinator.t * gmap nat peer.Peer.t * PM :=
  match peers with
  | [] => (c, heap, pm)
  | p :: rest =>
      match heap !! p with
      | Some pr =>
          if peer.CanDownload pr then
            let '(c, pr, pm) := requestPiecesFromPeer now p neededPieces c pr pm in
            requestAll now rest neededPieces c (<[p := pr]> heap) pm
          else requestAll now rest neededPieces c heap pm
      | None => requestAll now rest neededPieces c heap pm
      end
  end.

(** [processDownloadCycle]; [peers] is what [GetConnectedPeers] returns. *)
Definition processDownloadCycle (now : Time) (peers : list nat)
    (c : Coordinator.t) (heap : gmap nat peer.Peer.t) (pm : PM)
    : Coordinator.t * gmap nat peer.Peer.t * PM :=
  if decide (len peers = 0) then (c, heap, pm)
  else
    let neededPieces := GetNeededPieces pm in
    if decide (len neededPieces = 0) then (c, heap, pm)
    else
      let neededPieces :=
        if decide (len neededPieces > 500) then slice neededPieces 0 500
        else neededPieces in
      let heap := ensureAll peers neededPieces heap in
      let '(c, heap, pm) := requestAll now peers neededPieces c heap pm in
      (updateProgress c pm, heap, pm).

End coordinator.

(** The REQUEST message that the coordinator sends for a block. *)
Definition requestMessage (pieceIndex : Z) (blockReq : piece.BlockRequest.t)
    : peer.Message.t :=
  peer.NewRequestMessage (uint32 pieceIndex)
    (uint32 (piece.BlockRequest.Begin blockReq))
    (uint32 (piece.BlockRequest.Length blockReq)).

(** The key and the entry of the request map for a block of a piece. *)
Definition keyOf (pieceIndex : Z) (b : piece.BlockRequest.t) : string :=
  requestKey pieceIndex (piece.BlockRequest.Begin b).

Definition entryOf (now : Time) (p : nat) (pieceIndex : Z) (b : piece.BlockRequest.t)
    : RequestInfo.t :=
  RequestInfo.mk pieceIndex (piece.BlockRequest.Begin b)
    (piece.BlockRequest.Length b) now p.

(** Every entry of the request map is stored under the key of its block. *)
Definition keyed (active : gmap string RequestInfo.t) : Prop :=
  ∀ k r, active !! k = Some r →
         k = requestKey (RequestInfo.PieceIndex r) (RequestInfo.Begin r).

(** No peer has more outstanding requests than [maxRequestsPerPeer]. *)
Definition capped (c : Coordinator.t) : Prop :=
  ∀ p, countActiveRequestsForPeer p c ≤ Coordinator.maxRequestsPerPeer c.

(** No two entries of the request map are for the same (piece, offset). *)
Definition atMostOne (active : gmap string RequestInfo.t) : Prop :=
  ∀ k1 k2 r1 r2, active !! k1 = Some r1 → active !! k2 = Some r2 →
    RequestInfo.PieceIndex r1 = RequestInfo.PieceIndex r2 →
    RequestInfo.Begin r1 = RequestInfo.Begin r2 →
    k1 = k2 ∧ r1 = r2.

End download.

(* --------------------------------------------------------------------- *)
(** ** Package [bencode]: the codec, as [torrent.Parse] uses it *)
(* --------------------------------------------------------------------- *)

Module bencode.
Import go.

(** The values that decoding into [interface{}] builds: [int64], [string],
    [[]interface{}] and [map[string]interface{}].  A Go map is modelled by
    the list of its entries, without duplicate keys, in the order of first
    insertion; the order is not observable, the encoder sorts the keys. *)
#[warnings="-register-all"]
Inductive Value :=
| Int (n : Z)
| Str (s : list byte)
| List (l : list Value)
| Dict (m : list (list byte * Value)).

(** [m[key] = val] *)
Fixpoint mapAssign (key : list byte) (val : Value) (m : list (list byte * Value))
    : list (list byte * Value) :=
  match m with
  | [] => [(key, val)]
  | (k, v) :: m' =>
      if decide (k = key) then (key, val) :: m' else (k, v) :: mapAssign key val m'
  end.

(** [m[key]] *)
Fixpoint mapIndex (key : list byte) (m : list (list byte * Value)) : option Value :=
  match m with
  | [] => None
  | (k, v) :: m' => if decide (k = key) then Some v else mapIndex key m'
  end.

(** Go's [<] on strings: bytewise lexicographic. *)
Fixpoint stringLess (a b : list byte) : bool :=
  match a, b with
  | _, [] => false
  | [], _ :: _ => true
  | x :: a', y :: b' =>
      if decide (x < y) then true
      else if decide (y < x) then false
      else stringLess a' b'
  end.

(** *** Integers in decimal *)

Definition ch_minus : byte := 45.
Definition ch_plus : byte := 43.
Definition ch_0 : byte := 48.
Definition ch_9 : byte := 57.
Definition ch_colon : byte := 58.
Definition ch_d : byte := 100.
Definition ch_e : byte := 101.
Definition ch_i : byte := 105.
Definition ch_l : byte := 108.

Definition isDigit (b : byte) : bool := bool_decide (ch_0 ≤ b ≤ ch_9).

(** The digits of [n >= 0], most significant first, in front of [acc]. *)
Fixpoint formatDigits (fuel : nat) (n : Z) (acc : list byte) : list byte :=
  match fuel with
  | O => acc
  | S fuel =>
      let acc := (ch_0 + n `mod` 10) :: acc in
      if decide (n < 10) then acc else formatDigits fuel (n `div` 10) acc
  end.

(** [fmt.Sprintf("%d", n)] as bytes. *)
Definition formatInt (n : Z) : list byte :=
  if decide (n < 0) then ch_minus :: formatDigits (S (Z.to_nat (Z.log2 (- n)))) (- n) []
  else formatDigits (S (Z.to_nat (Z.log2 n))) n [].

Fixpoint parseDigits (acc : Z) (s : list byte) : option Z :=
  match s with
  | [] => Some acc
  | b :: s' => if isDigit b then parseDigits (acc * 10 + (b - ch_0)) s' else None
  end.

(** [strconv.ParseInt(s, 10, 64)]: an optional sign, at least one digit,
    only digits, and a value that fits [int64]. *)
Definition ParseInt (s : list byte) : option Z :=
  match s with
  | [] => None
  | b :: s' =>
      let '(neg, digits) :=
        if decide (b = ch_plus) then (false, s')
        else if decide (b = ch_minus) then (true, s')
        else (false, s) in
      match digits with
      | [] => None
      | _ :: _ =>
          un ← parseDigits 0 digits;
          if decide (un >= 2 ^ 64) then None
          else if neg then (if decide (un > 2 ^ 63) then None else Some (- un))
          else (if decide (un >= 2 ^ 63) then None else Some un)
      end
  end.

(** *** The decoder *)

(** The decoder reads from [d.r] through a one-byte push-back buffer; the
    buffer is empty whenever [d.r] is read directly, so the state of the
    decoder is the input that is left. *)

(** [readUntil(delim)] *)
Fixpoint readUntil (delim : byte) (s : list byte) : result (list byte * list byte) :=
  match s with
  | [] => Err "EOF"
  | b :: s' =>
      if decide (b = delim) then Ok ([], s')
      else '(buf, rest) ← readUntil delim s'; Ok (b :: buf, rest)
  end.

(** The kinds of the values [torrent.Parse] decodes into: the key of a
    dictionary is a [string], every other value an [interface{}], and the
    top level a [map[string]interface{}]. *)
Inductive Kind := KString | KInterface | KMap.

Definition decodeInt (k : Kind) (s : list byte) : result (Value * list byte) :=
  '(data, rest) ← readUntil ch_e s;
  match ParseInt data with
  | None => Err "invalid bencode: invalid integer"
  | Some n =>
      match k with
      | KInterface => Ok (Int n, rest)
      | _ => Err "cannot decode integer"
      end
  end.

Definition decodeString (k : Kind) (s : list byte) : result (Value * list byte) :=
  '(lengthData, rest) ← readUntil ch_colon s;
  match ParseInt lengthData with
  | None => Err "invalid bencode: invalid string length"
  | Some length =>
      if decide (length < 0) then Err "invalid bencode: invalid string length"
      else if decide (len rest < length) then Err "unexpected EOF"
      else
        let data := take (Z.to_nat length) rest in
        let rest := drop (Z.to_nat length) rest in
        match k with
        | KString | KInterface => Ok (Str data, rest)
        | KMap => Err "cannot decode string"
        end
  end.

(** [decode], with the loops of [decodeList] and [decodeDict]; [fuel] bounds
    the depth of the calls, and the length of the input is enough. *)
Fixpoint decode (fuel : nat) (k : Kind) (s : list byte) {struct fuel}
    : result (Value * list byte) :=
  match fuel with
  | O => Err "out of fuel"
  | S fuel =>
      match s with
      | [] => Err "EOF"
      | b :: s' =>
          if decide (b = ch_i) then decodeInt k s'
          else if decide (b = ch_l) then
            match k with
            | KInterface => decodeListLoop fuel s' []
            | _ => Err "cannot decode list"
            end
          else if decide (b = ch_d) then
            match k with
            | KInterface | KMap => decodeDictLoop fuel s' []
            | KString => Err "cannot decode dict"
            end
          else if isDigit b then decodeString k s
          else Err "invalid bencode: unexpected byte"
      end
  end
with decodeListLoop (fuel : nat) (s : list byte) (items : list Value) {struct fuel}
    : result (Value * list byte) :=
  match fuel with
  | O => Err "out of fuel"
  | S fuel =>
      match s with
      | [] => Err "EOF"
      | b :: s' =>
          if decide (b = ch_e) then Ok (List items, s')
          else
            '(elem, rest) ← decode fuel KInterface s;
            decodeListLoop fuel rest (items ++ [elem])
      end
  end
with decodeDictLoop (fuel : nat) (s : list byte) (m : list (list byte * Value))
    {struct fuel} : result (Value * list byte) :=
  match fuel with
  | O => Err "out of fuel"
  | S fuel =>
      match s with
      | [] => Err "EOF"
      | b :: s' =>
          if decide (b = ch_e) then Ok (Dict m, s')
          else
            '(key, rest) ← decode fuel KString s;
            '(val, rest) ← decode fuel KInterface rest;
            match key with
            | Str key => decodeDictLoop fuel rest (mapAssign key val m)
            | _ => Err "cannot decode"
            end
      end
  end.

(** [bencode.Decode(data, &raw)] for [raw map[string]interface{}]; data
    after the value is ignored. *)
Definition Decode (data : list byte) : result (list (list byte * Value)) :=
  '(v, _) ← decode (S (length data)) KMap data;
  match v with
  | Dict m => Ok m
  | _ => Err "cannot decode"
  end.

(** The values that a target of each kind takes without a decoding error. *)
Definition assignable (k : Kind) (v : Value) : bool :=
  match k, v with
  | KInterface, _ => true
  | KString, Str _ => true
  | KMap, Dict _ => true
  | _, _ => false
  end.

(** *** The encoder *)

Definition encodeInt (n : Z) : list byte := [ch_i] ++ formatInt n ++ [ch_e].

Definition encodeBytes (b : list byte) : list byte :=
  formatInt (len b) ++ [ch_colon] ++ b.

(** [encode] of a decoded value; [encodeDict] sorts the keys and writes the
    entries in that order. *)
Fixpoint encode (v : Value) : list byte :=
  match v with
  | Int n => encodeInt n
  | Str s => encodeBytes s
  | List l =>
      [ch_l] ++ (fix encodeList (l : list Value) : list byte :=
                   match l with
                   | [] => []
                   | x :: l' => encode x ++ encodeList l'
                   end) l ++ [ch_e]
  | Dict m =>
      let entries :=
        (fix encodeEntries (m : list (list byte * Value))
             : list (list byte * list byte) :=
           match m with
           | [] => []
           | (k, x) :: m' => (k, encode x) :: encodeEntries m'
           end) m in
      [ch_d] ++ concat ((λ e, encodeBytes e.1 ++ e.2)
                          <$> sortSlice (λ a b, stringLess a.1 b.1) entries)
             ++ [ch_e]
  end.

(** One entry of a dictionary as [encodeDict] writes it. *)
Definition encodeEntry (kv : list byte * Value) : list byte :=
  encodeBytes kv.1 ++ encode kv.2.

(** The round trip of one value: the decoder, given fuel for the length of
    the encoding, reads the value back and leaves what follows it. *)
Definition readsBack (v : Value) : Prop :=
  ∀ k fuel rest, assignable k v = true → (length (encode v) ≤ fuel)%nat →
    decode fuel k (encode v ++ rest) = Ok (v, rest).

(** [bencode.Encode] *)
Definition Encode (v : Value) : list byte := encode v.

(** *** Canonical values *)

(** Keys in strictly ascending order. *)
Fixpoint ascending (keys : list (list byte)) : Prop :=
  match keys with
  | k1 :: rest =>
      match rest with
      | k2 :: _ => stringLess k1 k2 = true
      | [] => True
      end ∧ ascending rest
  | [] => True
  end.

(** The values whose encoding is read back as the same value: integers and
    lengths fit [int64] and the entries of every dictionary are listed in
    ascending order of their keys.  The canonical bencoding of the BitTorrent
    specification (sorted keys, decimal integers without leading zeros) is
    the encoding of such a value. *)
Fixpoint canonical (v : Value) : Prop :=
  match v with
  | Int n => - 2 ^ 63 ≤ n < 2 ^ 63
  | Str s => len s < 2 ^ 63
  | List l =>
      (fix all (l : list Value) : Prop :=
         match l with
         | [] => True
         | x :: l' => canonical x ∧ all l'
         end) l
  | Dict m =>
      ascending (m.*1) ∧
      (fix all (m : list (list byte * Value)) : Prop :=
         match m with
         | [] => True
         | (k, x) :: m' => len k < 2 ^ 63 ∧ canonical x ∧ all m'
         end) m
  end.

End bencode.

(* --------------------------------------------------------------------- *)
(** ** Package [torrent]: the metainfo *)
(* --------------------------------------------------------------------- *)

Module torrent.
Import go.

Module File.
Record t := mk { Length : Z; Path : list (list byte) }.
End File.

Module Info.
Record t := mk {
  PieceLength : Z;
  Pieces : list byte;
  Name : list byte;
  Length : Z;
  Files : list File.t }.
End Info.

Module Torrent.
Record t := mk {
  Announce : list byte;
  AnnounceList : list (list (list byte));
  CreatedBy : list byte;
  CreationDate : Z;
  Comment : list byte;
  InfoHash : list byte;
  Info : Info.t }.
End Torrent.

(** The type assertions [x.(string)], [x.(int64)], [x.([]interface{})] and
    [x.(map[string]interface{})] on the value of a key that may be absent. *)
Definition asString (v : option bencode.Value) : option (list byte) :=
  match v with Some (bencode.Str s) => Some s | _ => None end.
Definition asInt64 (v : option bencode.Value) : option Z :=
  match v with Some (bencode.Int n) => Some n | _ => None end.
Definition asList (v : option bencode.Value) : option (list bencode.Value) :=
  match v with Some (bencode.List l) => Some l | _ => None end.
Definition asDict (v : option bencode.Value)
    : option (list (list byte * bencode.Value)) :=
  match v with Some (bencode.Dict m) => Some m | _ => None end.

(** The strings of a list, other elements skipped. *)
Definition stringsOf (l : list bencode.Value) : list (list byte) :=
  omap (λ v, asString (Some v)) l.

Definition parseAnnounceList (announceList : list bencode.Value)
    : list (list (list byte)) :=
  omap (λ tier,
          match asList (Some tier) with
          | Some tierList =>
              let tierUrls := stringsOf tierList in
              if decide (len tierUrls > 0) then Some tierUrls else None
          | None => None
          end) announceList.

Definition parseFile (file : bencode.Value) : option File.t :=
  match asDict (Some file) with
  | Some fileDict =>
      let length := default 0 (asInt64 (bencode.mapIndex (bytes "length") fileDict)) in
      let path :=
        match asList (bencode.mapIndex (bytes "path") fileDict) with
        | Some pathList => stringsOf pathList
        | None => []
        end in
      if decide (length > 0 ∧ len path > 0) then Some (File.mk length path) else None
  | None => None
  end.

(** [Validate] *)
Definition Validate (t : Torrent.t) : option error :=
  let info := Torrent.Info t in
  if decide (Info.PieceLength info ≤ 0) then Some "invalid piece length"
  else if decide (len (Info.Pieces info) `rem` 20 ≠ 0) then
    Some "pieces hash length is not a multiple of 20"
  else if decide (Info.Name info = []) then Some "torrent name is empty"
  else if decide (len (Info.Files info) = 0 ∧ Info.Length info ≤ 0) then
    Some "invalid file length"
  else if existsb (λ file, bool_decide (File.Length file < 0)) (Info.Files info) then
    Some "file has invalid length"
  else if existsb (λ file, bool_decide (len (File.Path file) = 0)) (Info.Files info) then
    Some "file has empty path"
  else None.

Section parse.
Context `{Sha1}.

(** The bytes that [Parse] hashes: the decoded [info] dictionary encoded
    again. *)
Definition infoBencoded (data : list byte) : result (list byte) :=
  raw ← bencode.Decode data;
  match asDict (bencode.mapIndex (bytes "info") raw) with
  | None => Err "missing info dictionary"
  | Some infoDict => Ok (bencode.Encode (bencode.Dict infoDict))
  end.

(** [Parse], from the bytes that [io.ReadAll] returned. *)
Definition Parse (data : list byte) : result Torrent.t :=
  raw ← bencode.Decode data;
  match asDict (bencode.mapIndex (bytes "info") raw) with
  | None => Err "missing info dictionary"
  | Some infoDict =>
      let infoBencoded := bencode.Encode (bencode.Dict infoDict) in
      let infoHash := sha1_Sum infoBencoded in
      let announce := default [] (asString (bencode.mapIndex (bytes "announce") raw)) in
      let announceList :=
        match asList (bencode.mapIndex (bytes "announce-list") raw) with
        | Some l => parseAnnounceList l
        | None => []
        end in
      let createdBy := default [] (asString (bencode.mapIndex (bytes "created by") raw)) in
      let creationDate :=
        default 0 (asInt64 (bencode.mapIndex (bytes "creation date") raw)) in
      let comment := default [] (asString (bencode.mapIndex (bytes "comment") raw)) in
      let pieceLength :=
        default 0 (asInt64 (bencode.mapIndex (bytes "piece length") infoDict)) in
      let pieces := default [] (asString (bencode.mapIndex (bytes "pieces") infoDict)) in
      let name := default [] (asString (bencode.mapIndex (bytes "name") infoDict)) in
      let '(length, files) :=
        match asInt64 (bencode.mapIndex (bytes "length") infoDict) with
        | Some length => (length, [])
        | None =>
            match asList (bencode.mapIndex (bytes "files") infoDict) with
            | Some files => (0, omap parseFile files)
            | None => (0, [])
            end
        end in
      let t :=
        Torrent.mk announce announceList createdBy creationDate comment infoHash
          (Info.mk pieceLength pieces name length files) in
      match Validate t with
      | Some _ => Err "invalid torrent"
      | None => Ok t
      end
  end.

End parse.

(** The bencoded [info] dictionary as its bytes appear in the input: the
    top-level dictionary is scanned entry by entry, and the bytes that the
    value of (the last) key [info] occupies are returned. *)
Fixpoint infoSource_loop (fuel : nat) (s : list byte) (found : option (list byte))
    : result (option (list byte)) :=
  match fuel with
  | O => Err "out of fuel"
  | S fuel =>
      match s with
      | [] => Err "EOF"
      | b :: s' =>
          if decide (b = bencode.ch_e) then Ok found
          else
            '(key, rest) ← bencode.decode (S (length s)) bencode.KString s;
            '(_, rest') ← bencode.decode (S (length rest)) bencode.KInterface rest;
            let raw := take (length rest - length rest') rest in
            infoSource_loop fuel rest'
              (match key with
               | bencode.Str k => if decide (k = bytes "info") then Some raw else found
               | _ => found
               end)
      end
  end.

Definition infoSource (data : list byte) : result (list byte) :=
  match data with
  | b :: s =>
      if decide (b = bencode.ch_d) then
        found ← infoSource_loop (length data) s None;
        match found with
        | Some raw => Ok raw
        | None => Err "missing info dictionary"
        end
      else Err "not a dictionary"
  | [] => Err "EOF"
  end.

(** What the scan of [infoSource] holds after the entries [m]: the encoding
    of the value of the last key [info]. *)
Definition infoFound (found : option (list byte)) (m : list (list byte * bencode.Value))
    : option (list byte) :=
  foldl (λ found kv,
           if decide (kv.1 = bytes "info") then Some (bencode.encode kv.2) else found)
        found m.

Definition IsSingleFile (t : Torrent.t) : bool :=
  bool_decide (len (Info.Files (Torrent.Info t)) = 0).

Definition TotalLength (t : Torrent.t) : Z :=
  if IsSingleFile t then Info.Length (Torrent.Info t)
  else foldl (λ total file, int64 (total + File.Length file)) 0
         (Info.Files (Torrent.Info t)).

(** The length of the byte stream that the files of a manifest form when
    they are concatenated: the sum of their lengths, without wrap-around. *)
Definition streamLength (files : list File.t) : Z :=
  foldr (λ file total, File.Length file + total) 0 files.

Definition NumPieces (t : Torrent.t) : Z :=
  len (Info.Pieces (Torrent.Info t)) `quot` 20.

Definition PieceHash (index : Z) (t : Torrent.t) : result (list byte) :=
  if decide (index < 0 ∨ index >= NumPieces t) then Err "piece index out of range"
  else
    let start := index * 20 in
    Ok (slice (Info.Pieces (Torrent.Info t)) start (start + 20)).

Definition PieceSize (index : Z) (t : Torrent.t) : Z :=
  if decide (index < 0 ∨ index >= NumPieces t) then 0
  else
    let totalLength := TotalLength t in
    let pieceLength := Info.PieceLength (Torrent.Info t) in
    if decide (index < NumPieces t - 1) then pieceLength
    else
      let lastPieceSize := totalLength `rem` pieceLength in
      if decide (lastPieceSize = 0) then pieceLength else lastPieceSize.

(** [GetAnnounceURLs]: the announce URL, then the URLs of the tiers that
    are not in the list yet. *)
Definition GetAnnounceURLs (t : Torrent.t) : list (list byte) :=
  let urls := if decide (Torrent.Announce t ≠ []) then [Torrent.Announce t] else [] in
  foldl (λ urls tier,
           foldl (λ urls url, if decide (url ∈ urls) then urls else urls ++ [url])
                 urls tier)
        urls (Torrent.AnnounceList t).

End torrent.

(* --------------------------------------------------------------------- *)
(** ** Package [disk]: the disk manager *)
(* --------------------------------------------------------------------- *)

Module disk.
Import go.

(** The files of the operating system: the content of every path that
    exists.  Operations of the operating system do not fail in the model,
    except for the errors that depend on the arguments alone. *)

(** [os.File.Truncate(size)] *)
Definition truncate (size : Z) (content : list byte) : list byte :=
  take (Z.to_nat size) content ++ make (size - len content).

(** [os.File.WriteAt(b, off)] for [off >= 0]: a write past the end fills
    the gap with zeros. *)
Definition writeAt (b : list byte) (off : Z) (content : list byte) : list byte :=
  let content := content ++ make (off - len content) in
  take (Z.to_nat off) content ++ b ++ drop (Z.to_nat off + length b) content.

(** [os.File.ReadAt(b, off)] for [off >= 0]: the bytes of [b] that the
    file does not cover keep their value (and the call returns [io.EOF]). *)
Definition readAt (b : list byte) (off : Z) (content : list byte) : list byte :=
  let chunk := take (length b) (drop (Z.to_nat off) content) in
  chunk ++ drop (length chunk) b.

(** The manager with the files it works on: [files] holds the paths of the
    open handles, [fs] the content of the files of the operating system. *)
Module Manager.
Record t := mk {
  torrent : torrent.Torrent.t;
  downloadDir : list byte;
  files : gset (list byte);
  totalSize : Z;
  pieceHashes : list (list byte);
  fs : gmap (list byte) (list byte) }.
Definition with_fs (fs : gmap (list byte) (list byte)) (d : t) : t :=
  mk (torrent d) (downloadDir d) (files d) (totalSize d) (pieceHashes d) fs.
Definition with_files (files : gset (list byte)) (d : t) : t :=
  mk (torrent d) (downloadDir d) files (totalSize d) (pieceHashes d) (fs d).
End Manager.

Section disk.
Context `{Sha1} `{FilePath}.

(** [NewManager(torrent, downloadDir)] on the file system [fs]. *)
Definition NewManager (t : torrent.Torrent.t) (downloadDir : list byte)
    (fs : gmap (list byte) (list byte)) : Manager.t :=
  let pieceHashes :=
    (λ i : nat,
       match torrent.PieceHash (Z.of_nat i) t with
       | Ok hash => hash
       | Err _ => replicate 20 0
       end) <$> seq 0 (Z.to_nat (torrent.NumPieces t)) in
  Manager.mk t downloadDir ∅ (torrent.TotalLength t) pieceHashes fs.

Definition info (d : Manager.t) : torrent.Info.t :=
  torrent.Torrent.Info (Manager.torrent d).

(** The path of the single file. *)
Definition filePath (d : Manager.t) : list byte :=
  filepath_Join (Manager.downloadDir d) (torrent.Info.Name (info d)).

(** The path of a file of the manifest: the components joined one by one. *)
Definition fullPath (d : Manager.t) (fileInfo : torrent.File.t) : list byte :=
  foldl filepath_Join (filePath d) (torrent.File.Path fileInfo).

(** The paths of the files of the torrent, in the order of the manifest. *)
Definition paths (d : Manager.t) : list (list byte) :=
  if torrent.IsSingleFile (Manager.torrent d) then [filePath d]
  else fullPath d <$> torrent.Info.Files (info d).

(** [createFile(path, size)]: opened with [O_CREATE|O_RDWR], then truncated. *)
Definition createFile (path : list byte) (size : Z) (d : Manager.t)
    : Manager.t * option error :=
  if decide (size < 0) then
    (Manager.with_fs (<[path := default [] (Manager.fs d !! path)]> (Manager.fs d)) d,
     Some "failed to allocate space for file")
  else
    (Manager.with_files ({[path]} ∪ Manager.files d)
       (Manager.with_fs
          (<[path := truncate size (default [] (Manager.fs d !! path))]> (Manager.fs d)) d),
     None).

Fixpoint Initialize_files (fileInfos : list torrent.File.t) (d : Manager.t)
    : Manager.t * option error :=
  match fileInfos with
  | [] => (d, None)
  | fileInfo :: rest =>
      match createFile (fullPath d fileInfo) (torrent.File.Length fileInfo) d with
      | (d', Some err) => (d', Some err)
      | (d', None) => Initialize_files rest d'
      end
  end.

(** [Initialize] *)
Definition Initialize (d : Manager.t) : Manager.t * option error :=
  if torrent.IsSingleFile (Manager.torrent d) then
    createFile (filePath d) (torrent.Info.Length (info d)) d
  else Initialize_files (torrent.Info.Files (info d)) d.

(** The loop of [writeMultiFile(offset, data)] over the files that are left. *)
Fixpoint writeMultiFile_loop (fileInfos : list torrent.File.t) (offset : Z)
    (data : list byte) (currentOffset dataOffset : Z) (d : Manager.t)
    : Manager.t * option error :=
  match fileInfos with
  | [] => (d, None)
  | fileInfo :: rest =>
      let fileEnd := int64 (currentOffset + torrent.File.Length fileInfo) in
      if decide (offset >= fileEnd) then
        writeMultiFile_loop rest offset data fileEnd dataOffset d
      else
        let fileWriteStart :=
          if decide (offset > currentOffset) then int64 (offset - currentOffset)
          else 0 in
        let bytesToWrite := int64 (len data - dataOffset) in
        let bytesToWrite :=
          if decide (int64 (fileWriteStart + bytesToWrite) > torrent.File.Length fileInfo)
          then int64 (torrent.File.Length fileInfo - fileWriteStart)
          else bytesToWrite in
        if decide (bytesToWrite ≤ 0) then (d, None)
        else
          let fullPath := fullPath d fileInfo in
          if decide (fullPath ∈ Manager.files d) then
            let writeData := slice data dataOffset (int64 (dataOffset + bytesToWrite)) in
            let content := default [] (Manager.fs d !! fullPath) in
            let d :=
              Manager.with_fs
                (<[fullPath := writeAt writeData fileWriteStart content]> (Manager.fs d)) d in
            let dataOffset := int64 (dataOffset + bytesToWrite) in
            if decide (dataOffset >= len data) then (d, None)
            else writeMultiFile_loop rest offset data fileEnd dataOffset d
          else (d, Some "file not open")
  end.

Definition writeMultiFile (offset : Z) (data : list byte) (d : Manager.t)
    : Manager.t * option error :=
  writeMultiFile_loop (torrent.Info.Files (info d)) offset data 0 0 d.

(** [WritePiece] *)
Definition WritePiece (pieceIndex : Z) (data : list byte) (d : Manager.t)
    : Manager.t * option error :=
  let pieceLength := torrent.Info.PieceLength (info d) in
  let pieceOffset := int64 (pieceIndex * pieceLength) in
  if torrent.IsSingleFile (Manager.torrent d) then
    let filePath := filePath d in
    if decide (filePath ∈ Manager.files d) then
      if decide (pieceOffset < 0) then (d, Some "failed to write to file")
      else
        let content := default [] (Manager.fs d !! filePath) in
        (Manager.with_fs (<[filePath := writeAt data pieceOffset content]> (Manager.fs d)) d,
         None)
    else (d, Some "file not open")
  else writeMultiFile pieceOffset data d.

(** The loop of [readMultiFile(offset, data)]; the buffer [data] is filled
    in place. *)
Fixpoint readMultiFile_loop (fileInfos : list torrent.File.t) (offset : Z)
    (data : list byte) (currentOffset dataOffset : Z) (d : Manager.t)
    : list byte * option error :=
  match fileInfos with
  | [] => (data, None)
  | fileInfo :: rest =>
      let fileEnd := int64 (currentOffset + torrent.File.Length fileInfo) in
      if decide (offset >= fileEnd) then
        readMultiFile_loop rest offset data fileEnd dataOffset d
      else
        let fileReadStart :=
          if decide (offset > currentOffset) then int64 (offset - currentOffset)
          else 0 in
        let bytesToRead := int64 (len data - dataOffset) in
        let bytesToRead :=
          if decide (int64 (fileReadStart + bytesToRead) > torrent.File.Length fileInfo)
          then int64 (torrent.File.Length fileInfo - fileReadStart)
          else bytesToRead in
        if decide (bytesToRead ≤ 0) then (data, None)
        else
          let fullPath := fullPath d fileInfo in
          if decide (fullPath ∈ Manager.files d) then
            let readData := slice data dataOffset (int64 (dataOffset + bytesToRead)) in
            let content := default [] (Manager.fs d !! fullPath) in
            let data :=
              take (Z.to_nat dataOffset) data
                ++ readAt readData fileReadStart content
                ++ drop (Z.to_nat (int64 (dataOffset + bytesToRead))) data in
            let dataOffset := int64 (dataOffset + bytesToRead) in
            if decide (dataOffset >= len data) then (data, None)
            else readMultiFile_loop rest offset data fileEnd dataOffset d
          else (data, Some "file not open")
  end.

Definition readMultiFile (offset : Z) (data : list byte) (d : Manager.t)
    : list byte * option error :=
  readMultiFile_loop (torrent.Info.Files (info d)) offset data 0 0 d.

(** [ReadPiece] *)
Definition ReadPiece (pieceIndex : Z) (d : Manager.t) : result (list byte) :=
  let actualLength := torrent.PieceSize pieceIndex (Manager.torrent d) in
  let pieceOffset := int64 (pieceIndex * torrent.Info.PieceLength (info d)) in
  let data := make actualLength in
  if torrent.IsSingleFile (Manager.torrent d) then
    let filePath := filePath d in
    if decide (filePath ∈ Manager.files d) then
      if decide (pieceOffset < 0) then Err "failed to read from file"
      else Ok (readAt data pieceOffset (default [] (Manager.fs d !! filePath)))
    else Err "file not open"
  else
    match readMultiFile pieceOffset data d with
    | (_, Some err) => Err err
    | (data, None) => Ok data
    end.

(** [VerifyPiece] *)
Definition VerifyPiece (pieceIndex : Z) (data : list byte) (d : Manager.t) : bool :=
  if decide (pieceIndex < 0 ∨ pieceIndex >= len (Manager.pieceHashes d)) then false
  else
    match index (Manager.pieceHashes d) pieceIndex with
    | Some expectedHash => bool_decide (sha1_Sum data = expectedHash)
    | None => false
    end.

(** [ReadBlock] *)
Definition ReadBlock (pieceIndex begin length : Z) (d : Manager.t)
    : outcome (result (list byte)) :=
  match ReadPiece pieceIndex d with
  | Err e => Returns (Err e)
  | Ok pieceData =>
      if decide (begin < 0 ∨ begin >= len pieceData) then
        Returns (Err "block begin offset out of range")
      else
        let end_ := int64 (begin + length) in
        let end_ := if decide (end_ > len pieceData) then len pieceData else end_ in
        if decide (end_ < begin) then Panics "slice bounds out of range"
        else Returns (Ok (slice pieceData begin end_))
  end.

(** The disk manager implements the interface of the piece manager. *)
#[global] Instance disk_DiskManager : piece.DiskManager Manager.t := {|
  piece.WritePiece d pieceIndex data := Returns (WritePiece pieceIndex data d);
  piece.ReadPiece d pieceIndex := Returns (ReadPiece pieceIndex d);
  piece.ReadBlock d pieceIndex begin length := ReadBlock pieceIndex begin length d;
  piece.VerifyPiece d pieceIndex data := VerifyPiece pieceIndex data d |}.

End disk.

End disk.

(* --------------------------------------------------------------------- *)
(** ** The assembled client *)
(* --------------------------------------------------------------------- *)

(** The objects are wired as the programs under [cmd] do: the peer manager
    and the coordinator hold the same piece manager, the peer manager
    reports received blocks to the coordinator. *)

Module engine.
Import go.

(** The piece manager together with the goroutines [verifyAndStorePiece]
    that it has started and that have not run yet. *)
Module Store.
Record t (D : Type) := mk {
  manager : piece.Manager.t D;
  pending : list Z }.
Arguments mk {D}.
Arguments manager {D}.
Arguments pending {D}.
End Store.

(** The state of the client: the peers by pointer, the peer manager, the
    piece store and the coordinator. *)
Module System.
Record t (D : Type) := mk {
  peers : gmap nat peer.Peer.t;
  peerManager : peer.Manager.t;
  store : Store.t D;
  coordinator : download.Coordinator.t }.
Arguments mk {D}.
Arguments peers {D}.
Arguments peerManager {D}.
Arguments store {D}.
Arguments coordinator {D}.
End System.

Section engine.
Context {D : Type} `{piece.DiskManager D}.

#[global] Instance store_peer_PieceManager : peer.PieceManager (Store.t D) := {|
  peer.ReadBlockFromDisk pieceIndex begin length st :=
    piece.ReadBlockFromDisk pieceIndex begin length (Store.manager st);
  peer.AddBlockData pieceIndex begin data st :=
    match piece.AddBlockData pieceIndex begin data (Store.manager st) with
    | Panics r => Panics r
    | Returns (m, err, started) =>
        Returns
          (Store.mk m
             (if started : bool then Store.pending st ++ [pieceIndex]
              else Store.pending st),
           err)
    end |}.

#[global] Instance store_download_PieceManager : download.PieceManager (Store.t D) := {|
  download.GetNeededPieces st := piece.GetNeededPieces (Store.manager st);
  download.SelectPieceForPeer bitfield st :=
    piece.SelectPieceForPeer bitfield (Store.manager st);
  download.GetBlockRequests pieceIndex st :=
    piece.GetBlockRequests pieceIndex (Store.manager st);
  download.RequestBlock now pieceIndex begin length st :=
    let r := piece.RequestBlock now pieceIndex begin length (Store.manager st) in
    (Store.mk r.1 (Store.pending st), r.2);
  download.GetProgressCounts st := piece.GetProgressCounts (Store.manager st) |}.

#[global] Instance coordinator_PieceHandler : peer.PieceHandler download.Coordinator.t := {|
  peer.HandlePieceReceived := download.HandlePieceReceived |}.

(** The steps of the client.  Each is the body of one of its loops, run
    atomically; the messages and their times are chosen by the swarm. *)
Inductive step : System.t D → System.t D → Prop :=
| step_connect s p now :
    System.peers s !! p = None →
    step s (System.mk (<[p := peer.NewPeer now]> (System.peers s))
              (System.peerManager s) (System.store s) (System.coordinator s))
| step_receive s p pr msg :
    (* receiveLoop: handleMessage *)
    System.peers s !! p = Some pr →
    step s (System.mk (<[p := (peer.handleMessage msg pr).1]> (System.peers s))
              (System.peerManager s) (System.store s) (System.coordinator s))
| step_send s p pr msg rest :
    (* sendLoop: the head of sendCh is written to the connection *)
    System.peers s !! p = Some pr →
    peer.Peer.sendCh pr = msg :: rest →
    step s (System.mk (<[p := peer.Peer.with_sendCh rest pr]> (System.peers s))
              (System.peerManager s) (System.store s) (System.coordinator s))
| step_piece s index begin block m' st' c' :
    (* messageLoop: a PIECE message of some peer *)
    0 ≤ index < 2 ^ 32 → 0 ≤ begin < 2 ^ 32 →
    peer.handlePieceData index begin block (System.peerManager s) (System.store s)
      (System.coordinator s) = Returns (m', st', c') →
    step s (System.mk (System.peers s) m' st' c')
| step_verify s pieceIndex rest m' :
    (* a goroutine verifyAndStorePiece runs *)
    Store.pending (System.store s) = pieceIndex :: rest →
    piece.verifyAndStorePiece pieceIndex (Store.manager (System.store s)) = Returns m' →
    step s (System.mk (System.peers s) (System.peerManager s) (Store.mk m' rest)
              (System.coordinator s))
| step_cycle s now connected c' peers' st' :
    (* coordinationLoop: one cycle *)
    download.processDownloadCycle now connected (System.coordinator s)
      (System.peers s) (System.store s) = (c', peers', st') →
    step s (System.mk peers' (System.peerManager s) st' c')
| step_timeout s now :
    (* timeoutLoop *)
    step s (System.mk (System.peers s) (System.peerManager s) (System.store s)
              (download.cleanupTimedOutRequests now (System.coordinator s))).

(** The states the client reaches from [s0]. *)
Inductive reachable (s0 : System.t D) : System.t D → Prop :=
| reachable_refl : reachable s0 s0
| reachable_step s s' : reachable s0 s → step s s' → reachable s0 s'.

(** The client at start: no peer, a fresh coordinator, both handlers set. *)
Definition initial (m : piece.Manager.t D) : System.t D :=
  System.mk ∅ (peer.Manager.mk ∅ (make (len (piece.Manager.bitfield m))) 0 0 true true)
    (Store.mk m []) download.NewCoordinator.

(** The steps as functions, to write down runs: a step that cannot be taken
    (no such peer, nothing pending, a panic) leaves the state as it is. *)
Definition do_connect (p : nat) (now : Time) (s : System.t D) : System.t D :=
  match System.peers s !! p with
  | None =>
      System.mk (<[p := peer.NewPeer now]> (System.peers s))
        (System.peerManager s) (System.store s) (System.coordinator s)
  | Some _ => s
  end.

Definition do_receive (p : nat) (msg : option peer.Message.t) (s : System.t D)
    : System.t D :=
  match System.peers s !! p with
  | Some pr =>
      System.mk (<[p := (peer.handleMessage msg pr).1]> (System.peers s))
        (System.peerManager s) (System.store s) (System.coordinator s)
  | None => s
  end.

Definition do_piece (index begin : Z) (block : list byte) (s : System.t D)
    : System.t D :=
  match peer.handlePieceData index begin block (System.peerManager s)
          (System.store s) (System.coordinator s) with
  | Returns (m', st', c') => System.mk (System.peers s) m' st' c'
  | Panics _ => s
  end.

Definition do_verify (s : System.t D) : System.t D :=
  match Store.pending (System.store s) with
  | pieceIndex :: rest =>
      match piece.verifyAndStorePiece pieceIndex (Store.manager (System.store s)) with
      | Returns m' =>
          System.mk (System.peers s) (System.peerManager s) (Store.mk m' rest)
            (System.coordinator s)
      | Panics _ => s
      end
  | [] => s
  end.

Definition do_cycle (now : Time) (connected : list nat) (s : System.t D)
    : System.t D :=
  let '(c', peers', st') :=
    download.processDownloadCycle now connected (System.coordinator s)
      (System.peers s) (System.store s) in
  System.mk peers' (System.peerManager s) st' c'.

Definition do_timeout (now : Time) (s : System.t D) : System.t D :=
  System.mk (System.peers s) (System.peerManager s) (System.store s)
    (download.cleanupTimedOutRequests now (System.coordinator s)).

End engine.

End engine.

(* --------------------------------------------------------------------- *)
(** ** Stand-ins and concrete inputs for the examples *)
(* --------------------------------------------------------------------- *)

Module fixture.
Import go.

(** A stand-in for SHA-1 in the examples: the first 20 bytes, padded. *)
#[local] Instance toySha1 : Sha1 := λ data, take 20 (data ++ replicate 20 0).

(** [filepath.Join] on clean components. *)
#[local] Instance toyJoin : FilePath := λ a b, a ++ bytes "/" ++ b.

Definition goodData : list byte := Z.of_nat <$> seq 1 20.
Definition badData : list byte := replicate 20 0.

(** A single-file torrent of one piece of 20 bytes whose hash is that of
    [goodData]. *)
Definition torrent1 : torrent.Torrent.t :=
  torrent.Torrent.mk [] [] [] 0 [] []
    (torrent.Info.mk 20 (sha1_Sum goodData) (bytes "f") 20 []).

Definition disk1 : disk.Manager.t :=
  (disk.Initialize (disk.NewManager torrent1 (bytes "out") ∅)).1.

Definition unwrap {A} (d : A) (x : outcome A) : A :=
  match x with Returns a => a | Panics _ => d end.

(** [NewManager(1, 20, 0, hashes)] with the disk manager set. *)
Definition manager1 : piece.Manager.t disk.Manager.t :=
  piece.SetDiskManager disk1
    (unwrap (piece.Manager.mk [] [] None (piece.Statistics.mk 0 0 0 0 0 0) None)
       (piece.NewManager 1 20 0 [sha1_Sum goodData])).

(** The piece of [manager1]. *)
Definition piece1 : piece.Piece.t :=
  default (piece.Piece.mk 0 0 [] piece.PieceStateMissing [] ∅)
    (piece.Manager.pieces manager1 !! 0%nat).

(** [piece1] after its block has received [goodData]. *)
Definition piece1_stored : piece.Piece.t := (piece.SetBlockData 0 goodData piece1).1.

(** A piece of 20000 bytes, in two blocks, and a payload for each block. *)
Definition piece2 : piece.Piece.t := unwrap piece1 (piece.NewPiece 0 20000 []).
Definition payloads2 : list (list byte) :=
  [replicate (Z.to_nat 16384) 1; replicate (Z.to_nat 3616) 2].

Definition block1 (data : list byte) : piece.Block.t :=
  piece.Block.mk 0 0 20 (Some data) 0.

(** A torrent of three files of 3, 2 and 3 bytes in two pieces of 4 bytes:
    the piece 0 ends in the second file, which the piece 1 starts in. *)
Definition torrent3 : torrent.Torrent.t :=
  torrent.Torrent.mk [] [] [] 0 [] []
    (torrent.Info.mk 4 (replicate 40 0) (bytes "n") 0
       [ torrent.File.mk 3 [bytes "a"]; torrent.File.mk 2 [bytes "b"];
         torrent.File.mk 3 [bytes "c"] ]).
Definition disk3 : disk.Manager.t :=
  (disk.Initialize (disk.NewManager torrent3 (bytes "out") ∅)).1.

(** A torrent of one piece of 8 bytes whose manifest names the file [a]
    twice, with 4 bytes each time. *)
Definition torrentTwice : torrent.Torrent.t :=
  torrent.Torrent.mk [] [] [] 0 [] []
    (torrent.Info.mk 8 (replicate 20 0) (bytes "n") 0
       [ torrent.File.mk 4 [bytes "a"]; torrent.File.mk 4 [bytes "a"] ]).
Definition diskTwice : disk.Manager.t :=
  (disk.Initialize (disk.NewManager torrentTwice (bytes "out") ∅)).1.

(** A metainfo in canonical form, and one whose [info] dictionary lists
    [name] before [length]. *)
Definition info1 : list (list byte * bencode.Value) :=
  [ (bytes "length", bencode.Int 1); (bytes "name", bencode.Str (bytes "a"));
    (bytes "piece length", bencode.Int 1); (bytes "pieces", bencode.Str []) ].
Definition metainfo1 : list (list byte * bencode.Value) :=
  [ (bytes "announce", bencode.Str (bytes "http://t/a"));
    (bytes "info", bencode.Dict info1) ].
Definition unsortedMetainfo : list byte :=
  bytes "d4:infod4:name1:a6:lengthi1e12:piece lengthi1e6:pieces0:ee".

(** The torrent that [Parse] builds from the encoding of [metainfo1]. *)
Definition parsed1 : torrent.Torrent.t :=
  torrent.Torrent.mk (bytes "http://t/a") [] [] 0 []
    (sha1_Sum (bencode.Encode (bencode.Dict info1)))
    (torrent.Info.mk 1 [] (bytes "a") 1 []).

(** Ten pieces, the first four verified; the peer asked has all of them and
    one other peer is known to have the pieces 4 to 8. *)
Definition pieces10 : list piece.Piece.t :=
  (λ i : nat,
     piece.Piece.mk (Z.of_nat i) 16384 []
       (if decide (i < 4)%nat then piece.PieceStateVerified
        else piece.PieceStateMissing) [] ∅) <$> seq 0 10.
Definition peerBitfield10 : list byte := [255; 192].
Definition smart10 : piece.SmartStrategy.t :=
  piece.SmartStrategy.mk {[ "peer1" := [15; 128] ]} 5 4 10.

(** A run of the client on [manager1]: the only block arrives with the
    right bytes and the piece is verified; then a PIECE message for the same
    block arrives with other bytes and the verification runs again. *)
Definition sys0 : engine.System.t disk.Manager.t := engine.initial manager1.
Definition sys_verified := engine.do_verify (engine.do_piece 0 0 goodData sys0).
Definition sys_tampered := engine.do_verify (engine.do_piece 0 0 badData sys_verified).

(** A run in which a peer chokes the client while a request to it is
    outstanding: the peer 1 connects, sends its bitfield and UNCHOKE, a
    coordination cycle at time 1 s requests the block of piece 0 from it,
    then CHOKE arrives; the timeout sweep runs 10 s later. *)
Definition sys_requested : engine.System.t disk.Manager.t :=
  engine.do_cycle Second [1%nat]
    (engine.do_receive 1 (Some peer.NewUnchokeMessage)
       (engine.do_receive 1 (Some (peer.NewBitfieldMessage [128]))
          (engine.do_connect 1 0 sys0))).
Definition sys_choked := engine.do_receive 1 (Some peer.NewChokeMessage) sys_requested.
Definition sys_choked_swept := engine.do_timeout (11 * Second) sys_choked.

End fixture.

(* ===================================================================== *)
(** * Part II: the properties *)
(* ===================================================================== *)

Import go.

(** ** Slices *)

Lemma index_Some {A} (s : list A) (i : Z) (x : A) :
  index s i = Some x ↔ 0 ≤ i ∧ s !! Z.to_nat i = Some x.
Proof.
  unfold index. destruct (decide (0 ≤ i)); [tauto|].
  split; [done|]. intros [? _]. lia.
Qed.

Lemma index_bounds {A} (s : list A) (i : Z) (x : A) :
  index s i = Some x → 0 ≤ i < len s.
Proof.
  intros [Hi Hx]%index_Some. apply lookup_lt_Some in Hx. unfold len. lia.
Qed.

Lemma index_None_outside {A} (s : list A) (i : Z) :
  i < 0 ∨ i >= len s → index s i = None.
Proof.
  unfold index, len. intros Hi. destruct (decide (0 ≤ i)); [|done].
  apply lookup_ge_None. lia.
Qed.

Lemma index_insert_eq {A} (s : list A) (i : Z) (x y : A) :
  index s i = Some x → index (<[Z.to_nat i := y]> s) i = Some y.
Proof.
  intros [Hi Hx]%index_Some. apply index_Some. split; [done|].
  apply list_lookup_insert_eq. by eapply lookup_lt_Some.
Qed.

Lemma index_insert_ne {A} (s : list A) (i j : Z) (y : A) :
  0 ≤ i → i ≠ j → index (<[Z.to_nat i := y]> s) j = index s j.
Proof.
  intros Hi Hij. unfold index. destruct (decide (0 ≤ j)); [|done].
  apply list_lookup_insert_ne. lia.
Qed.

Lemma len_insert {A} (s : list A) (i : nat) (y : A) : len (<[i := y]> s) = len s.
Proof. unfold len. by rewrite length_insert. Qed.

(** ** Blocks of a piece (claim C8) *)

Section piece_blocks.
Import piece.

Lemma SetBlockData_not_found begin data p :
  list_find (λ b, Block.Begin b = begin) (Piece.Blocks p) = None →
  SetBlockData begin data p = (p, Some "block with begin offset not found").
Proof. intros Hf. unfold SetBlockData. by rewrite Hf. Qed.

Lemma SetBlockData_stored begin data p i block :
  list_find (λ b, Block.Begin b = begin) (Piece.Blocks p) = Some (i, block) →
  len data = Block.Length block →
  SetBlockData begin data p =
    (Piece.with_Requests
       (filter (λ kr, Block.Begin (Request.Block kr.2) ≠ begin) (Piece.Requests p))
       (Piece.with_Blocks (<[i := Block.with_Data (Some data) block]> (Piece.Blocks p)) p),
     None).
Proof.
  intros Hf Hl. unfold SetBlockData. rewrite Hf.
  destruct (decide (len data ≠ Block.Length block)); [done|reflexivity].
Qed.

Lemma SetBlockData_rejected begin data p i block :
  list_find (λ b, Block.Begin b = begin) (Piece.Blocks p) = Some (i, block) →
  len data ≠ Block.Length block →
  SetBlockData begin data p = (p, Some "block data length mismatch").
Proof.
  intros Hf Hl. unfold SetBlockData. rewrite Hf.
  destruct (decide (len data ≠ Block.Length block)); [reflexivity|done].
Qed.

(** C8 (as the code has it).  A block that already holds a payload accepts
    another [SetBlockData] for its offset whenever the new payload has the
    declared length: the new bytes replace the stored ones (so an equal
    payload leaves them as they are) and no other block changes; a payload
    of another length is rejected and the piece is unchanged. *)
Theorem C8_second_arrival_replaces_payload
    (p : Piece.t) (begin : Z) (i : nat) (block : Block.t) (stored data : list byte) :
  list_find (λ b, Block.Begin b = begin) (Piece.Blocks p) = Some (i, block) →
  Block.Data block = Some stored →
  (len data = Block.Length block →
     (SetBlockData begin data p).2 = None ∧
     Piece.Blocks (SetBlockData begin data p).1 !! i
       = Some (Block.with_Data (Some data) block) ∧
     (∀ j, j ≠ i →
        Piece.Blocks (SetBlockData begin data p).1 !! j = Piece.Blocks p !! j) ∧
     (data = stored → Piece.Blocks (SetBlockData begin data p).1 = Piece.Blocks p)) ∧
  (len data ≠ Block.Length block →
     SetBlockData begin data p = (p, Some "block data length mismatch")).
Proof.
  intros Hf Hs. split.
  - intros Hl. rewrite (SetBlockData_stored _ _ _ _ _ Hf Hl). cbn.
    apply list_find_Some in Hf as (Hi & _ & _).
    split; [done|]. split; [|split].
    + apply list_lookup_insert_eq. by eapply lookup_lt_Some.
    + intros j Hj. by apply list_lookup_insert_ne.
    + intros ->. apply list_insert_id. rewrite Hi. f_equal.
      destruct block; cbn in *; by subst.
  - intros Hl. by eapply SetBlockData_rejected.
Qed.

Lemma C8_second_arrival_witness :
  (SetBlockData 0 fixture.badData fixture.piece1_stored).2 = None ∧
  Piece.Blocks (SetBlockData 0 fixture.badData fixture.piece1_stored).1 !! 0%nat
    = Some (fixture.block1 fixture.badData).
Proof.
  destruct (C8_second_arrival_replaces_payload fixture.piece1_stored 0 0%nat
              (fixture.block1 fixture.goodData) fixture.goodData fixture.badData)
    as [Hsame _].
  - vm_compute. reflexivity.
  - reflexivity.
  - destruct Hsame as (H1 & H2 & _).
    + vm_compute. reflexivity.
    + split; [exact H1|exact H2].
Defined.

(** C8 fails as stated: the block of [piece1] holds [goodData]; a second
    [SetBlockData] for the same offset with the different payload [badData]
    is accepted without error and the stored bytes become [badData]. *)
Lemma C8_counterexample :
  Block.Data <$> Piece.Blocks fixture.piece1_stored = [Some fixture.goodData] ∧
  fixture.badData ≠ fixture.goodData ∧
  (SetBlockData 0 fixture.badData fixture.piece1_stored).2 = None ∧
  Block.Data <$> Piece.Blocks (SetBlockData 0 fixture.badData fixture.piece1_stored).1
    = [Some fixture.badData].
Proof. vm_compute. repeat split; discriminate. Qed.

End piece_blocks.

(** ** HAVE before BITFIELD (claim C9) *)

Section peer_have.
Import peer.

Lemma bit_range (k : Z) : 0 ≤ bit k < 256.
Proof. unfold bit, uint8. apply Z.mod_pos_bound. lia. Qed.

(** The mask of bit [i mod 8], for [i >= 0]: [1 << (7 - i mod 8)]. *)
Lemma bit_mask (i : Z) : 0 ≤ i → bit (7 - i `rem` 8) = 2 ^ (7 - i `mod` 8).
Proof.
  intros Hi. rewrite Z.rem_mod_nonneg by lia.
  assert (0 ≤ i `mod` 8 < 8) by (apply Z.mod_pos_bound; lia).
  unfold bit, uint8. rewrite Z.shiftl_1_l.
  apply Z.mod_small. split; [apply Z.pow_nonneg; lia|].
  apply (Z.pow_lt_mono_r 2 _ 8); lia.
Qed.

(** Bit [k] of the mask [1 << k]. *)
Lemma land_bit_self (b k : Z) : 0 ≤ k → Z.land (Z.lor b (2 ^ k)) (2 ^ k) ≠ 0.
Proof.
  intros Hk Hz. apply (f_equal (λ x, Z.testbit x k)) in Hz.
  rewrite Z.land_spec, Z.lor_spec, Z.pow2_bits_true, Z.bits_0 in Hz by done.
  by rewrite orb_true_r in Hz.
Qed.




(** With a bitfield that covers the index, [setPieceUnsafe] sets the bit. *)
Lemma setPieceUnsafe_HasPiece (p : Peer.t) (bitfield : list byte) (i : Z) :
  Peer.bitfield p = Some bitfield → 0 ≤ i → i `quot` 8 < len bitfield →
  HasPiece i (setPieceUnsafe i p) = true.
Proof.
  intros Hb Hi Hlt. unfold setPieceUnsafe. rewrite Hb.
  destruct (decide (i `quot` 8 >= len bitfield)); [lia|].
  assert (0 ≤ i `quot` 8) by (apply Z.quot_pos; lia).
  destruct (index bitfield (i `quot` 8)) as [b|] eqn:Hix.
  2:{ unfold index in Hix. destruct (decide (0 ≤ i `quot` 8)); [|lia].
      apply lookup_ge_None in Hix. unfold len in Hlt. lia. }
  unfold HasPiece. cbn. rewrite len_insert.
  destruct (decide (i `quot` 8 >= len bitfield)); [lia|].
  rewrite (index_insert_eq _ _ _ _ Hix). rewrite bit_mask by done.
  apply negb_true_iff, Z.eqb_neq, land_bit_self.
  assert (0 ≤ i `mod` 8 < 8) by (apply Z.mod_pos_bound; lia). lia.
Qed.

End peer_have.

(** ** The piece manager: indices, hash failure and the bitfield
       (claims C10, C3 and C4) *)

Section piece_manager_index.
Context {D : Type} `{piece.DiskManager D}.
Import piece.

(** [AddBlockData] and [ReadBlockFromDisk] index [m.pieces] before any
    check: outside the bounds both panic. *)
Lemma AddBlockData_out_of_range (m : Manager.t D) (pieceIndex begin : Z) data :
  pieceIndex < 0 ∨ pieceIndex >= len (Manager.pieces m) →
  AddBlockData pieceIndex begin data m = Panics "index out of range".
Proof.
  intros Hi. unfold AddBlockData. by rewrite index_None_outside.
Qed.

Lemma ReadBlockFromDisk_out_of_range (m : Manager.t D) (pieceIndex begin length : Z) :
  pieceIndex < 0 ∨ pieceIndex >= len (Manager.pieces m) →
  ReadBlockFromDisk pieceIndex begin length m = Panics "index out of range".
Proof.
  intros Hi. unfold ReadBlockFromDisk. by rewrite index_None_outside.
Qed.

Lemma index_setPiece_eq (m : Manager.t D) (i : Z) (piece piece' : Piece.t) :
  index (Manager.pieces m) i = Some piece →
  index (Manager.pieces (setPiece i piece' m)) i = Some piece'.
Proof. intros Hi. cbn. by eapply index_insert_eq. Qed.

Lemma GetData_complete (p : Piece.t) (data : list byte) :
  GetData p = Ok data → IsComplete p = true.
Proof. unfold GetData. by destruct (IsComplete p). Qed.

Lemma resetPiece_cleared (p : Piece.t) :
  Piece.State (resetPiece p) = PieceStateMissing ∧
  Forall (λ b, Block.Data b = None) (Piece.Blocks (resetPiece p)).
Proof.
  split; [done|]. cbn. apply Forall_fmap, Forall_true. done.
Qed.

End piece_manager_index.

Section index_example.
#[local] Existing Instances fixture.toySha1 fixture.toyJoin.

(** C10 fails on the code.  The manager [manager1] has one piece.  For the
    index 1, which a PIECE or REQUEST message can carry, [AddBlockData] and
    [ReadBlockFromDisk] do not return an error: the unchecked access
    [m.pieces[pieceIndex]] panics, and so does [handlePieceData] on the
    path of a received PIECE message. *)
Theorem C10_out_of_range_index_panics :
  len (piece.Manager.pieces fixture.manager1) = 1 ∧
  piece.AddBlockData 1 0 fixture.badData fixture.manager1
    = Panics "index out of range" ∧
  piece.ReadBlockFromDisk 1 0 20 fixture.manager1 = Panics "index out of range" ∧
  peer.handlePieceData 1 0 fixture.badData
      (peer.Manager.mk ∅ [0] 0 0 true true)
      (engine.Store.mk fixture.manager1 []) download.NewCoordinator
    = Panics "index out of range".
Proof. vm_compute. repeat split. Qed.

End index_example.

Section hash_failure.
Context `{Sha1} `{FilePath}.
Import piece.

Lemma disk_VerifyPiece_mismatch (dm : disk.Manager.t) (i : Z) data expected :
  index (disk.Manager.pieceHashes dm) i = Some expected →
  sha1_Sum data ≠ expected →
  disk.VerifyPiece i data dm = false.
Proof.
  intros Hix Hne. unfold disk.VerifyPiece. rewrite Hix.
  pose proof (index_bounds _ _ _ Hix).
  destruct (decide (i < 0 ∨ i >= len (disk.Manager.pieceHashes dm))); [done|].
  by apply bool_decide_eq_false.
Qed.


End hash_failure.

Section hash_failure_example.
#[local] Existing Instances fixture.toySha1 fixture.toyJoin.


End hash_failure_example.

(** ** Runs of the client *)

Section runs.
Context {D : Type} `{piece.DiskManager D}.
Import engine.

Lemma reachable_trans (s0 s1 s2 : System.t D) :
  reachable s0 s1 → reachable s1 s2 → reachable s0 s2.
Proof.
  intros H01 H12. induction H12; [done|]. by eapply reachable_step.
Qed.

Lemma reachable_do_connect (s0 s : System.t D) p now :
  reachable s0 s → reachable s0 (do_connect p now s).
Proof.
  intros Hr. unfold do_connect.
  destruct (System.peers s !! p) eqn:Hp; [done|].
  eapply reachable_step; [done|]. by apply step_connect.
Qed.

Lemma reachable_do_receive (s0 s : System.t D) p msg :
  reachable s0 s → reachable s0 (do_receive p msg s).
Proof.
  intros Hr. unfold do_receive.
  destruct (System.peers s !! p) eqn:Hp; [|done].
  eapply reachable_step; [done|]. by apply step_receive.
Qed.

Lemma reachable_do_piece (s0 s : System.t D) index begin block :
  0 ≤ index < 2 ^ 32 → 0 ≤ begin < 2 ^ 32 →
  reachable s0 s → reachable s0 (do_piece index begin block s).
Proof.
  intros Hi Hb Hr. unfold do_piece.
  destruct (peer.handlePieceData _ _ _ _ _ _) as [[[m' st'] c']|] eqn:Hp; [|done].
  eapply reachable_step; [exact Hr|]. eapply step_piece; [exact Hi|exact Hb|exact Hp].
Qed.

Lemma reachable_do_verify (s0 s : System.t D) :
  reachable s0 s → reachable s0 (do_verify s).
Proof.
  intros Hr. unfold do_verify.
  destruct (Store.pending (System.store s)) as [|i rest] eqn:Hp; [done|].
  destruct (piece.verifyAndStorePiece _ _) as [m'|] eqn:Hv; [|done].
  eapply reachable_step; [done|]. by eapply step_verify.
Qed.

Lemma reachable_do_cycle (s0 s : System.t D) now connected :
  reachable s0 s → reachable s0 (do_cycle now connected s).
Proof.
  intros Hr. unfold do_cycle.
  destruct (download.processDownloadCycle _ _ _ _ _) as [[c' peers'] st'] eqn:Hc.
  eapply reachable_step; [done|]. by eapply step_cycle.
Qed.

Lemma reachable_do_timeout (s0 s : System.t D) now :
  reachable s0 s → reachable s0 (do_timeout now s).
Proof. intros Hr. eapply reachable_step; [done|]. apply step_timeout. Qed.

End runs.

Section bitfield_example.
#[local] Existing Instances fixture.toySha1 fixture.toyJoin.
Import engine.

(** C4 fails on the code.  In the run [sys_tampered] the piece 0 of
    [manager1] is verified, so bit 0 of the bitfield is set (byte 0 is
    [0x80]); then a PIECE message brings other bytes for its only block.
    [AddBlockData] accepts them without looking at the state of the piece,
    the second verification fails and resets the piece to [Missing], and
    the bit stays set: the exported bitfield says the piece is held while
    [HasPiece] says it is not. *)
Theorem C4_bit_stays_set_after_reset :
  reachable fixture.sys0 fixture.sys_verified ∧
  piece.GetBitfield (Store.manager (System.store fixture.sys_verified)) = [128] ∧
  piece.HasPiece (Store.manager (System.store fixture.sys_verified)) 0 = true ∧
  reachable fixture.sys0 fixture.sys_tampered ∧
  piece.GetBitfield (Store.manager (System.store fixture.sys_tampered)) = [128] ∧
  piece.Piece.State <$> piece.Manager.pieces (Store.manager (System.store fixture.sys_tampered))
    = [piece.PieceStateMissing] ∧
  piece.HasPiece (Store.manager (System.store fixture.sys_tampered)) 0 = false.
Proof.
  assert (reachable fixture.sys0 fixture.sys_verified) as Hv.
  { apply reachable_do_verify, reachable_do_piece; [lia|lia|apply reachable_refl]. }
  split; [exact Hv|]. split; [vm_compute; reflexivity|].
  split; [vm_compute; reflexivity|]. split.
  { apply reachable_do_verify, reachable_do_piece; [lia|lia|exact Hv]. }
  vm_compute. repeat split.
Qed.

End bitfield_example.

(** ** The Smart strategy (claim C6) *)

Section strategy.
Import piece.

Lemma count_split (pieces : list Piece.t) :
  countCompleted pieces + countMissing pieces = len pieces.
Proof.
  unfold countCompleted, countMissing, len.
  induction pieces as [|p pieces IH]; [done|].
  rewrite !filter_cons. destruct (isVerified p) eqn:Hp.
  - rewrite decide_True by done. rewrite decide_False by done.
    cbn [length]. lia.
  - rewrite decide_False by done. rewrite decide_True by done.
    cbn [length]. lia.
Qed.

(** The scan of the end game is the sequential selection. *)
Lemma EndGame_scan_Sequential (i : nat) (pieces : list Piece.t) (bf : list byte) :
  EndGame_scan i pieces bf = Sequential_SelectPiece i pieces bf.
Proof.
  revert i. induction pieces as [|p pieces IH]; intros i; [done|].
  cbn. destruct (isVerified p); cbn; [apply IH|].
  destruct (peerHasPiece bf (Z.of_nat i)); cbn; [done|apply IH].
Qed.

Lemma Sequential_None_candidates rf (i : nat) (pieces : list Piece.t) bf :
  Sequential_SelectPiece i pieces bf = None →
  RarestFirst_candidates rf i pieces bf = [].
Proof.
  revert i. induction pieces as [|p pieces IH]; intros i; [done|].
  cbn. destruct (isVerified p); [apply IH|].
  destruct (peerHasPiece bf (Z.of_nat i)); cbn; [done|apply IH].
Qed.

Lemma Sequential_None_RarestFirst rf (pieces : list Piece.t) bf :
  Sequential_SelectPiece 0 pieces bf = None →
  RarestFirst_SelectPiece rf pieces bf = None.
Proof.
  intros Hs. unfold RarestFirst_SelectPiece.
  by rewrite (Sequential_None_candidates _ _ _ _ Hs).
Qed.

(** What the sequential selection returns: the lowest position of a piece
    that is not verified and that the peer has. *)
Lemma Sequential_SelectPiece_Some (i k : nat) (pieces : list Piece.t) bf :
  Sequential_SelectPiece i pieces bf = Some k →
  ∃ j p, k = (i + j)%nat ∧ pieces !! j = Some p ∧ isVerified p = false ∧
         peerHasPiece bf (Z.of_nat k) = true ∧
         ∀ j' p', (j' < j)%nat → pieces !! j' = Some p' →
                  isVerified p' = true ∨ peerHasPiece bf (Z.of_nat (i + j')) = false.
Proof.
  revert i. induction pieces as [|p pieces IH]; intros i; [done|].
  cbn. destruct (isVerified p) eqn:Hv.
  - intros (j & q & -> & Hq & Hnv & Hhas & Hmin)%IH.
    exists (S j), q. split; [lia|]. split; [done|]. split; [done|].
    split; [by replace (i + S j)%nat with (S i + j)%nat by lia|].
    intros [|j'] p' Hlt Hp'; cbn in Hp'.
    + left. congruence.
    + replace (i + S j')%nat with (S i + j')%nat by lia.
      eapply Hmin; [|done]. lia.
  - destruct (peerHasPiece bf (Z.of_nat i)) eqn:Hh; cbn.
    + intros [= <-]. exists 0%nat, p. replace (i + 0)%nat with i by lia.
      repeat split; try done. intros j' p' Hlt. lia.
    + intros (j & q & -> & Hq & Hnv & Hhas & Hmin)%IH.
      exists (S j), q. split; [lia|]. split; [done|]. split; [done|].
      split; [by replace (i + S j)%nat with (S i + j)%nat by lia|].
      intros [|j'] p' Hlt Hp'; cbn in Hp'.
      * right. by replace (i + 0)%nat with i by lia.
      * replace (i + S j')%nat with (S i + j')%nat by lia.
        eapply Hmin; [|done]. lia.
Qed.

(** C6 (as the code has it).  With the thresholds of [NewSmartStrategy]
    (sequential 4, end game 10, and 5 inside the end-game strategy): while
    fewer than 4 pieces are verified the selection is the sequential one;
    from 4 verified pieces on it is rarest-first while more than 10 pieces
    remain, still rarest-first while 6 to 10 remain, and the scan for the
    first unverified piece the peer has only when 5 or fewer remain. *)
Theorem C6_smart_strategy_phases
    (rarestFirst : gmap string (list byte)) (pieces : list Piece.t) (bf : list byte) :
  let s := SmartStrategy.mk rarestFirst 5 4 10 in
  let completed := countCompleted pieces in
  let remaining := len pieces - completed in
  (completed < 4 →
     SelectPiece (SmartStrategy s) pieces bf = Sequential_SelectPiece 0 pieces bf) ∧
  (4 ≤ completed → 10 < remaining →
     SelectPiece (SmartStrategy s) pieces bf
       = RarestFirst_SelectPiece rarestFirst pieces bf) ∧
  (4 ≤ completed → 5 < remaining ≤ 10 →
     SelectPiece (SmartStrategy s) pieces bf
       = RarestFirst_SelectPiece rarestFirst pieces bf) ∧
  (4 ≤ completed → remaining ≤ 5 →
     SelectPiece (SmartStrategy s) pieces bf = EndGame_scan 0 pieces bf).
Proof.
  intros s completed remaining.
  assert (countMissing pieces = remaining) as Hm.
  { subst remaining completed. pose proof (count_split pieces). lia. }
  cbn [SelectPiece]. unfold Smart_SelectPiece, EndGame_SelectPiece.
  cbn [SmartStrategy.rarestFirst SmartStrategy.endGame_threshold
       SmartStrategy.sequentialThreshold SmartStrategy.endGameThreshold s].
  fold completed. fold remaining. rewrite Hm.
  repeat split.
  - intros Hc. rewrite decide_True by done.
    destruct (Sequential_SelectPiece 0 pieces bf) eqn:Hs; [done|].
    rewrite (Sequential_None_RarestFirst _ _ _ Hs).
    rewrite EndGame_scan_Sequential, Hs. by repeat case_decide.
  - intros Hc Hr. rewrite decide_False by lia. by rewrite decide_False by lia.
  - intros Hc Hr. rewrite decide_False by lia. rewrite decide_True by lia.
    by rewrite decide_False by lia.
  - intros Hc Hr. rewrite decide_False by lia. rewrite decide_True by lia.
    by rewrite decide_True by lia.
Qed.

(** C6 fails as stated: with 4 pieces verified and 6 remaining (so no more
    than 10) the Smart strategy does not take the first unverified piece
    the peer has, piece 4, but the rarest one, piece 9. *)
Lemma C6_counterexample :
  countCompleted fixture.pieces10 = 4 ∧
  len fixture.pieces10 - countCompleted fixture.pieces10 = 6 ∧
  EndGame_scan 0 fixture.pieces10 fixture.peerBitfield10 = Some 4%nat ∧
  SelectPiece (SmartStrategy fixture.smart10) fixture.pieces10 fixture.peerBitfield10
    = Some 9%nat.
Proof. vm_compute. repeat split. Qed.

End strategy.

(** ** The request map of the coordinator (claims C1 and C2) *)

Section request_map.
Import download.

Lemma keyed_atMostOne (active : gmap string RequestInfo.t) :
  keyed active → atMostOne active.
Proof.
  intros Hk k1 k2 r1 r2 H1 H2 Hp Hb.
  assert (k1 = k2) as ->.
  { rewrite (Hk _ _ H1), (Hk _ _ H2). by rewrite Hp, Hb. }
  split; [done|congruence].
Qed.

Lemma keyed_empty : keyed ∅.
Proof. intros k r Hk. by rewrite lookup_empty in Hk. Qed.

Lemma keyed_insert active pieceIndex begin length now p :
  keyed active →
  keyed (<[requestKey pieceIndex begin :=
             RequestInfo.mk pieceIndex begin length now p]> active).
Proof.
  intros Hk k r. rewrite lookup_insert. case_decide as Heq.
  - intros [= <-]. by subst.
  - apply Hk.
Qed.

Lemma keyed_delete active k : keyed active → keyed (delete k active).
Proof.
  intros Hk k' r Hl. apply lookup_delete_Some in Hl as [_ Hl]. by apply Hk.
Qed.

Lemma keyed_filter (P : string * RequestInfo.t → Prop) `{∀ x, Decision (P x)} active :
  keyed active → keyed (filter P active).
Proof.
  intros Hk k r Hl. apply map_lookup_filter_Some in Hl as [Hl _]. by apply Hk.
Qed.

(** [HandlePieceReceived] removes the entry of the block and no other. *)
Lemma HandlePieceReceived_lookup (pieceIndex begin : Z) (c : Coordinator.t) k :
  Coordinator.activeRequests (HandlePieceReceived pieceIndex begin c) !! k =
    if decide (k = requestKey pieceIndex begin) then None
    else Coordinator.activeRequests c !! k.
Proof.
  unfold HandlePieceReceived.
  destruct (Coordinator.activeRequests c !! requestKey pieceIndex begin) eqn:Hl.
  - cbn. rewrite lookup_delete. case_decide; case_decide; congruence.
  - case_decide; congruence.
Qed.

Lemma HandlePieceReceived_keyed pieceIndex begin c :
  keyed (Coordinator.activeRequests c) →
  keyed (Coordinator.activeRequests (HandlePieceReceived pieceIndex begin c)).
Proof.
  intros Hk k r. rewrite HandlePieceReceived_lookup. case_decide; [done|apply Hk].
Qed.

(** The timeout sweep removes exactly the entries older than the timeout. *)
Lemma cleanupTimedOutRequests_lookup (now : Time) (c : Coordinator.t) k r :
  Coordinator.activeRequests (cleanupTimedOutRequests now c) !! k = Some r ↔
  Coordinator.activeRequests c !! k = Some r ∧
  ¬ (int64 (now - RequestInfo.RequestedAt r) > Coordinator.requestTimeout c).
Proof. unfold cleanupTimedOutRequests. cbn. apply map_lookup_filter_Some. Qed.

Lemma cleanupTimedOutRequests_keyed now c :
  keyed (Coordinator.activeRequests c) →
  keyed (Coordinator.activeRequests (cleanupTimedOutRequests now c)).
Proof. intros Hk. cbn. by apply keyed_filter. Qed.

(** [RequestPiece] either queues the REQUEST or leaves the peer alone. *)
Lemma RequestPiece_cases (index begin length : Z) (pr : peer.Peer.t) :
  (peer.PeerState.PeerChoking (peer.Peer.state pr) = false ∧
   peer.RequestPiece index begin length pr =
     (peer.Peer.with_sendCh
        (peer.Peer.sendCh pr ++ [peer.NewRequestMessage index begin length]) pr, None))
  ∨ (∃ e, peer.RequestPiece index begin length pr = (pr, Some e)).
Proof.
  unfold peer.RequestPiece, peer.GetState, peer.SendMessage.
  destruct (peer.PeerState.PeerChoking (peer.Peer.state pr)); [right; eauto|].
  destruct (peer.Peer.closed pr); [right; eauto|].
  case_decide; [left; done|right; eauto].
Qed.

Lemma with_sendCh_nil (pr : peer.Peer.t) :
  peer.Peer.with_sendCh (peer.Peer.sendCh pr ++ []) pr = pr.
Proof. rewrite app_nil_r. by destruct pr. Qed.

Lemma with_sendCh_app (pr : peer.Peer.t) (a b : list peer.Message.t) :
  peer.Peer.with_sendCh
    (peer.Peer.sendCh (peer.Peer.with_sendCh (peer.Peer.sendCh pr ++ a) pr) ++ b)
    (peer.Peer.with_sendCh (peer.Peer.sendCh pr ++ a) pr)
  = peer.Peer.with_sendCh (peer.Peer.sendCh pr ++ a ++ b) pr.
Proof. cbn. unfold peer.Peer.with_sendCh. cbn. by rewrite app_assoc. Qed.

Section loop.
Context {PM : Type} `{PieceManager PM}.

(** What one run of the request loop does: it queues the REQUEST of the
    blocks [issued], none of which had an entry when its REQUEST was sent,
    and records exactly those. *)
Lemma requestLoop_spec now p pieceIndex requestsToMake blockRequests :
  ∀ requestsMade active pr pm active' pr' pm',
  requestLoop now p pieceIndex requestsToMake blockRequests requestsMade active pr pm
    = (active', pr', pm') →
  ∃ issued : list piece.BlockRequest.t,
    issued ⊆ blockRequests ∧
    pr' = peer.Peer.with_sendCh
            (peer.Peer.sendCh pr ++ (requestMessage pieceIndex <$> issued)) pr ∧
    NoDup (keyOf pieceIndex <$> issued) ∧
    (∀ b, b ∈ issued →
       active !! keyOf pieceIndex b = None ∧
       active' !! keyOf pieceIndex b = Some (entryOf now p pieceIndex b)) ∧
    (∀ k, k ∉ (keyOf pieceIndex <$> issued) → active' !! k = active !! k).
Proof.
  induction blockRequests as [|blockReq rest IH];
    intros requestsMade active pr pm active' pr' pm' Hloop; cbn in Hloop.
  { injection Hloop as <- <- <-. exists []. cbn.
    rewrite with_sendCh_nil. split_and!; [done|done|constructor| |done].
    intros b Hb. by apply elem_of_nil in Hb. }
  case_decide as Hmade.
  { injection Hloop as <- <- <-. exists []. cbn.
    rewrite with_sendCh_nil.
    split_and!; [apply list_subseteq_nil|done|constructor| |done].
    intros b Hb. by apply elem_of_nil in Hb. }
  fold (keyOf pieceIndex blockReq) in Hloop.
  destruct (active !! keyOf pieceIndex blockReq) eqn:Hk.
  { apply IH in Hloop as (issued & Hsub & ? & ? & ? & ?).
    exists issued. split_and!; try done. by apply list_subseteq_cons. }
  destruct (RequestPiece_cases (uint32 pieceIndex)
              (uint32 (piece.BlockRequest.Begin blockReq))
              (uint32 (piece.BlockRequest.Length blockReq)) pr)
    as [[_ Hreq]|[e Hreq]]; rewrite Hreq in Hloop.
  2:{ apply IH in Hloop as (issued & Hsub & ? & ? & ? & ?).
      exists issued. split_and!; try done. by apply list_subseteq_cons. }
  apply IH in Hloop as (issued & Hsub & -> & Hnd & Hiss & Hother).
  exists (blockReq :: issued).
  assert (keyOf pieceIndex blockReq ∉ keyOf pieceIndex <$> issued) as Hfresh.
  { intros (b & Hkb & Hb)%list_elem_of_fmap. destruct (Hiss b Hb) as [Hnone _].
    rewrite <- Hkb in Hnone. unfold keyOf in Hnone.
    by rewrite lookup_insert_eq in Hnone. }
  split; [by apply list_subseteq_skip|]. split.
  { fold (requestMessage pieceIndex blockReq). rewrite with_sendCh_app. done. }
  split; [cbn; by constructor|]. split.
  - intros b [->|Hb]%elem_of_cons.
    + split; [done|]. rewrite Hother by done.
      unfold keyOf, entryOf. by rewrite lookup_insert_eq.
    + destruct (Hiss b Hb) as [Hnone Hsome]. split; [|done].
      apply lookup_insert_None in Hnone as [Hnone _]. exact Hnone.
  - intros k Hk'. rewrite fmap_cons in Hk'. apply not_elem_of_cons in Hk' as [Hne Hk'].
    rewrite Hother by done. apply lookup_insert_ne. by unfold keyOf in Hne.
Qed.

Lemma requestLoop_keyed now p pieceIndex requestsToMake blockRequests :
  ∀ requestsMade active pr pm,
  keyed active →
  keyed (requestLoop now p pieceIndex requestsToMake blockRequests requestsMade
           active pr pm).1.1.
Proof.
  induction blockRequests as [|blockReq rest IH];
    intros requestsMade active pr pm Hk; cbn; [done|].
  case_decide; [done|].
  destruct (active !! _); [by apply IH|].
  destruct (peer.RequestPiece _ _ _ pr) as [pr1 [e|]]; [by apply IH|].
  apply IH. by apply keyed_insert.
Qed.

(** A peer that chokes the client gets no request. *)
Lemma requestLoop_choked now p pieceIndex requestsToMake blockRequests :
  ∀ requestsMade active pr pm,
  peer.PeerState.PeerChoking (peer.Peer.state pr) = true →
  requestLoop now p pieceIndex requestsToMake blockRequests requestsMade active pr pm
    = (active, pr, pm).
Proof.
  induction blockRequests as [|blockReq rest IH];
    intros requestsMade active pr pm Hc; cbn; [done|].
  case_decide; [done|].
  destruct (active !! _); [by apply IH|].
  unfold peer.RequestPiece, peer.GetState. rewrite Hc. by apply IH.
Qed.

Lemma with_activeRequests_id (c : Coordinator.t) :
  Coordinator.with_activeRequests (Coordinator.activeRequests c) c = c.
Proof. by destruct c. Qed.

Lemma requestPiecesFromPeer_choked now p neededPieces c pr pm :
  peer.PeerState.PeerChoking (peer.Peer.state pr) = true →
  requestPiecesFromPeer now p neededPieces c pr pm = (c, pr, pm).
Proof.
  intros Hc. unfold requestPiecesFromPeer.
  case_decide; [done|]. destruct (peer.GetBitfield pr); [|done].
  case_decide; [done|]. destruct (SelectPieceForPeer _ pm); [|done].
  rewrite requestLoop_choked by done. by rewrite with_activeRequests_id.
Qed.

Lemma requestPiecesFromPeer_keyed now p neededPieces c pr pm :
  keyed (Coordinator.activeRequests c) →
  keyed (Coordinator.activeRequests (requestPiecesFromPeer now p neededPieces c pr pm).1.1).
Proof.
  intros Hk. unfold requestPiecesFromPeer.
  case_decide; [done|]. destruct (peer.GetBitfield pr); [|done].
  case_decide; [done|]. destruct (SelectPieceForPeer _ pm) as [pieceIndex|]; [|done].
  pose proof (requestLoop_keyed now p pieceIndex
    (int64 (Coordinator.maxRequestsPerPeer c - countActiveRequestsForPeer p c))
    (GetBlockRequests pieceIndex pm) 0 _ pr pm Hk) as Hk'.
  destruct (requestLoop _ _ _ _ _ _ _ _ _) as [[active' pr'] pm']. exact Hk'.
Qed.

Lemma requestPiecesFromPeer_spec now p neededPieces c pr pm c' pr' pm' :
  requestPiecesFromPeer now p neededPieces c pr pm = (c', pr', pm') →
  ∃ (pieceIndex : Z) (issued : list piece.BlockRequest.t),
    pr' = peer.Peer.with_sendCh
            (peer.Peer.sendCh pr ++ (requestMessage pieceIndex <$> issued)) pr ∧
    NoDup (keyOf pieceIndex <$> issued) ∧
    (∀ b, b ∈ issued →
       Coordinator.activeRequests c !! keyOf pieceIndex b = None ∧
       Coordinator.activeRequests c' !! keyOf pieceIndex b
         = Some (entryOf now p pieceIndex b)) ∧
    (∀ k, k ∉ (keyOf pieceIndex <$> issued) →
       Coordinator.activeRequests c' !! k = Coordinator.activeRequests c !! k).
Proof.
  assert (∀ c' pr' pm', (c, pr, pm) = (c', pr', pm') →
    ∃ (pieceIndex : Z) (issued : list piece.BlockRequest.t),
      pr' = peer.Peer.with_sendCh
              (peer.Peer.sendCh pr ++ (requestMessage pieceIndex <$> issued)) pr ∧
      NoDup (keyOf pieceIndex <$> issued) ∧
      (∀ b, b ∈ issued →
         Coordinator.activeRequests c !! keyOf pieceIndex b = None ∧
         Coordinator.activeRequests c' !! keyOf pieceIndex b
           = Some (entryOf now p pieceIndex b)) ∧
      (∀ k, k ∉ (keyOf pieceIndex <$> issued) →
         Coordinator.activeRequests c' !! k = Coordinator.activeRequests c !! k))
    as Hsame.
  { intros ? ? ? [= <- <- <-]. exists 0, []. cbn. rewrite with_sendCh_nil.
    split_and!; [done|constructor| |done].
    intros b Hb. by apply elem_of_nil in Hb. }
  unfold requestPiecesFromPeer.
  case_decide; [apply Hsame|]. destruct (peer.GetBitfield pr); [|apply Hsame].
  case_decide; [apply Hsame|].
  destruct (SelectPieceForPeer _ pm) as [pieceIndex|]; [|apply Hsame].
  destruct (requestLoop _ _ _ _ _ _ _ _ _) as [[active1 pr1] pm1] eqn:Hloop.
  intros [= <- <- <-].
  apply requestLoop_spec in Hloop as (issued & _ & ? & ? & ? & ?).
  exists pieceIndex, issued. done.
Qed.

Lemma requestAll_keyed now peers neededPieces :
  ∀ c heap pm,
  keyed (Coordinator.activeRequests c) →
  keyed (Coordinator.activeRequests (requestAll now peers neededPieces c heap pm).1.1).
Proof.
  induction peers as [|p peers IH]; intros c heap pm Hk; cbn; [done|].
  destruct (heap !! p) as [pr|]; [|by apply IH].
  destruct (peer.CanDownload pr); [|by apply IH].
  pose proof (requestPiecesFromPeer_keyed now p neededPieces c pr pm Hk) as Hk'.
  destruct (requestPiecesFromPeer _ _ _ _ _ _) as [[c1 pr1] pm1]. by apply IH.
Qed.

Lemma processDownloadCycle_keyed now peers c heap pm :
  keyed (Coordinator.activeRequests c) →
  keyed (Coordinator.activeRequests (processDownloadCycle now peers c heap pm).1.1).
Proof.
  intros Hk. unfold processDownloadCycle.
  case_decide; [done|]. case_decide; [done|].
  match goal with |- context [requestAll ?a ?b ?c ?d ?e ?f] =>
    pose proof (requestAll_keyed a b c d e f Hk) as Hk';
    destruct (requestAll a b c d e f) as [[c1 heap1] pm1] end.
  unfold updateProgress. by destruct (GetProgressCounts pm1).
Qed.

End loop.

End request_map.

Section coordinator_system.
Context {D : Type} `{piece.DiskManager D}.
Import download engine.

Lemma handlePieceData_coordinator index begin block m (st : Store.t D) c m' st' c' :
  peer.handlePieceData index begin block m st c = Returns (m', st', c') →
  c' = c ∨ c' = HandlePieceReceived index begin c.
Proof.
  unfold peer.handlePieceData. cbn [peer.Manager.pieceManager_set
    peer.Manager.pieceHandler_set].
  destruct (peer.Manager.pieceManager_set m); [|intros [= <- <- <-]; by left].
  destruct (peer.AddBlockData index begin block st) as [r|]; cbn; [|done].
  destruct (peer.Manager.pieceHandler_set m); intros [= <- <- <-]; [by right|by left].
Qed.

Lemma step_keyed (s s' : System.t D) :
  step s s' →
  keyed (Coordinator.activeRequests (System.coordinator s)) →
  keyed (Coordinator.activeRequests (System.coordinator s')).
Proof.
  intros Hstep Hk. destruct Hstep; cbn; try done.
  - match goal with Hp : peer.handlePieceData _ _ _ _ _ _ = _ |- _ =>
      apply handlePieceData_coordinator in Hp as [->| ->] end; [done|].
    by apply HandlePieceReceived_keyed.
  - match goal with Hc : processDownloadCycle ?a ?b ?c ?d ?e = _ |- _ =>
      pose proof (processDownloadCycle_keyed a b c d e Hk) as Hk';
      rewrite Hc in Hk' end.
    exact Hk'.
  - by apply cleanupTimedOutRequests_keyed.
Qed.

Lemma reachable_keyed (m : piece.Manager.t D) (s : System.t D) :
  reachable (initial m) s →
  keyed (Coordinator.activeRequests (System.coordinator s)).
Proof.
  induction 1 as [|s s' _ IH Hstep]; [apply keyed_empty|]. by eapply step_keyed.
Qed.

(** C1.  In every state the client reaches, the request map of the
    coordinator holds at most one entry per (piece, offset).  A call of
    [requestPiecesFromPeer] queues REQUEST messages for blocks [issued] of
    one piece only: each of them had no entry in the map when its REQUEST
    was sent (none before the call, and no two of them share a key), and
    each gets its entry for this peer; no other entry changes.
    [HandlePieceReceived] removes the entry of the block that arrived and
    the timeout sweep removes the entries older than the request timeout. *)
Theorem C1_at_most_one_request_per_block :
  (∀ (m : piece.Manager.t D) (s : System.t D),
     reachable (initial m) s →
     atMostOne (Coordinator.activeRequests (System.coordinator s))) ∧
  (∀ now p neededPieces c pr (st : Store.t D) c' pr' st',
     requestPiecesFromPeer now p neededPieces c pr st = (c', pr', st') →
     ∃ (pieceIndex : Z) (issued : list piece.BlockRequest.t),
       pr' = peer.Peer.with_sendCh
               (peer.Peer.sendCh pr ++ (requestMessage pieceIndex <$> issued)) pr ∧
       NoDup (keyOf pieceIndex <$> issued) ∧
       (∀ b, b ∈ issued →
          Coordinator.activeRequests c !! keyOf pieceIndex b = None ∧
          Coordinator.activeRequests c' !! keyOf pieceIndex b
            = Some (entryOf now p pieceIndex b)) ∧
       (∀ k, k ∉ (keyOf pieceIndex <$> issued) →
          Coordinator.activeRequests c' !! k = Coordinator.activeRequests c !! k)) ∧
  (∀ pieceIndex begin c k,
     Coordinator.activeRequests (HandlePieceReceived pieceIndex begin c) !! k =
       if decide (k = requestKey pieceIndex begin) then None
       else Coordinator.activeRequests c !! k) ∧
  (∀ now c k r,
     Coordinator.activeRequests (cleanupTimedOutRequests now c) !! k = Some r ↔
     Coordinator.activeRequests c !! k = Some r ∧
     ¬ (int64 (now - RequestInfo.RequestedAt r) > Coordinator.requestTimeout c)).
Proof.
  split_and!.
  - intros m s Hr. by eapply keyed_atMostOne, reachable_keyed.
  - intros *. apply requestPiecesFromPeer_spec.
  - apply HandlePieceReceived_lookup.
  - apply cleanupTimedOutRequests_lookup.
Qed.


End coordinator_system.

Section choke_example.
#[local] Existing Instances fixture.toySha1 fixture.toyJoin.
Import download engine.


End choke_example.

(** ** The bencode codec on canonical input (claim C7) *)

Section decimal.
Import bencode.

Lemma isDigit_spec (b : byte) : isDigit b = true ↔ 48 ≤ b ≤ 57.
Proof. unfold isDigit, ch_0, ch_9. apply bool_decide_eq_true. Qed.

Lemma formatDigits_app (fuel : nat) (n : Z) (acc : list byte) :
  formatDigits fuel n acc = formatDigits fuel n [] ++ acc.
Proof.
  revert n acc. induction fuel as [|fuel IH]; intros n acc; [done|].
  cbn. case_decide; [done|].
  rewrite IH. rewrite (IH _ [_]). by rewrite <- app_assoc.
Qed.

(** The digits that [formatDigits] writes: at least one, all decimal. *)
Lemma formatDigits_digits (fuel : nat) (n : Z) :
  0 ≤ n → (0 < fuel)%nat →
  formatDigits fuel n [] ≠ [] ∧
  Forall (λ b, isDigit b = true) (formatDigits fuel n []).
Proof.
  revert n. induction fuel as [|fuel IH]; intros n Hn Hf; [lia|].
  assert (0 ≤ n `mod` 10 < 10) as Hd by (apply Z.mod_pos_bound; lia).
  assert (isDigit (ch_0 + n `mod` 10) = true) as Hdigit
    by (apply isDigit_spec; unfold ch_0; lia).
  cbn. case_decide as Hlt.
  - split; [done|]. by constructor.
  - rewrite formatDigits_app. destruct fuel as [|fuel].
    + cbn. split; [done|]. by constructor.
    + destruct (IH (n `div` 10)) as [Hne Hall];
        [apply Z.div_pos; lia|lia|].
      split.
      * intros [Hnil _]%app_eq_nil. done.
      * apply Forall_app. split; [done|]. by constructor.
Qed.

(** Reading back the digits of [n] continues the accumulator with [n]. *)
Lemma parseDigits_formatDigits (fuel : nat) (n : Z) (rest : list byte) :
  0 ≤ n < 2 ^ Z.of_nat fuel → (0 < fuel)%nat →
  ∀ a, ∃ k, 0 ≤ k ∧
    parseDigits a (formatDigits fuel n [] ++ rest) = parseDigits (a * 10 ^ k + n) rest.
Proof.
  revert n rest. induction fuel as [|fuel IH]; intros n rest Hn Hf a; [lia|].
  assert (0 ≤ n `mod` 10 < 10) as Hd by (apply Z.mod_pos_bound; lia).
  assert (isDigit (ch_0 + n `mod` 10) = true) as Hdigit
    by (apply isDigit_spec; unfold ch_0; lia).
  cbn [formatDigits]. case_decide as Hlt.
  - exists 1. split; [lia|]. cbn [app parseDigits]. rewrite Hdigit.
    f_equal. rewrite Z.mod_small by lia. unfold ch_0. lia.
  - rewrite formatDigits_app, <- app_assoc.
    assert (2 ^ Z.of_nat (S fuel) = 2 * 2 ^ Z.of_nat fuel) as Hpow.
    { rewrite Nat2Z.inj_succ, Z.pow_succ_r by lia. done. }
    assert (0 ≤ n `div` 10 < 2 ^ Z.of_nat fuel) as Hq.
    { split; [apply Z.div_pos; lia|].
      apply Z.div_lt_upper_bound; lia. }
    assert (0 < fuel)%nat as Hf'.
    { destruct fuel; [|lia]. cbn in Hn. lia. }
    destruct (IH (n `div` 10) ([ch_0 + n `mod` 10] ++ rest) Hq Hf' a)
      as (k & Hk & Hp).
    exists (k + 1). split; [lia|]. etrans; [exact Hp|].
    cbn [app parseDigits]. rewrite Hdigit. f_equal.
    rewrite Z.pow_add_r by lia.
    pose proof (Z.div_mod n 10 ltac:(lia)). unfold ch_0. lia.
Qed.

Lemma log2_fuel (n : Z) : 0 ≤ n → n < 2 ^ Z.of_nat (S (Z.to_nat (Z.log2 n))).
Proof.
  intros Hn. rewrite Nat2Z.inj_succ, Z2Nat.id by apply Z.log2_nonneg.
  destruct (decide (n = 0)) as [->|]; [done|].
  apply Z.log2_spec. lia.
Qed.

(** [formatInt n]: an optional minus sign and digits. *)
Lemma formatInt_shape (n : Z) :
  ∃ ds, ds ≠ [] ∧ Forall (λ b, isDigit b = true) ds ∧
        formatInt n = (if decide (n < 0) then [ch_minus] else []) ++ ds ∧
        parseDigits 0 ds = Some (Z.abs n).
Proof.
  unfold formatInt. case_decide as Hneg.
  - destruct (formatDigits_digits (S (Z.to_nat (Z.log2 (- n)))) (- n)) as [Hne Hall];
      [lia|lia|].
    eexists. split; [exact Hne|]. split; [exact Hall|]. split; [done|].
    destruct (parseDigits_formatDigits (S (Z.to_nat (Z.log2 (- n)))) (- n) [])
      with (a := 0) as (k & Hk & Hp); [split; [lia|apply log2_fuel; lia]|lia|].
    rewrite app_nil_r in Hp. rewrite Hp. cbn. f_equal. lia.
  - destruct (formatDigits_digits (S (Z.to_nat (Z.log2 n))) n) as [Hne Hall];
      [lia|lia|].
    eexists. split; [exact Hne|]. split; [exact Hall|]. split; [done|].
    destruct (parseDigits_formatDigits (S (Z.to_nat (Z.log2 n))) n [])
      with (a := 0) as (k & Hk & Hp); [split; [lia|apply log2_fuel; lia]|lia|].
    rewrite app_nil_r in Hp. rewrite Hp. cbn. f_equal. lia.
Qed.

(** [ParseInt] reads back what [%d] prints, for every [int64]. *)
Lemma ParseInt_formatInt (n : Z) :
  - 2 ^ 63 ≤ n < 2 ^ 63 → ParseInt (formatInt n) = Some n.
Proof.
  intros Hn. destruct (formatInt_shape n) as (ds & Hne & Hall & -> & Hp).
  destruct ds as [|d ds]; [done|].
  assert (48 ≤ d ≤ 57) as Hd.
  { apply isDigit_spec. by inversion Hall. }
  unfold ParseInt. case_decide as Hneg; cbn [app].
  - rewrite decide_False by (unfold ch_minus, ch_plus; lia).
    rewrite decide_True by done. rewrite Hp. cbn.
    rewrite decide_False by lia. rewrite decide_False by lia. f_equal. lia.
  - rewrite decide_False by (unfold ch_plus; lia).
    rewrite decide_False by (unfold ch_minus; lia). rewrite Hp. cbn.
    rewrite decide_False by lia. rewrite decide_False by lia. f_equal. lia.
Qed.

(** No byte of [formatInt n] is [c] when [c] is neither a digit nor a minus. *)
Lemma formatInt_no (n : Z) (c : byte) :
  isDigit c = false → c ≠ ch_minus → c ∉ formatInt n.
Proof.
  intros Hc Hm. destruct (formatInt_shape n) as (ds & _ & Hall & -> & _).
  intros [Hin|Hin]%elem_of_app.
  - case_decide; [|by apply elem_of_nil in Hin].
    apply list_elem_of_singleton in Hin. done.
  - rewrite Forall_forall in Hall. apply Hall in Hin. congruence.
Qed.

(** The first byte of the length prefix of a byte string is a digit. *)
Lemma formatInt_nonneg_head (n : Z) :
  0 ≤ n → ∃ d t, formatInt n = d :: t ∧ isDigit d = true.
Proof.
  intros Hn. destruct (formatInt_shape n) as (ds & Hne & Hall & -> & _).
  rewrite decide_False by lia. destruct ds as [|d t]; [done|].
  exists d, t. split; [done|]. by inversion Hall.
Qed.

Lemma readUntil_app (delim : byte) (s rest : list byte) :
  delim ∉ s → readUntil delim (s ++ delim :: rest) = Ok (s, rest).
Proof.
  induction s as [|b s IH]; intros Hnot; cbn.
  - by rewrite decide_True.
  - apply not_elem_of_cons in Hnot as [Hne Hnot].
    rewrite decide_False by done. by rewrite IH.
Qed.

End decimal.

Section bencode_roundtrip.
Import bencode.

(** *** Keys *)

Lemma stringLess_irrefl (a : list byte) : stringLess a a = false.
Proof.
  induction a as [|x a IH]; [done|]. cbn.
  rewrite decide_False by lia. by rewrite decide_False by lia.
Qed.

Lemma stringLess_asym (a b : list byte) :
  stringLess a b = true → stringLess b a = false.
Proof.
  revert b. induction a as [|x a IH]; intros [|y b]; cbn; try done.
  repeat case_decide; try done; try lia. apply IH.
Qed.

Lemma stringLess_trans (a b c : list byte) :
  stringLess a b = true → stringLess b c = true → stringLess a c = true.
Proof.
  revert b c. induction a as [|x a IH]; intros [|y b] [|z c]; cbn; try done.
  repeat case_decide; try done; try lia. apply IH.
Qed.

Lemma ascending_cons (k : list byte) (keys : list (list byte)) :
  ascending (k :: keys) → ascending keys ∧ Forall (λ k', stringLess k k' = true) keys.
Proof.
  revert k. induction keys as [|k2 keys IH]; intros k [Hlt Hasc]; [done|].
  split; [done|]. constructor; [done|].
  destruct (IH k2 Hasc) as [_ Hall].
  eapply Forall_impl; [exact Hall|]. intros k' Hk'. by eapply stringLess_trans.
Qed.

Lemma ascending_NoDup (keys : list (list byte)) : ascending keys → NoDup keys.
Proof.
  induction keys as [|k keys IH]; intros Hasc; [constructor|].
  destruct (ascending_cons _ _ Hasc) as [Hrest Hall]. constructor; [|by apply IH].
  intros Hin. rewrite Forall_forall in Hall. apply Hall in Hin.
  by rewrite stringLess_irrefl in Hin.
Qed.

(** *** Sorting what is sorted *)

Lemma sortSlice_fold_inOrder {A} (less : A → A → bool) (l racc : list A) :
  inOrder less l →
  match racc, l with y :: _, x :: _ => less x y = false | _, _ => True end →
  foldl (λ racc x, sortSlice_insert less x racc) racc l = rev l ++ racc.
Proof.
  revert racc. induction l as [|x l IH]; intros racc Hord Hhead; [done|].
  cbn [foldl]. destruct Hord as [Hxy Hord].
  assert (sortSlice_insert less x racc = x :: racc) as ->.
  { destruct racc as [|y racc]; [done|]. cbn. by rewrite Hhead. }
  rewrite IH; [|done|by destruct l].
  cbn [rev]. by rewrite <- app_assoc.
Qed.

Lemma sortSlice_inOrder {A} (less : A → A → bool) (l : list A) :
  inOrder less l → sortSlice less l = l.
Proof.
  intros Hord. unfold sortSlice. rewrite sortSlice_fold_inOrder; [|done|done].
  by rewrite app_nil_r, rev_involutive.
Qed.

Lemma ascending_inOrder {B} (m : list (list byte * B)) :
  ascending (m.*1) → inOrder (λ a b, stringLess a.1 b.1) m.
Proof.
  induction m as [|[k x] m IH]; [done|]. intros [Hlt Hasc]. split; [|by apply IH].
  destruct m as [|[k2 x2] m]; [done|]. cbn in *. by apply stringLess_asym.
Qed.

(** *** The map that the decoder fills *)

Lemma mapAssign_fresh key val (m : list (list byte * Value)) :
  key ∉ m.*1 → mapAssign key val m = m ++ [(key, val)].
Proof.
  induction m as [|[k v] m IH]; intros Hfresh; [done|]. cbn in *.
  apply not_elem_of_cons in Hfresh as [Hne Hfresh].
  rewrite decide_False by done. by rewrite IH.
Qed.

Lemma mapIndex_Some key (m : list (list byte * Value)) v :
  mapIndex key m = Some v → (key, v) ∈ m.
Proof.
  induction m as [|[k x] m IH]; [done|]. cbn. case_decide as Hk.
  - intros [= ->]. subst. by left.
  - intros Hin. right. by apply IH.
Qed.

(** *** Values *)

(** Induction on values, through lists and dictionaries. *)
Lemma Value_induction (P : Value → Prop) :
  (∀ n, P (Int n)) →
  (∀ s, P (Str s)) →
  (∀ l, Forall P l → P (List l)) →
  (∀ m, Forall (λ kv, P kv.2) m → P (Dict m)) →
  ∀ v, P v.
Proof.
  intros HInt HStr HList HDict.
  refine (fix IH (v : Value) : P v :=
            match v with
            | Int n => HInt n
            | Str s => HStr s
            | List l =>
                HList l ((fix all (l : list Value) : Forall P l :=
                            match l with
                            | [] => Forall_nil_2 P
                            | x :: l' => Forall_cons_2 P x l' (IH x) (all l')
                            end) l)
            | Dict m =>
                HDict m ((fix all (m : list (list byte * Value))
                              : Forall (λ kv, P kv.2) m :=
                            match m with
                            | [] => Forall_nil_2 _
                            | (k, x) :: m' =>
                                Forall_cons_2 (λ kv, P kv.2) (k, x) m' (IH x) (all m')
                            end) m)
            end).
Qed.

Lemma encode_List (l : list Value) :
  encode (List l) = [ch_l] ++ concat (encode <$> l) ++ [ch_e].
Proof.
  cbn [encode]. do 2 f_equal.
  induction l as [|x l IH]; [done|]. cbn [fmap list_fmap concat]. by rewrite IH.
Qed.

Lemma encode_Dict_entries (m : list (list byte * Value)) :
  encode (Dict m) =
    [ch_d] ++ concat ((λ e, encodeBytes e.1 ++ e.2)
                        <$> sortSlice (λ a b, stringLess a.1 b.1)
                              ((λ kv, (kv.1, encode kv.2)) <$> m)) ++ [ch_e].
Proof.
  cbn [encode]. do 5 f_equal.
  induction m as [|[k x] m IH]; [done|]. cbn [fmap list_fmap]. by rewrite IH.
Qed.

(** The encoding of a dictionary whose keys ascend: the entries in order. *)
Lemma encode_Dict (m : list (list byte * Value)) :
  ascending (m.*1) →
  encode (Dict m) = [ch_d] ++ concat (encodeEntry <$> m) ++ [ch_e].
Proof.
  intros Hasc. rewrite encode_Dict_entries. do 3 f_equal.
  rewrite sortSlice_inOrder.
  - rewrite <- list_fmap_compose. done.
  - apply ascending_inOrder. rewrite <- list_fmap_compose.
    exact Hasc.
Qed.

Lemma canonical_List (l : list Value) : canonical (List l) ↔ Forall canonical l.
Proof.
  cbn [canonical]. induction l as [|x l IH]; [by split; [constructor|]|].
  rewrite Forall_cons. tauto.
Qed.

Lemma canonical_Dict (m : list (list byte * Value)) :
  canonical (Dict m) ↔
  ascending (m.*1) ∧ Forall (λ kv, len kv.1 < 2 ^ 63 ∧ canonical kv.2) m.
Proof.
  cbn [canonical]. apply and_iff_compat_l.
  induction m as [|[k x] m IH]; [by split; [constructor|]|].
  rewrite Forall_cons. cbn [fst snd]. tauto.
Qed.

Lemma encode_head (v : Value) : ∃ b t, encode v = b :: t ∧ b ≠ ch_e ∧ b ≠ ch_minus.
Proof.
  destruct v as [n|s|l|m].
  - exists ch_i. eexists. by split_and!.
  - destruct (formatInt_nonneg_head (len s)) as (d & t & Heq & Hd); [unfold len; lia|].
    exists d. eexists. cbn [encode]. unfold encodeBytes. rewrite Heq.
    split; [done|]. apply isDigit_spec in Hd. unfold ch_e, ch_minus. lia.
  - exists ch_l. eexists. by split_and!.
  - exists ch_d. eexists. by split_and!.
Qed.

Lemma encode_length (v : Value) : (0 < length (encode v))%nat.
Proof. destruct (encode_head v) as (b & t & -> & _). cbn. lia. Qed.

(** *** Reading back what the encoder wrote *)

Lemma decodeInt_encode (n : Z) (rest : list byte) :
  - 2 ^ 63 ≤ n < 2 ^ 63 →
  decodeInt KInterface (formatInt n ++ [ch_e] ++ rest) = Ok (Int n, rest).
Proof.
  intros Hn. unfold decodeInt. cbn [app].
  rewrite readUntil_app by (by apply formatInt_no).
  cbn. by rewrite ParseInt_formatInt.
Qed.

Lemma decodeString_encode (k : Kind) (s rest : list byte) :
  len s < 2 ^ 63 → k ≠ KMap →
  decodeString k (encodeBytes s ++ rest) = Ok (Str s, rest).
Proof.
  intros Hs Hk. unfold decodeString, encodeBytes.
  rewrite <- !app_assoc. cbn [app].
  rewrite readUntil_app by (by apply formatInt_no).
  cbn. rewrite ParseInt_formatInt by (unfold len in *; lia).
  rewrite decide_False by (unfold len; lia).
  rewrite decide_False by (unfold len; rewrite length_app; lia).
  unfold len. rewrite Nat2Z.id, take_app_length, drop_app_length.
  by destruct k.
Qed.

Lemma decode_string (fuel : nat) (k : Kind) (s rest : list byte) :
  len s < 2 ^ 63 → k ≠ KMap →
  decode (S fuel) k (encodeBytes s ++ rest) = Ok (Str s, rest).
Proof.
  intros Hs Hk. rewrite <- (decodeString_encode k s rest Hs Hk).
  destruct (formatInt_nonneg_head (len s)) as (d & t & Heq & Hd); [unfold len; lia|].
  unfold encodeBytes. rewrite Heq. cbn [decode app].
  pose proof Hd as Hd'. apply isDigit_spec in Hd'.
  rewrite !decide_False by (unfold ch_i, ch_l, ch_d; lia).
  by rewrite Hd.
Qed.

Lemma decodeListLoop_end (fuel : nat) (rest : list byte) (items : list Value) :
  decodeListLoop (S fuel) (ch_e :: rest) items = Ok (List items, rest).
Proof. done. Qed.

Lemma decodeListLoop_step (fuel : nat) (s : list byte) (items : list Value) b s' :
  s = b :: s' → b ≠ ch_e →
  decodeListLoop (S fuel) s items =
    '(elem, rest) ← decode fuel KInterface s; decodeListLoop fuel rest (items ++ [elem]).
Proof. intros -> Hb. cbn [decodeListLoop]. by rewrite decide_False. Qed.

Lemma decodeDictLoop_end (fuel : nat) (rest : list byte) m :
  decodeDictLoop (S fuel) (ch_e :: rest) m = Ok (Dict m, rest).
Proof. done. Qed.

Lemma decodeDictLoop_step (fuel : nat) (s : list byte) m b s' :
  s = b :: s' → b ≠ ch_e →
  decodeDictLoop (S fuel) s m =
    '(key, rest) ← decode fuel KString s;
    '(val, rest) ← decode fuel KInterface rest;
    match key with
    | Str key => decodeDictLoop fuel rest (mapAssign key val m)
    | _ => Err "cannot decode"
    end.
Proof. intros -> Hb. cbn [decodeDictLoop]. by rewrite decide_False. Qed.

Lemma decodeListLoop_encode (l : list Value) :
  Forall readsBack l →
  ∀ fuel rest items, (length (concat (encode <$> l)) + 1 ≤ fuel)%nat →
    decodeListLoop fuel (concat (encode <$> l) ++ ch_e :: rest) items
    = Ok (List (items ++ l), rest).
Proof.
  induction 1 as [|x l Hx _ IH]; intros fuel rest items Hfuel.
  - destruct fuel as [|fuel]; [cbn in Hfuel; lia|].
    cbn [fmap list_fmap concat app]. by rewrite decodeListLoop_end, app_nil_r.
  - destruct fuel as [|fuel]; [lia|].
    cbn [fmap list_fmap concat] in *. rewrite length_app in Hfuel.
    pose proof (encode_length x) as Hlen.
    destruct (encode_head x) as (b & t & Heq & Hb & _).
    rewrite <- app_assoc.
    erewrite decodeListLoop_step; [|by rewrite Heq|done].
    rewrite (Hx KInterface); [|done|lia]. cbn.
    rewrite IH by lia. by rewrite <- app_assoc.
Qed.

Lemma decodeDictLoop_encode (m : list (list byte * Value)) :
  Forall (λ kv, len kv.1 < 2 ^ 63 ∧ readsBack kv.2) m →
  ∀ fuel rest acc, NoDup ((acc ++ m).*1) →
    (length (concat (encodeEntry <$> m)) + 1 ≤ fuel)%nat →
    decodeDictLoop fuel (concat (encodeEntry <$> m) ++ ch_e :: rest) acc
    = Ok (Dict (acc ++ m), rest).
Proof.
  induction 1 as [|[key x] m [Hkey Hx] _ IH]; intros fuel rest acc Hnodup Hfuel.
  - destruct fuel as [|fuel]; [cbn in Hfuel; lia|].
    cbn [fmap list_fmap concat app]. by rewrite decodeDictLoop_end, app_nil_r.
  - destruct fuel as [|fuel]; [lia|].
    cbn [fmap list_fmap concat fst snd] in *. unfold encodeEntry at 1 in Hfuel.
    unfold encodeEntry at 1. cbn [fst snd] in *.
    rewrite !length_app in Hfuel.
    pose proof (encode_length x) as Hlen.
    pose proof (encode_length (Str key)) as Hlenk. cbn [encode] in Hlenk.
    destruct (encode_head (Str key)) as (b & t & Heq & Hb & _). cbn [encode] in Heq.
    rewrite <- !app_assoc.
    erewrite decodeDictLoop_step; [|by rewrite Heq|done].
    destruct fuel as [|fuel]; [lia|].
    rewrite decode_string by done. cbn [mbind result_bind].
    rewrite (Hx KInterface); [|done|lia]. cbn [mbind result_bind].
    assert (key ∉ acc.*1) as Hfresh.
    { rewrite fmap_app in Hnodup. apply NoDup_app in Hnodup as (_ & Hdisj & _).
      intros Hin. apply (Hdisj key Hin). cbn. left. }
    rewrite mapAssign_fresh by done.
    rewrite IH; [by rewrite <- app_assoc| |lia].
    by rewrite <- app_assoc.
Qed.

(** Every canonical value is read back from its encoding. *)
Lemma decode_encode (v : Value) : canonical v → readsBack v.
Proof.
  induction v as [n|s|l IH|m IH] using Value_induction; intros Hc k fuel rest Hk Hfuel.
  - destruct fuel as [|fuel]; [cbn in Hfuel; lia|].
    destruct k; try done. cbn [encode]. unfold encodeInt. cbn [app decode].
    rewrite decide_True by done. rewrite <- app_assoc. by apply decodeInt_encode.
  - destruct fuel as [|fuel]; [pose proof (encode_length (Str s)); lia|].
    cbn [encode]. apply decode_string; [done|]. by destruct k.
  - destruct fuel as [|fuel]; [pose proof (encode_length (List l)); lia|].
    destruct k; try done. rewrite encode_List in *. cbn [app decode].
    rewrite decide_False by done. rewrite decide_True by done.
    rewrite <- app_assoc. cbn [app].
    rewrite decodeListLoop_encode; [done| |].
    + apply canonical_List in Hc. rewrite Forall_forall in *. auto.
    + cbn in Hfuel. rewrite length_app in Hfuel. cbn in Hfuel. lia.
  - destruct fuel as [|fuel]; [pose proof (encode_length (Dict m)); lia|].
    apply canonical_Dict in Hc as [Hasc Hall].
    rewrite encode_Dict in * by done. cbn [app decode].
    rewrite !decide_False by done. rewrite decide_True by done.
    rewrite <- app_assoc. cbn [app].
    assert (decodeDictLoop fuel (concat (encodeEntry <$> m) ++ ch_e :: rest) []
            = Ok (Dict m, rest)) as Hloop.
    { rewrite decodeDictLoop_encode; [done| | |].
      - rewrite Forall_forall in *. intros kv Hin. split; [by apply Hall|].
        apply IH; [done|]. by apply Hall.
      - by apply ascending_NoDup.
      - cbn in Hfuel. rewrite length_app in Hfuel. cbn in Hfuel. lia. }
    by destruct k.
Qed.

Lemma Decode_Encode (top : list (list byte * Value)) (trailing : list byte) :
  canonical (Dict top) → Decode (Encode (Dict top) ++ trailing) = Ok top.
Proof.
  intros Hc. unfold Decode, Encode.
  rewrite (decode_encode _ Hc KMap); [done|done|].
  rewrite length_app. lia.
Qed.

(** *** The bytes of the [info] dictionary in the input *)

Lemma infoSource_loop_end (fuel : nat) (rest : list byte) found :
  torrent.infoSource_loop (S fuel) (ch_e :: rest) found = Ok found.
Proof. done. Qed.

Lemma infoSource_loop_step (fuel : nat) (s : list byte) found b s' :
  s = b :: s' → b ≠ ch_e →
  torrent.infoSource_loop (S fuel) s found =
    '(key, rest) ← decode (S (length s)) KString s;
    '(_, rest') ← decode (S (length rest)) KInterface rest;
    let raw := take (length rest - length rest') rest in
    torrent.infoSource_loop fuel rest'
      (match key with
       | Str k => if decide (k = bytes "info") then Some raw else found
       | _ => found
       end).
Proof. intros -> Hb. cbn [torrent.infoSource_loop]. by rewrite decide_False. Qed.

Lemma infoSource_loop_encode (m : list (list byte * Value)) :
  Forall (λ kv, len kv.1 < 2 ^ 63 ∧ canonical kv.2) m →
  ∀ fuel rest found, (length (concat (encodeEntry <$> m)) < fuel)%nat →
    torrent.infoSource_loop fuel (concat (encodeEntry <$> m) ++ ch_e :: rest) found
    = Ok (torrent.infoFound found m).
Proof.
  induction 1 as [|[key x] m [Hkey Hx] _ IH]; intros fuel rest found Hfuel.
  - destruct fuel as [|fuel]; [cbn in Hfuel; lia|].
    cbn [fmap list_fmap concat app]. by rewrite infoSource_loop_end.
  - destruct fuel as [|fuel]; [lia|].
    cbn [fmap list_fmap concat fst snd] in *.
    unfold encodeEntry at 1 in Hfuel. unfold encodeEntry at 1. cbn [fst snd] in *.
    rewrite !length_app in Hfuel.
    pose proof (encode_length (Str key)) as Hlenk. cbn [encode] in Hlenk.
    destruct (encode_head (Str key)) as (b & t & Heq & Hb & _). cbn [encode] in Heq.
    rewrite <- !app_assoc.
    erewrite infoSource_loop_step; [|by rewrite Heq|done].
    rewrite decode_string by done. cbn [mbind result_bind].
    rewrite (decode_encode _ Hx KInterface); [|done|rewrite length_app; lia].
    cbn [mbind result_bind]. cbv zeta.
    rewrite IH by lia. f_equal. unfold torrent.infoFound. cbn [foldl fst snd].
    replace (length (encode x ++ concat (encodeEntry <$> m) ++ ch_e :: rest)
             - length (concat (encodeEntry <$> m) ++ ch_e :: rest))%nat
      with (length (encode x)) by (rewrite (length_app (encode x)); lia).
    by rewrite take_app_length.
Qed.

Lemma infoFound_absent found (m : list (list byte * Value)) :
  bytes "info" ∉ m.*1 → torrent.infoFound found m = found.
Proof.
  revert found. induction m as [|[k x] m IH]; intros found Hnot; [done|].
  cbn in Hnot. apply not_elem_of_cons in Hnot as [Hne Hnot].
  unfold torrent.infoFound. cbn [foldl fst snd].
  rewrite decide_False by done. by apply IH.
Qed.

Lemma infoFound_mapIndex found (m : list (list byte * Value)) v :
  NoDup (m.*1) → mapIndex (bytes "info") m = Some v →
  torrent.infoFound found m = Some (encode v).
Proof.
  revert found. induction m as [|[k x] m IH]; intros found Hnodup Hidx; [done|].
  cbn in Hnodup. apply NoDup_cons in Hnodup as [Hfresh Hnodup].
  cbn [mapIndex] in Hidx. unfold torrent.infoFound. cbn [foldl fst snd].
  case_decide as Hk.
  - injection Hidx as ->. subst k. by apply infoFound_absent.
  - by apply IH.
Qed.

Lemma infoSource_Encode (top : list (list byte * Value)) (trailing : list byte) v :
  canonical (Dict top) → mapIndex (bytes "info") top = Some v →
  torrent.infoSource (Encode (Dict top) ++ trailing) = Ok (encode v).
Proof.
  intros Hc Hidx. apply canonical_Dict in Hc as [Hasc Hall].
  unfold torrent.infoSource, Encode. rewrite encode_Dict by done.
  cbn [app]. rewrite decide_True by done.
  rewrite <- app_assoc. cbn [app].
  rewrite infoSource_loop_encode; [|done|cbn [length]; rewrite length_app; lia].
  cbn [mbind result_bind].
  by rewrite (infoFound_mapIndex None top v (ascending_NoDup _ Hasc) Hidx).
Qed.

End bencode_roundtrip.

Section info_hash.
Context `{Sha1}.
Import bencode.

(** C7, for canonical input.  The input of [Parse] is the encoding of a
    canonical dictionary [top] (keys strictly ascending in every dictionary,
    integers and lengths within [int64]), followed by any bytes.  If [Parse]
    returns a torrent, its [InfoHash] is the SHA-1 of the bytes that the
    value of the key [info] occupies in the input, and the bytes that
    [Parse] encodes again and hashes are those bytes. *)
Theorem C7_info_hash_of_canonical_metainfo
    (top : list (list byte * Value)) (trailing : list byte) (t : torrent.Torrent.t) :
  canonical (Dict top) →
  torrent.Parse (Encode (Dict top) ++ trailing) = Ok t →
  ∃ src,
    torrent.infoSource (Encode (Dict top) ++ trailing) = Ok src ∧
    torrent.infoBencoded (Encode (Dict top) ++ trailing) = Ok src ∧
    torrent.Torrent.InfoHash t = sha1_Sum src.
Proof.
  intros Hc Hparse. unfold torrent.Parse, torrent.infoBencoded in *.
  rewrite Decode_Encode in * by done. cbn [mbind result_bind] in *.
  destruct (mapIndex (bytes "info") top) as [v|] eqn:Hidx; [|done].
  destruct v as [| | |infoDict]; try done. cbn [torrent.asDict] in *.
  exists (Encode (Dict infoDict)). split; [|split; [done|]].
  - by apply infoSource_Encode.
  - destruct (match torrent.asInt64 (mapIndex (bytes "length") infoDict) with
              | Some length => (length, [])
              | None => _
              end) as [length files].
    destruct (torrent.Validate _); [done|].
    by injection Hparse as <-.
Qed.

End info_hash.

Section info_hash_example.
#[local] Existing Instances fixture.toySha1.

(** C7 at the canonical metainfo [metainfo1]. *)
Lemma C7_info_hash_witness :
  ∃ src,
    torrent.infoSource (bencode.Encode (bencode.Dict fixture.metainfo1) ++ []) = Ok src ∧
    torrent.infoBencoded (bencode.Encode (bencode.Dict fixture.metainfo1) ++ []) = Ok src ∧
    torrent.Torrent.InfoHash fixture.parsed1 = sha1_Sum src.
Proof.
  apply (@C7_info_hash_of_canonical_metainfo fixture.toySha1
           fixture.metainfo1 [] fixture.parsed1).
  - vm_compute. repeat split; intros; discriminate.
  - vm_compute. reflexivity.
Defined.

(** C7 fails on a metainfo that the decoder and [Parse] accept but whose
    [info] dictionary lists [name] before [length]: the bytes that [Parse]
    hashes have the keys sorted and are not the bytes of the input. *)
Lemma C7_counterexample :
  ∃ t src hashed,
    torrent.Parse fixture.unsortedMetainfo = Ok t ∧
    torrent.infoSource fixture.unsortedMetainfo = Ok src ∧
    torrent.infoBencoded fixture.unsortedMetainfo = Ok hashed ∧
    src = bytes "d4:name1:a6:lengthi1e12:piece lengthi1e6:pieces0:e" ∧
    hashed = bytes "d6:lengthi1e4:name1:a12:piece lengthi1e6:pieces0:e" ∧
    torrent.Torrent.InfoHash t = sha1_Sum hashed ∧
    torrent.Torrent.InfoHash t ≠ sha1_Sum src.
Proof.
  eexists _, _, _. split_and!; try (vm_compute; reflexivity).
  vm_compute. discriminate.
Qed.

End info_hash_example.

Section file_io.

Lemma int64_id (x : Z) : - 2 ^ 63 ≤ x < 2 ^ 63 → int64 x = x.
Proof. intros Hx. unfold int64. rewrite Z.mod_small; lia. Qed.

Lemma length_make (n : Z) : length (make n) = Z.to_nat n.
Proof. unfold make. apply length_replicate. Qed.

Lemma length_slice {A} (s : list A) (lo hi : Z) :
  0 ≤ lo ≤ hi → hi ≤ len s → length (slice s lo hi) = Z.to_nat (hi - lo).
Proof.
  intros Hlo Hhi. unfold slice, len in *. rewrite length_take, length_drop. lia.
Qed.

(** What [WriteAt] puts at an offset, [ReadAt] finds there. *)
Lemma readAt_writeAt (b w : list byte) (off : Z) (content : list byte) :
  0 ≤ off → length b = length w → disk.readAt b off (disk.writeAt w off content) = w.
Proof.
  intros Hoff Hlen. unfold disk.readAt, disk.writeAt.
  set (c := content ++ make (off - len content)).
  assert (Z.to_nat off ≤ length c)%nat as Hc.
  { unfold c, len. rewrite length_app, length_make. lia. }
  rewrite drop_app_length' by (rewrite length_take; lia).
  rewrite Hlen, take_app_length.
  rewrite <- Hlen, drop_all. apply app_nil_r.
Qed.

Lemma streamLength_cons (file : torrent.File.t) (files : list torrent.File.t) :
  torrent.streamLength (file :: files)
  = torrent.File.Length file + torrent.streamLength files.
Proof. done. Qed.

Lemma streamLength_nonneg (files : list torrent.File.t) :
  Forall (λ file, 0 ≤ torrent.File.Length file) files → 0 ≤ torrent.streamLength files.
Proof. induction 1; [done|]. rewrite streamLength_cons. lia. Qed.

Lemma TotalLength_streamLength (files : list torrent.File.t) (total : Z) :
  Forall (λ file, 0 ≤ torrent.File.Length file) files →
  0 ≤ total → total + torrent.streamLength files < 2 ^ 63 →
  foldl (λ total file, int64 (total + torrent.File.Length file)) total files
  = total + torrent.streamLength files.
Proof.
  intros Hall. revert total.
  induction Hall as [|file files Hfile Hall IH]; intros total Htotal Hsum.
  - cbn. lia.
  - rewrite streamLength_cons in *. cbn [foldl].
    pose proof (streamLength_nonneg _ Hall).
    rewrite int64_id by lia. rewrite IH by lia. lia.
Qed.

End file_io.

Section disk_loops.
Context `{FilePath}.
Import torrent.

(** The part of the manager that no write changes. *)
Lemma fullPath_same (d d' : disk.Manager.t) (fileInfo : File.t) :
  disk.Manager.torrent d' = disk.Manager.torrent d →
  disk.Manager.downloadDir d' = disk.Manager.downloadDir d →
  disk.fullPath d' fileInfo = disk.fullPath d fileInfo.
Proof.
  intros Ht Hd. unfold disk.fullPath, disk.filePath, disk.info. by rewrite Ht, Hd.
Qed.

(** One turn of the loop of [writeMultiFile], when nothing wraps around:
    [start] is where the next byte of [data] falls in the file and [n] the
    number of bytes that go to the file. *)
Lemma writeMultiFile_loop_cons (fileInfo : File.t) (rest : list File.t)
    (offset : Z) (data : list byte) (currentOffset dataOffset : Z) (d : disk.Manager.t) :
  0 ≤ offset → 0 ≤ currentOffset ≤ offset + dataOffset →
  0 ≤ dataOffset ≤ len data →
  (0 < dataOffset → offset + dataOffset = currentOffset) →
  0 ≤ File.Length fileInfo → currentOffset + File.Length fileInfo < 2 ^ 63 →
  offset + len data < 2 ^ 63 →
  disk.writeMultiFile_loop (fileInfo :: rest) offset data currentOffset dataOffset d =
    let fileEnd := currentOffset + File.Length fileInfo in
    if decide (offset >= fileEnd) then
      disk.writeMultiFile_loop rest offset data fileEnd dataOffset d
    else
      let start := offset + dataOffset - currentOffset in
      let n := Z.min (len data - dataOffset) (File.Length fileInfo - start) in
      if decide (n ≤ 0) then (d, None)
      else
        let fullPath := disk.fullPath d fileInfo in
        if decide (fullPath ∈ disk.Manager.files d) then
          let writeData := slice data dataOffset (dataOffset + n) in
          let content := default [] (disk.Manager.fs d !! fullPath) in
          let d :=
            disk.Manager.with_fs
              (<[fullPath := disk.writeAt writeData start content]> (disk.Manager.fs d)) d in
          if decide (dataOffset + n >= len data) then (d, None)
          else disk.writeMultiFile_loop rest offset data fileEnd (dataOffset + n) d
        else (d, Some "file not open").
Proof.
  intros Hoff Hcur Hdo Hpos Hlen Hend Hfit.
  cbn [disk.writeMultiFile_loop]. cbv zeta.
  rewrite (int64_id (currentOffset + File.Length fileInfo)) by lia.
  case_decide as Hskip; [done|].
  assert ((if decide (offset > currentOffset) then int64 (offset - currentOffset) else 0)
          = offset + dataOffset - currentOffset) as ->.
  { case_decide; [rewrite int64_id by lia|]; lia. }
  rewrite (int64_id (len data - dataOffset)) by lia.
  rewrite (int64_id (offset + dataOffset - currentOffset + (len data - dataOffset))) by lia.
  assert ((if decide (offset + dataOffset - currentOffset + (len data - dataOffset)
                      > File.Length fileInfo)
           then int64 (File.Length fileInfo - (offset + dataOffset - currentOffset))
           else len data - dataOffset)
          = Z.min (len data - dataOffset)
              (File.Length fileInfo - (offset + dataOffset - currentOffset))) as ->.
  { case_decide; [rewrite int64_id by lia|]; lia. }
  case_decide as Hn; [done|].
  rewrite (int64_id (dataOffset + _)) by lia.
  done.
Qed.

(** The same turn of the loop of [readMultiFile]. *)
Lemma readMultiFile_loop_cons (fileInfo : File.t) (rest : list File.t)
    (offset : Z) (data : list byte) (currentOffset dataOffset : Z) (d : disk.Manager.t) :
  0 ≤ offset → 0 ≤ currentOffset ≤ offset + dataOffset →
  0 ≤ dataOffset ≤ len data →
  (0 < dataOffset → offset + dataOffset = currentOffset) →
  0 ≤ File.Length fileInfo → currentOffset + File.Length fileInfo < 2 ^ 63 →
  offset + len data < 2 ^ 63 →
  disk.readMultiFile_loop (fileInfo :: rest) offset data currentOffset dataOffset d =
    let fileEnd := currentOffset + File.Length fileInfo in
    if decide (offset >= fileEnd) then
      disk.readMultiFile_loop rest offset data fileEnd dataOffset d
    else
      let start := offset + dataOffset - currentOffset in
      let n := Z.min (len data - dataOffset) (File.Length fileInfo - start) in
      if decide (n ≤ 0) then (data, None)
      else
        let fullPath := disk.fullPath d fileInfo in
        if decide (fullPath ∈ disk.Manager.files d) then
          let readData := slice data dataOffset (dataOffset + n) in
          let content := default [] (disk.Manager.fs d !! fullPath) in
          let data :=
            take (Z.to_nat dataOffset) data
              ++ disk.readAt readData start content
              ++ drop (Z.to_nat (dataOffset + n)) data in
          if decide (dataOffset + n >= len data) then (data, None)
          else disk.readMultiFile_loop rest offset data fileEnd (dataOffset + n) d
        else (data, Some "file not open").
Proof.
  intros Hoff Hcur Hdo Hpos Hlen Hend Hfit.
  cbn [disk.readMultiFile_loop]. cbv zeta.
  rewrite (int64_id (currentOffset + File.Length fileInfo)) by lia.
  case_decide as Hskip; [done|].
  assert ((if decide (offset > currentOffset) then int64 (offset - currentOffset) else 0)
          = offset + dataOffset - currentOffset) as ->.
  { case_decide; [rewrite int64_id by lia|]; lia. }
  rewrite (int64_id (len data - dataOffset)) by lia.
  rewrite (int64_id (offset + dataOffset - currentOffset + (len data - dataOffset))) by lia.
  assert ((if decide (offset + dataOffset - currentOffset + (len data - dataOffset)
                      > File.Length fileInfo)
           then int64 (File.Length fileInfo - (offset + dataOffset - currentOffset))
           else len data - dataOffset)
          = Z.min (len data - dataOffset)
              (File.Length fileInfo - (offset + dataOffset - currentOffset))) as ->.
  { case_decide; [rewrite int64_id by lia|]; lia. }
  case_decide as Hn; [done|].
  rewrite (int64_id (dataOffset + _)) by lia.
  done.
Qed.

(** [writeMultiFile] opens and closes no file, and writes to the files it
    goes through only. *)
Lemma writeMultiFile_loop_frame (fileInfos : list File.t) (offset : Z)
    (data : list byte) (currentOffset dataOffset : Z) (d d' : disk.Manager.t) err :
  disk.writeMultiFile_loop fileInfos offset data currentOffset dataOffset d = (d', err) →
  disk.Manager.torrent d' = disk.Manager.torrent d ∧
  disk.Manager.downloadDir d' = disk.Manager.downloadDir d ∧
  disk.Manager.files d' = disk.Manager.files d ∧
  ∀ path, path ∉ disk.fullPath d <$> fileInfos →
    disk.Manager.fs d' !! path = disk.Manager.fs d !! path.
Proof.
  revert currentOffset dataOffset d.
  induction fileInfos as [|fileInfo rest IH]; intros currentOffset dataOffset d Hw.
  - injection Hw as <- _. done.
  - cbn [disk.writeMultiFile_loop] in Hw. cbv zeta in Hw.
    assert (∀ path, path ∉ disk.fullPath d <$> fileInfo :: rest →
                    path ≠ disk.fullPath d fileInfo ∧ path ∉ disk.fullPath d <$> rest)
      as Hsplit.
    { intros path Hnot. rewrite fmap_cons in Hnot. by apply not_elem_of_cons in Hnot. }
    case_decide as Hskip.
    { apply IH in Hw as (Ht & Hd & Hf & Hfs). split_and!; try done.
      intros path Hnot. apply Hfs. by apply Hsplit. }
    case_decide as Hn; [by injection Hw as <- _|].
    case_decide as Hopen; [|by injection Hw as <- _].
    case_decide as Hdone.
    { injection Hw as <- _. split_and!; try done.
      intros path Hnot. cbn. apply lookup_insert_ne. apply Hsplit in Hnot as [Hne _]. done. }
    apply IH in Hw as (Ht & Hd & Hf & Hfs). split_and!; try done.
    intros path Hnot. apply Hsplit in Hnot as [Hne Hnot].
    rewrite Hfs by done. cbn. by apply lookup_insert_ne.
Qed.

Lemma readData_done (buf data : list byte) (dataOffset n : Z) :
  length buf = length data → 0 ≤ dataOffset → 0 ≤ n → dataOffset + n = len data →
  take (Z.to_nat dataOffset) buf ++ slice data dataOffset (dataOffset + n)
    ++ drop (Z.to_nat (dataOffset + n)) buf
  = take (Z.to_nat dataOffset) buf ++ drop (Z.to_nat dataOffset) data.
Proof.
  intros Hlen Hdo Hn Hend. unfold slice, len in *. f_equal.
  rewrite (drop_ge buf) by lia. rewrite app_nil_r.
  apply take_ge. rewrite length_drop. lia.
Qed.

Lemma readData_more (buf data : list byte) (dataOffset n : Z) :
  length buf = length data → 0 ≤ dataOffset → 0 ≤ n → dataOffset + n ≤ len data →
  take (Z.to_nat (dataOffset + n))
    (take (Z.to_nat dataOffset) buf ++ slice data dataOffset (dataOffset + n)
       ++ drop (Z.to_nat (dataOffset + n)) buf)
    ++ drop (Z.to_nat (dataOffset + n)) data
  = take (Z.to_nat dataOffset) buf ++ drop (Z.to_nat dataOffset) data.
Proof.
  intros Hlen Hdo Hn Hend. unfold len in *.
  rewrite app_assoc. rewrite take_app_length'.
  - rewrite <- app_assoc. f_equal. unfold slice.
    replace (Z.to_nat (dataOffset + n)) with (Z.to_nat dataOffset + Z.to_nat n)%nat by lia.
    replace (dataOffset + n - dataOffset) with n by lia.
    rewrite <- drop_drop. apply take_drop.
  - rewrite length_app, length_take, length_slice by (unfold len; lia). lia.
Qed.

(** The bytes of [data] from [dataOffset] on, written over the files that
    are left, are read back into the buffer. *)
Lemma multiFile_loop_roundtrip (fileInfos : list File.t) :
  ∀ (offset : Z) (data buf : list byte) (currentOffset dataOffset : Z) (d : disk.Manager.t),
    Forall (λ fileInfo, 0 < File.Length fileInfo) fileInfos →
    NoDup (disk.fullPath d <$> fileInfos) →
    Forall (λ fileInfo, disk.fullPath d fileInfo ∈ disk.Manager.files d) fileInfos →
    0 ≤ offset → 0 ≤ currentOffset ≤ offset + dataOffset →
    0 ≤ dataOffset ≤ len data →
    (0 < dataOffset → offset + dataOffset = currentOffset) →
    offset + len data ≤ currentOffset + streamLength fileInfos →
    currentOffset + streamLength fileInfos < 2 ^ 63 →
    length buf = length data →
    ∃ d',
      disk.writeMultiFile_loop fileInfos offset data currentOffset dataOffset d
      = (d', None) ∧
      disk.readMultiFile_loop fileInfos offset buf currentOffset dataOffset d'
      = (take (Z.to_nat dataOffset) buf ++ drop (Z.to_nat dataOffset) data, None).
Proof.
  induction fileInfos as [|fileInfo rest IH];
    intros offset data buf currentOffset dataOffset d
           Hlens Hnodup Hopen Hoff Hcur Hdo Hpos Hfit Hmax Hbuf.
  - exists d. split; [done|]. cbn in *. f_equal.
    rewrite (drop_ge data) by (unfold len in *; lia).
    rewrite take_ge by (unfold len in *; lia). by rewrite app_nil_r.
  - rewrite streamLength_cons in *.
    apply Forall_cons in Hlens as [Hlen Hlens].
    apply Forall_cons in Hopen as [Hopen1 Hopen].
    rewrite fmap_cons in Hnodup. apply NoDup_cons in Hnodup as [Hfresh Hnodup].
    pose proof (streamLength_nonneg rest) as Hrest.
    assert (0 ≤ streamLength rest) as Hrest'.
    { apply Hrest. eapply Forall_impl; [exact Hlens|]. cbn. lia. }
    assert (len buf = len data) as Hbuf' by (unfold len; lia).
    rewrite writeMultiFile_loop_cons by lia. cbv zeta.
    case_decide as Hskip.
    { destruct (IH offset data buf (currentOffset + File.Length fileInfo) dataOffset d)
        as (d' & Hw & Hr); try done; try lia.
      exists d'. split; [done|].
      rewrite readMultiFile_loop_cons by lia. cbv zeta.
      by rewrite decide_True by done. }
    set (start := offset + dataOffset - currentOffset).
    set (n := Z.min (len data - dataOffset) (File.Length fileInfo - start)).
    case_decide as Hn.
    { exists d. split; [done|].
      rewrite readMultiFile_loop_cons by lia. cbv zeta.
      rewrite decide_False by done. rewrite Hbuf'. fold start. fold n.
      rewrite decide_True by done. f_equal.
      rewrite (drop_ge data) by (unfold len in *; lia).
      rewrite take_ge by (unfold len in *; lia). by rewrite app_nil_r. }
    rewrite decide_True by done.
    set (path := disk.fullPath d fileInfo) in *.
    set (writeData := slice data dataOffset (dataOffset + n)).
    set (d1 := disk.Manager.with_fs _ d).
    assert (length (slice buf dataOffset (dataOffset + n)) = length writeData) as Hchunk.
    { unfold writeData. rewrite !length_slice by lia. done. }
    assert (∀ d', disk.Manager.torrent d' = disk.Manager.torrent d →
                  disk.Manager.downloadDir d' = disk.Manager.downloadDir d →
                  disk.Manager.files d' = disk.Manager.files d →
                  disk.Manager.fs d' !! path = disk.Manager.fs d1 !! path →
                  disk.readMultiFile_loop (fileInfo :: rest) offset buf
                    currentOffset dataOffset d'
                  = let buf1 :=
                      take (Z.to_nat dataOffset) buf ++ writeData
                        ++ drop (Z.to_nat (dataOffset + n)) buf in
                    if decide (dataOffset + n >= len data) then (buf1, None)
                    else disk.readMultiFile_loop rest offset buf1
                           (currentOffset + File.Length fileInfo) (dataOffset + n) d')
      as Hread.
    { intros d' Ht Hd Hf Hfs.
      rewrite readMultiFile_loop_cons by lia. cbv zeta.
      rewrite decide_False by done. rewrite Hbuf'. fold start. fold n.
      rewrite decide_False by done.
      rewrite (fullPath_same d d') by done. fold path.
      rewrite Hf, decide_True by done.
      rewrite Hfs. unfold d1. cbn [disk.Manager.fs disk.Manager.with_fs].
      rewrite lookup_insert_eq. cbn [from_option id].
      rewrite readAt_writeAt by (done || lia).
      assert (len (take (Z.to_nat dataOffset) buf ++ writeData
                     ++ drop (Z.to_nat (dataOffset + n)) buf) = len data) as ->; [|done].
      unfold len in *. rewrite !length_app, length_take, length_drop.
      unfold writeData. rewrite length_slice by (unfold len; lia). lia. }
    destruct (decide (dataOffset + n >= len data)) as [Hdone|Hdone].
    { exists d1. split; [done|].
      rewrite Hread by done. cbv zeta. f_equal.
      apply readData_done; try done; lia. }
    destruct (IH offset data
                (take (Z.to_nat dataOffset) buf ++ writeData
                   ++ drop (Z.to_nat (dataOffset + n)) buf)
                (currentOffset + File.Length fileInfo) (dataOffset + n) d1)
      as (d' & Hw & Hr); try done; try lia.
    { unfold len in *. rewrite !length_app, length_take, length_drop.
      unfold writeData. rewrite length_slice by (unfold len; lia). lia. }
    exists d'. split; [done|].
    apply writeMultiFile_loop_frame in Hw as (Ht & Hd & Hf & Hfs).
    rewrite Hread; try done.
    + cbv zeta. rewrite Hr. f_equal.
      apply readData_more; try done; lia.
    + by apply Hfs.
Qed.

End disk_loops.

Section disk_piece.
Context `{FilePath}.
Import torrent.

(** C5, for manifests whose files are distinct and not empty.  The files
    of the torrent are open, the paths of the manifest are pairwise distinct
    once joined to the download directory, every file of the manifest has a
    positive length, the lengths are within [int64] and the bytes of the
    piece [i] lie within the total length.  Then [WritePiece(i, data)], for
    [data] of the size of the piece, returns no error, and [ReadPiece(i)]
    after it returns [data]; the piece may lie in one file or go over any
    number of files of the manifest. *)
Theorem C5_write_then_read_returns_piece
    (d : disk.Manager.t) (i : Z) (data : list byte) :
  Forall (λ path, path ∈ disk.Manager.files d) (disk.paths d) →
  NoDup (disk.paths d) →
  Forall (λ fileInfo, 0 < File.Length fileInfo)
    (Info.Files (Torrent.Info (disk.Manager.torrent d))) →
  streamLength (Info.Files (Torrent.Info (disk.Manager.torrent d))) < 2 ^ 63 →
  TotalLength (disk.Manager.torrent d) < 2 ^ 63 →
  0 < Info.PieceLength (Torrent.Info (disk.Manager.torrent d)) →
  0 ≤ i < NumPieces (disk.Manager.torrent d) →
  len data = PieceSize i (disk.Manager.torrent d) →
  i * Info.PieceLength (Torrent.Info (disk.Manager.torrent d)) + len data
    ≤ TotalLength (disk.Manager.torrent d) →
  ∃ d', disk.WritePiece i data d = (d', None) ∧ disk.ReadPiece i d' = Ok data.
Proof.
  intros Hopen Hnodup Hlens Hstream Htotal Hpl Hi Hsize Hfit.
  set (t := disk.Manager.torrent d) in *.
  set (pieceLength := Info.PieceLength (Torrent.Info t)) in *.
  assert (0 ≤ i * pieceLength) as Hoff by nia.
  assert (0 ≤ len data) as Hdata by (unfold len; lia).
  assert (length (make (PieceSize i t)) = length data) as Hbuf.
  { rewrite length_make, <- Hsize. unfold len. lia. }
  unfold disk.WritePiece, disk.paths in *. fold t in Hopen, Hnodup |- *.
  change (Info.PieceLength (disk.info d)) with pieceLength.
  rewrite (int64_id (i * pieceLength)) by lia.
  destruct (IsSingleFile t) eqn:Hsingle.
  - rewrite Forall_singleton in Hopen.
    rewrite decide_True by done. rewrite decide_False by lia.
    eexists. split; [reflexivity|].
    match goal with |- disk.ReadPiece i ?x = _ => set (d1 := x) end.
    unfold disk.ReadPiece.
    change (disk.Manager.torrent d1) with t.
    change (disk.info d1) with (disk.info d).
    change (disk.filePath d1) with (disk.filePath d).
    change (disk.Manager.files d1) with (disk.Manager.files d).
    change (Info.PieceLength (disk.info d)) with pieceLength.
    rewrite Hsingle, (int64_id (i * pieceLength)) by lia.
    rewrite decide_True by done. rewrite decide_False by lia.
    unfold d1. cbn [disk.Manager.fs disk.Manager.with_fs].
    rewrite lookup_insert_eq. cbn [from_option id].
    by rewrite readAt_writeAt.
  - assert (TotalLength t = streamLength (Info.Files (Torrent.Info t))) as Htl.
    { unfold TotalLength. rewrite Hsingle.
      rewrite TotalLength_streamLength; [lia| |lia|lia].
      eapply Forall_impl; [exact Hlens|]. cbn. lia. }
    destruct (multiFile_loop_roundtrip (Info.Files (Torrent.Info t))
                (i * pieceLength) data (make (PieceSize i t)) 0 0 d)
      as (d' & Hw & Hr); try done; try lia.
    { by apply Forall_fmap in Hopen. }
    exists d'. split; [exact Hw|].
    apply writeMultiFile_loop_frame in Hw as (Ht & _).
    unfold disk.ReadPiece, disk.readMultiFile, disk.info. rewrite Ht. fold t.
    rewrite Hsingle. change (Info.PieceLength (Torrent.Info t)) with pieceLength.
    rewrite (int64_id (i * pieceLength)) by lia.
    rewrite Hr. cbn. done.
Qed.

(** [Initialize] opens the files of the manifest. *)
Lemma createFile_opens (path : list byte) (size : Z) (d d' : disk.Manager.t) :
  disk.createFile path size d = (d', None) →
  disk.Manager.torrent d' = disk.Manager.torrent d ∧
  disk.Manager.downloadDir d' = disk.Manager.downloadDir d ∧
  disk.Manager.files d' = {[path]} ∪ disk.Manager.files d.
Proof.
  unfold disk.createFile. case_decide; [done|]. by intros [= <-].
Qed.

Lemma Initialize_files_opens (fileInfos : list File.t) (d d' : disk.Manager.t) :
  disk.Initialize_files fileInfos d = (d', None) →
  disk.Manager.torrent d' = disk.Manager.torrent d ∧
  disk.Manager.downloadDir d' = disk.Manager.downloadDir d ∧
  disk.Manager.files d ⊆ disk.Manager.files d' ∧
  Forall (λ fileInfo, disk.fullPath d fileInfo ∈ disk.Manager.files d') fileInfos.
Proof.
  revert d. induction fileInfos as [|fileInfo rest IH]; intros d Hinit.
  - injection Hinit as <-. done.
  - cbn [disk.Initialize_files] in Hinit.
    destruct (disk.createFile _ _ d) as [d1 [err|]] eqn:Hcreate; [done|].
    apply createFile_opens in Hcreate as (Ht1 & Hd1 & Hf1).
    apply IH in Hinit as (Ht & Hd & Hf & Hall).
    split_and!; [congruence|congruence| |].
    { etrans; [|exact Hf]. rewrite Hf1. apply union_subseteq_r. }
    constructor.
    { apply Hf. rewrite Hf1. apply elem_of_union_l. by apply elem_of_singleton. }
    eapply Forall_impl; [exact Hall|]. intros f Hin. cbn in Hin.
    by rewrite <- (fullPath_same d d1).
Qed.

Lemma Initialize_opens (d d' : disk.Manager.t) :
  disk.Initialize d = (d', None) →
  Forall (λ path, path ∈ disk.Manager.files d') (disk.paths d').
Proof.
  unfold disk.Initialize, disk.paths. intros Hinit.
  destruct (IsSingleFile (disk.Manager.torrent d)) eqn:Hsingle.
  - apply createFile_opens in Hinit as (Ht & Hd & Hf).
    rewrite Ht, Hsingle. apply Forall_singleton.
    unfold disk.filePath, disk.info. rewrite Ht, Hd, Hf.
    apply elem_of_union_l. by apply elem_of_singleton.
  - apply Initialize_files_opens in Hinit as (Ht & Hd & _ & Hall).
    rewrite Ht, Hsingle. unfold disk.info. rewrite Ht.
    apply Forall_fmap. eapply Forall_impl; [exact Hall|]. intros f Hin. cbn.
    by rewrite (fullPath_same d d').
Qed.

End disk_piece.

Section disk_piece_example.
#[local] Existing Instances fixture.toySha1 fixture.toyJoin.

(** C5 at the piece 0 of [torrent3], which covers the file [a] and the
    first byte of the file [b]. *)
Lemma C5_write_then_read_witness :
  ∃ d', disk.WritePiece 0 [1; 2; 3; 4] fixture.disk3 = (d', None) ∧
        disk.ReadPiece 0 d' = Ok [1; 2; 3; 4].
Proof.
  apply (@C5_write_then_read_returns_piece fixture.toyJoin fixture.disk3 0 [1; 2; 3; 4]).
  - apply (bool_decide_unpack _). vm_compute. exact I.
  - apply (bool_decide_unpack _). vm_compute. exact I.
  - apply (bool_decide_unpack _). vm_compute. exact I.
  - vm_compute. reflexivity.
  - vm_compute. reflexivity.
  - vm_compute. reflexivity.
  - vm_compute. split; [discriminate|reflexivity].
  - vm_compute. reflexivity.
  - vm_compute. discriminate.
Defined.

(** C5 fails on a manifest that names a file twice.  [torrentTwice] passes
    [Validate], its files are open after [Initialize] and the 8 bytes of the
    piece 0 are within the total length; [WritePiece] returns no error, but
    the two entries of the manifest are one file of 4 bytes, the second
    write goes over the first, and [ReadPiece] returns the last 4 bytes
    twice. *)
Lemma C5_counterexample :
  torrent.Validate fixture.torrentTwice = None ∧
  disk.Initialize (disk.NewManager fixture.torrentTwice (bytes "out") ∅)
    = (fixture.diskTwice, None) ∧
  torrent.PieceSize 0 fixture.torrentTwice = len [1; 2; 3; 4; 5; 6; 7; 8] ∧
  torrent.TotalLength fixture.torrentTwice = 8 ∧
  ∃ d', disk.WritePiece 0 [1; 2; 3; 4; 5; 6; 7; 8] fixture.diskTwice = (d', None) ∧
        disk.ReadPiece 0 d' = Ok [5; 6; 7; 8; 5; 6; 7; 8].
Proof.
  split_and!; [vm_compute; reflexivity..|].
  eexists. split; [vm_compute; reflexivity|]. vm_compute. reflexivity.
Qed.

End disk_piece_example.

Section wire_messages.
Import peer.

Lemma len_PutUint32 (v : Z) : len (PutUint32 v) = 4.
Proof. done. Qed.

(** A value of 32 bits is read back from its four bytes. *)
Lemma Uint32_PutUint32 (v : Z) (rest : list byte) :
  0 ≤ v < 2 ^ 32 → Uint32 (PutUint32 v ++ rest) = v.
Proof.
  intros Hv. unfold PutUint32, Uint32. cbn [app].
  change 256 with (2 ^ 8).
  apply Z.bits_inj'. intros n Hn.
  rewrite !Z.lor_spec, !Z.shiftl_spec by lia.
  destruct (decide (n < 8)); [|destruct (decide (n < 16)); [|destruct (decide (n < 24));
    [|destruct (decide (n < 32))]]].
  - rewrite (Z.testbit_neg_r _ (n - 24)), (Z.testbit_neg_r _ (n - 16)),
      (Z.testbit_neg_r _ (n - 8)) by lia.
    rewrite Z.mod_pow2_bits_low by lia. done.
  - rewrite (Z.testbit_neg_r _ (n - 24)), (Z.testbit_neg_r _ (n - 16)) by lia.
    rewrite Z.mod_pow2_bits_low, (Z.mod_pow2_bits_high v) by lia.
    rewrite Z.shiftr_spec by lia. rewrite orb_false_r. cbn. f_equal. lia.
  - rewrite (Z.testbit_neg_r _ (n - 24)) by lia.
    rewrite (Z.mod_pow2_bits_high _ _ (n - 8)), (Z.mod_pow2_bits_high v) by lia.
    rewrite Z.mod_pow2_bits_low by lia.
    rewrite Z.shiftr_spec by lia. rewrite !orb_false_r. cbn. f_equal. lia.
  - rewrite (Z.mod_pow2_bits_high _ _ (n - 8)), (Z.mod_pow2_bits_high _ _ (n - 16)),
      (Z.mod_pow2_bits_high v) by lia.
    rewrite Z.mod_pow2_bits_low by lia.
    rewrite Z.shiftr_spec by lia. rewrite !orb_false_r. f_equal. lia.
  - rewrite (Z.mod_pow2_bits_high _ _ (n - 8)), (Z.mod_pow2_bits_high _ _ (n - 16)),
      (Z.mod_pow2_bits_high _ _ (n - 24)), (Z.mod_pow2_bits_high v) by lia.
    cbn. symmetry.
    destruct (decide (v = 0)) as [->|]; [apply Z.bits_0|].
    assert (2 ^ 32 ≤ 2 ^ n) by (apply Z.pow_le_mono_r; lia).
    apply Z.bits_above_log2; [lia|].
    apply Z.log2_lt_pow2; lia.
Qed.

Lemma Uint32_PutUint32_nil (v : Z) : 0 ≤ v < 2 ^ 32 → Uint32 (PutUint32 v) = v.
Proof. intros Hv. rewrite <- (app_nil_r (PutUint32 v)). by apply Uint32_PutUint32. Qed.

Lemma ReadFull_app (n : Z) (b rest : list byte) :
  len b = n → ReadFull n (b ++ rest) = Ok (b, rest).
Proof.
  intros <-. unfold ReadFull, len. rewrite decide_False by (rewrite length_app; lia).
  by rewrite Nat2Z.id, take_app_length, drop_app_length.
Qed.

(** X1.  A message whose payload is shorter than [MaxMessageLength], or the
    keep-alive, is written by [Serialize] in [MessageLength] bytes, and
    [ReadMessage] reads it back from a stream that starts with these bytes
    and leaves the rest of the stream. *)
Theorem X1_serialize_read_message (m : option Message.t) (rest : list byte) :
  (∀ m', m = Some m' → len (Message.Payload m') < MaxMessageLength) →
  ∃ data,
    Serialize m = Returns data ∧
    len data = MessageLength m ∧
    ReadMessage (data ++ rest) = Ok (m, rest).
Proof.
  intros Hlen. destruct m as [[id payload]|].
  - specialize (Hlen _ eq_refl). cbn [Message.Payload] in Hlen.
    unfold MaxMessageLength in Hlen.
    assert (0 ≤ len payload) as Hpos by (unfold len; lia).
    unfold Serialize, MessageLength. cbn [Message.Payload Message.ID].
    assert (uint32 (1 + len payload) = 1 + len payload) as ->.
    { unfold uint32. apply Z.mod_small. lia. }
    assert (uint32 (4 + (1 + len payload)) = 5 + len payload) as ->.
    { unfold uint32. rewrite Z.mod_small; lia. }
    rewrite decide_False by lia.
    replace (5 + len payload - 5) with (len payload) by lia.
    rewrite Z.sub_diag. unfold len at 2. rewrite Nat2Z.id, firstn_all.
    change (make 0) with (@nil byte). rewrite app_nil_r.
    eexists. split; [reflexivity|]. split.
    { unfold len, PutUint32. rewrite !length_app. cbn [length]. unfold byte. lia. }
    unfold ReadMessage. rewrite <- !app_assoc.
    rewrite ReadFull_app by done. cbn [mbind result_bind].
    rewrite Uint32_PutUint32_nil by lia.
    rewrite decide_False by lia. rewrite decide_False by (unfold MaxMessageLength; lia).
    rewrite (app_assoc [id]). rewrite ReadFull_app; [done|].
    unfold len. rewrite length_app. cbn [length]. unfold byte. lia.
  - exists [0; 0; 0; 0]. split; [done|]. split; [done|].
    unfold ReadMessage. cbn [app]. change (0 :: 0 :: 0 :: 0 :: rest) with ([0; 0; 0; 0] ++ rest).
    by rewrite ReadFull_app.
Qed.

Lemma X1_serialize_read_message_witness :
  ∃ data,
    Serialize (Some (NewRequestMessage 1 2 3)) = Returns data ∧
    len data = MessageLength (Some (NewRequestMessage 1 2 3)) ∧
    ReadMessage (data ++ [9]) = Ok (Some (NewRequestMessage 1 2 3), [9]).
Proof.
  apply (X1_serialize_read_message (Some (NewRequestMessage 1 2 3)) [9]).
  intros m' [= <-]. vm_compute. reflexivity.
Defined.

(** X2.  [ReadMessage] refuses what [Serialize] writes for a payload of
    [MaxMessageLength] bytes or more. *)
Theorem X2_read_message_too_large (m : Message.t) (rest : list byte) :
  MaxMessageLength ≤ len (Message.Payload m) < 2 ^ 32 - 5 →
  ∃ data,
    Serialize (Some m) = Returns data ∧
    ReadMessage (data ++ rest) = Err "message too large".
Proof.
  destruct m as [id payload]. cbn [Message.Payload]. unfold MaxMessageLength. intros Hlen.
  unfold Serialize. cbn [Message.Payload Message.ID].
  assert (uint32 (1 + len payload) = 1 + len payload) as ->.
  { unfold uint32. apply Z.mod_small. lia. }
  assert (uint32 (4 + (1 + len payload)) = 5 + len payload) as ->.
  { unfold uint32. rewrite Z.mod_small; lia. }
  rewrite decide_False by lia.
  eexists. split; [reflexivity|].
  unfold ReadMessage. rewrite <- !app_assoc.
  rewrite ReadFull_app by done. cbn [mbind result_bind].
  rewrite Uint32_PutUint32_nil by lia.
  rewrite decide_False by lia. by rewrite decide_True by (unfold MaxMessageLength; lia).
Qed.

Lemma X2_read_message_too_large_witness :
  ∃ data,
    Serialize (Some (Message.mk MsgPiece (make MaxMessageLength))) = Returns data ∧
    ReadMessage (data ++ []) = Err "message too large".
Proof.
  apply (X2_read_message_too_large (Message.mk MsgPiece (make MaxMessageLength)) []).
  vm_compute. split; [discriminate|reflexivity].
Defined.

(** X3.  The parsers of the messages with three or one [uint32] fields give
    back the arguments of the constructors. *)
Theorem X3_parse_fixed_messages (index begin length : Z) :
  0 ≤ index < 2 ^ 32 → 0 ≤ begin < 2 ^ 32 → 0 ≤ length < 2 ^ 32 →
  ParseRequest (NewRequestMessage index begin length) = Ok (index, begin, length) ∧
  ParseCancel (NewCancelMessage index begin length) = Ok (index, begin, length) ∧
  ParseHave (NewHaveMessage index) = Ok index.
Proof.
  intros Hi Hb Hl.
  pose proof (Uint32_PutUint32_nil index Hi) as Ei.
  pose proof (Uint32_PutUint32_nil begin Hb) as Eb.
  pose proof (Uint32_PutUint32_nil length Hl) as El.
  unfold ParseRequest, ParseCancel, ParseHave, NewRequestMessage, NewCancelMessage,
    NewHaveMessage, NewMessage. cbn [Message.ID Message.Payload].
  rewrite !decide_False by (intros Hne; by apply Hne).
  change (slice (PutUint32 index ++ PutUint32 begin ++ PutUint32 length) 0 4)
    with (PutUint32 index).
  change (slice (PutUint32 index ++ PutUint32 begin ++ PutUint32 length) 4 8)
    with (PutUint32 begin).
  change (slice (PutUint32 index ++ PutUint32 begin ++ PutUint32 length) 8 12)
    with (PutUint32 length).
  by rewrite Ei, Eb, El.
Qed.

Lemma X3_parse_fixed_messages_witness :
  ParseRequest (NewRequestMessage 7 16384 16384) = Ok (7, 16384, 16384) ∧
  ParseCancel (NewCancelMessage 7 16384 16384) = Ok (7, 16384, 16384) ∧
  ParseHave (NewHaveMessage 7) = Ok 7.
Proof. apply (X3_parse_fixed_messages 7 16384 16384); lia. Defined.

(** X4.  [ParsePiece] gives back the index, the offset and the block of
    [NewPieceMessage], whatever the length of the block. *)
Theorem X4_parse_piece_message (index begin : Z) (block : list byte) :
  0 ≤ index < 2 ^ 32 → 0 ≤ begin < 2 ^ 32 →
  ParsePiece (NewPieceMessage index begin block) = Ok (index, begin, block).
Proof.
  intros Hi Hb.
  pose proof (Uint32_PutUint32_nil index Hi) as Ei.
  pose proof (Uint32_PutUint32_nil begin Hb) as Eb.
  unfold ParsePiece, NewPieceMessage, NewMessage. cbn [Message.ID Message.Payload].
  rewrite decide_False by (intros Hne; by apply Hne).
  rewrite decide_False
    by (unfold len, PutUint32; rewrite !length_app; cbn [length]; lia).
  change (slice (PutUint32 index ++ PutUint32 begin ++ block) 0 4) with (PutUint32 index).
  change (slice (PutUint32 index ++ PutUint32 begin ++ block) 4 8) with (PutUint32 begin).
  change (drop 8 (PutUint32 index ++ PutUint32 begin ++ block)) with block.
  by rewrite Ei, Eb.
Qed.

Lemma X4_parse_piece_message_witness :
  ParsePiece (NewPieceMessage 7 16384 [1; 2; 3]) = Ok (7, 16384, [1; 2; 3]).
Proof. apply (X4_parse_piece_message 7 16384 [1; 2; 3]); lia. Defined.

(** X5.  A message that [IsValid] accepts is parsed without error by the
    parser of its id. *)
Theorem X5_valid_message_parses (m : Message.t) :
  IsValid (Some m) = true →
  (Message.ID m = MsgHave → ∃ index, ParseHave m = Ok index) ∧
  (Message.ID m = MsgBitfield → ParseBitfield m = Ok (Message.Payload m)) ∧
  (Message.ID m = MsgRequest → ∃ r, ParseRequest m = Ok r) ∧
  (Message.ID m = MsgPiece → ∃ r, ParsePiece m = Ok r) ∧
  (Message.ID m = MsgCancel → ∃ r, ParseCancel m = Ok r).
Proof.
  destruct m as [id payload]. unfold IsValid. cbn [Message.ID Message.Payload].
  intros Hvalid.
  unfold ParseHave, ParseBitfield, ParseRequest, ParsePiece, ParseCancel.
  cbn [Message.ID Message.Payload].
  split_and!; intros ->.
  - rewrite decide_False in Hvalid by (unfold MsgHave, MsgChoke, MsgUnchoke, MsgInterested, MsgNotInterested; lia).
    rewrite decide_True in Hvalid by done. apply bool_decide_eq_true in Hvalid.
    rewrite decide_False by tauto. rewrite decide_False by lia. by eexists.
  - by rewrite decide_False by tauto.
  - rewrite !decide_False in Hvalid by (unfold MsgHave, MsgChoke, MsgUnchoke, MsgInterested, MsgNotInterested, MsgRequest, MsgBitfield; lia).
    rewrite decide_True in Hvalid by (by left). apply bool_decide_eq_true in Hvalid.
    rewrite decide_False by tauto. rewrite decide_False by lia. by eexists.
  - rewrite !decide_False in Hvalid by (unfold MsgHave, MsgChoke, MsgUnchoke, MsgInterested, MsgNotInterested, MsgRequest, MsgBitfield, MsgPiece, MsgCancel; lia).
    rewrite decide_True in Hvalid by done. apply bool_decide_eq_true in Hvalid.
    rewrite decide_False by tauto. rewrite decide_False by lia. by eexists.
  - rewrite !decide_False in Hvalid by (unfold MsgHave, MsgChoke, MsgUnchoke, MsgInterested, MsgNotInterested, MsgRequest, MsgBitfield, MsgCancel; lia).
    rewrite decide_True in Hvalid by (by right). apply bool_decide_eq_true in Hvalid.
    rewrite decide_False by tauto. rewrite decide_False by lia. by eexists.
Qed.

Lemma X5_valid_message_parses_witness :
  (Message.ID (NewHaveMessage 7) = MsgHave → ∃ index, ParseHave (NewHaveMessage 7) = Ok index) ∧
  (Message.ID (NewHaveMessage 7) = MsgBitfield →
   ParseBitfield (NewHaveMessage 7) = Ok (Message.Payload (NewHaveMessage 7))) ∧
  (Message.ID (NewHaveMessage 7) = MsgRequest → ∃ r, ParseRequest (NewHaveMessage 7) = Ok r) ∧
  (Message.ID (NewHaveMessage 7) = MsgPiece → ∃ r, ParsePiece (NewHaveMessage 7) = Ok r) ∧
  (Message.ID (NewHaveMessage 7) = MsgCancel → ∃ r, ParseCancel (NewHaveMessage 7) = Ok r).
Proof. apply (X5_valid_message_parses (NewHaveMessage 7)). vm_compute. reflexivity. Defined.

End wire_messages.

Section handshake.
Import peer.

Lemma copied_exact (n : Z) (src : list byte) : len src = n → copied n src = src.
Proof.
  intros <-. unfold copied, len. rewrite Nat2Z.id, firstn_all, Z.sub_diag.
  apply app_nil_r.
Qed.

Lemma len_copied (n : Z) (src : list byte) : 0 ≤ n → len (copied n src) = n.
Proof.
  intros Hn. unfold copied, len. rewrite length_app, length_take, length_make. lia.
Qed.

Lemma slice_app_mid {A} (a b c : list A) (lo hi : Z) :
  len a = lo → len b = hi - lo → slice (a ++ b ++ c) lo hi = b.
Proof.
  intros <- Hb. unfold slice, len in *. rewrite Nat2Z.id, drop_app_length.
  apply take_app_length'. lia.
Qed.

(** X6.  [Serialize] writes 68 bytes for every handshake.  A handshake with
    the protocol identifier and arrays of 8, 20 and 20 bytes is read back by
    [Read] from a stream that starts with its serialization, and the rest of
    the stream is left. *)
Theorem X6_handshake_round_trip (h : Handshake.t) (rest : list byte) :
  Handshake.Pstr h = ProtocolIdentifier →
  len (Handshake.Reserved h) = 8 →
  len (Handshake.InfoHash h) = 20 →
  len (Handshake.PeerID h) = 20 →
  len (Handshake_Serialize h) = HandshakeLength ∧
  Read (Handshake_Serialize h ++ rest) = Ok (h, rest).
Proof.
  destruct h as [pstr reserved infoHash peerID]. cbn [Handshake.Pstr Handshake.Reserved
    Handshake.InfoHash Handshake.PeerID]. intros -> Hr Hi Hp.
  unfold Handshake_Serialize.
  cbn [Handshake.Pstr Handshake.Reserved Handshake.InfoHash Handshake.PeerID].
  rewrite (copied_exact 19) by done. rewrite !copied_exact by done.
  change (uint8 (len ProtocolIdentifier)) with 19.
  split.
  { unfold len in *. cbn [app length]. rewrite !length_app. unfold byte in *.
    change (length ProtocolIdentifier) with 19%nat. unfold HandshakeLength. lia. }
  unfold Read. cbn [app].
  change (19 :: (ProtocolIdentifier ++ reserved ++ infoHash ++ peerID) ++ rest)
    with ([19] ++ (ProtocolIdentifier ++ reserved ++ infoHash ++ peerID) ++ rest).
  rewrite ReadFull_app by done. cbn [mbind result_bind].
  change (default 0 (index [19] 0)) with 19.
  rewrite decide_False by done.
  rewrite ReadFull_app.
  2:{ unfold len in *. rewrite !length_app. unfold byte in *.
      change (length ProtocolIdentifier) with 19%nat. lia. }
  cbn [mbind result_bind].
  assert (∀ l : list byte, slice (ProtocolIdentifier ++ l) 0 19 = ProtocolIdentifier) as Hs0.
  { intros l. unfold slice. by rewrite drop_0, (take_app_length' ProtocolIdentifier). }
  rewrite Hs0. rewrite decide_False by (intros Hne; by apply Hne).
  assert (len ProtocolIdentifier = 19) as Hpl by done.
  rewrite (slice_app_mid ProtocolIdentifier reserved) by (done || lia).
  rewrite (app_assoc ProtocolIdentifier reserved).
  rewrite (slice_app_mid (ProtocolIdentifier ++ reserved) infoHash)
    by (unfold len in *; rewrite ?length_app; lia).
  rewrite (app_assoc (ProtocolIdentifier ++ reserved) infoHash).
  rewrite <- (app_nil_r peerID) at 1.
  rewrite (slice_app_mid ((ProtocolIdentifier ++ reserved) ++ infoHash) peerID [])
    by (unfold len in *; rewrite ?length_app; lia).
  done.
Qed.

Lemma X6_handshake_round_trip_witness :
  len (Handshake_Serialize (NewHandshake (make 20) (replicate 20 1))) = HandshakeLength ∧
  Read (Handshake_Serialize (NewHandshake (make 20) (replicate 20 1)) ++ [7])
  = Ok (NewHandshake (make 20) (replicate 20 1), [7]).
Proof.
  by apply (X6_handshake_round_trip (NewHandshake (make 20) (replicate 20 1)) [7]).
Defined.

(** X7.  [ParseExtensions] after [SetExtensions] gives the extensions that
    were set, whatever the reserved bytes were before. *)
Theorem X7_extensions_round_trip (ext : Extensions.t) (h : Handshake.t) :
  ParseExtensions (SetExtensions ext h) = ext.
Proof. by destruct ext as [[] [] []]. Qed.

Lemma ReadFull_Ok (n : Z) (r b rest : list byte) :
  ReadFull n r = Ok (b, rest) →
  r = b ++ rest ∧ length b = Z.to_nat n ∧ n ≤ len r.
Proof.
  unfold ReadFull. case_decide as Hn; [done|]. intros [= <- <-].
  rewrite take_drop, length_take. unfold len in *. unfold byte in *.
  split_and!; [done|lia|lia].
Qed.

(** X8.  What [Read] accepts is a serialized handshake: the stream is the
    serialization of the handshake that [Read] returns, followed by the
    bytes it leaves, and the handshake has the protocol identifier and
    arrays of 8, 20 and 20 bytes. *)
Theorem X8_handshake_read_is_serialized (r : list byte) (h : Handshake.t)
    (rest : list byte) :
  Read r = Ok (h, rest) →
  r = Handshake_Serialize h ++ rest ∧
  Handshake.Pstr h = ProtocolIdentifier ∧
  len (Handshake.Reserved h) = 8 ∧
  len (Handshake.InfoHash h) = 20 ∧
  len (Handshake.PeerID h) = 20.
Proof.
  unfold Read. destruct (ReadFull 1 r) as [[lengthBuf r1]|] eqn:H1; [|done].
  cbn [mbind result_bind]. case_decide as Hz; [done|].
  destruct (ReadFull _ r1) as [[buf r2]|] eqn:H2; [|done].
  cbn [mbind result_bind]. case_decide as Hp; [done|].
  intros [= <- <-].
  apply ReadFull_Ok in H1 as (-> & Hl1 & _).
  apply ReadFull_Ok in H2 as (-> & Hl2 & _).
  destruct lengthBuf as [|pstrlen [|? ?]]; try done.
  change (default 0 (index [pstrlen] 0)) with pstrlen in *.
  assert (pstrlen = 19) as ->.
  { apply (f_equal length) in Hp. unfold slice in Hp.
    rewrite length_take, length_drop in Hp.
    change (length ProtocolIdentifier) with 19%nat in Hp. lia. }
  change (Z.to_nat (19 + 48)) with 67%nat in Hl2.
  unfold Handshake_Serialize.
  cbn [Handshake.Pstr Handshake.Reserved Handshake.InfoHash Handshake.PeerID].
  assert (len (slice buf 19 (19 + 8)) = 8) as Hr
    by (unfold len; rewrite length_slice; unfold len; lia).
  assert (len (slice buf (19 + 8) (19 + 28)) = 20) as Hi
    by (unfold len; rewrite length_slice; unfold len; lia).
  assert (len (slice buf (19 + 28) (19 + 48)) = 20) as Hq
    by (unfold len; rewrite length_slice; unfold len; lia).
  split_and!; try done.
  rewrite (copied_exact 19) by (by rewrite Hp).
  rewrite !copied_exact by done.
  replace (uint8 (len (slice buf 0 19))) with 19 by (by rewrite Hp).
  cbn [app]. f_equal.
  assert (buf = slice buf 0 19 ++ slice buf 19 (19 + 8) ++ slice buf (19 + 8) (19 + 28)
                  ++ slice buf (19 + 28) (19 + 48)) as Hbuf.
  { unfold slice.
    change (Z.to_nat (19 - 0)) with 19%nat. change (Z.to_nat 0) with 0%nat.
    change (Z.to_nat (19 + 8 - 19)) with 8%nat. change (Z.to_nat 19) with 19%nat.
    change (Z.to_nat (19 + 28 - (19 + 8))) with 20%nat.
    change (Z.to_nat (19 + 8)) with 27%nat.
    change (Z.to_nat (19 + 48 - (19 + 28))) with 20%nat.
    change (Z.to_nat (19 + 28)) with 47%nat.
    rewrite drop_0.
    rewrite (take_ge (drop 47 buf)) by (rewrite length_drop; lia).
    change 47%nat with (27 + 20)%nat. rewrite <- (drop_drop buf), take_drop.
    change 27%nat with (19 + 8)%nat. rewrite <- (drop_drop buf), take_drop.
    by rewrite take_drop. }
  rewrite Hbuf at 1. by rewrite <- !app_assoc.
Qed.

Lemma X8_handshake_read_is_serialized_witness :
  Handshake_Serialize (NewHandshake (make 20) (replicate 20 1)) ++ [7]
  = Handshake_Serialize (NewHandshake (make 20) (replicate 20 1)) ++ [7] ∧
  Handshake.Pstr (NewHandshake (make 20) (replicate 20 1)) = ProtocolIdentifier ∧
  len (Handshake.Reserved (NewHandshake (make 20) (replicate 20 1))) = 8 ∧
  len (Handshake.InfoHash (NewHandshake (make 20) (replicate 20 1))) = 20 ∧
  len (Handshake.PeerID (NewHandshake (make 20) (replicate 20 1))) = 20.
Proof.
  apply (X8_handshake_read_is_serialized
           (Handshake_Serialize (NewHandshake (make 20) (replicate 20 1)) ++ [7])
           (NewHandshake (make 20) (replicate 20 1)) [7]).
  vm_compute. reflexivity.
Defined.

End handshake.

Section bencode_encoder.
Import bencode.

Lemma stringLess_total (a b : list byte) :
  stringLess a b = false → stringLess b a = false → a = b.
Proof.
  revert b. induction a as [|x a IH]; intros [|y b]; cbn; try done.
  repeat case_decide; try done; try lia.
  intros Hab Hba. f_equal; [lia|by apply IH].
Qed.

(** The order [sort.Slice] is asked for: by key, not descending. *)
Lemma notLess_trans (a b c : list byte) :
  stringLess b a = false → stringLess c b = false → stringLess c a = false.
Proof.
  intros Hba Hcb. destruct (stringLess c a) eqn:Hca; [|done].
  destruct (stringLess a b) eqn:Hab.
  - by rewrite (stringLess_trans c a b) in Hcb.
  - rewrite (stringLess_total a b Hab Hba) in Hca. congruence.
Qed.

Section sort.
Context {A : Type} (less : A → A → bool).
Hypothesis less_asym : ∀ a b, less a b = true → less b a = false.

Lemma rev_reverse (l : list A) : rev l = reverse l.
Proof. unfold reverse. apply rev_alt. Qed.

Lemma sortSlice_insert_Permutation (x : A) (racc : list A) :
  sortSlice_insert less x racc ≡ₚ x :: racc.
Proof.
  induction racc as [|y racc IH]; [done|]. cbn. destruct (less x y); [|done].
  rewrite IH. apply Permutation_swap.
Qed.

Lemma sortSlice_Permutation (l : list A) : sortSlice less l ≡ₚ l.
Proof.
  unfold sortSlice. rewrite rev_reverse, reverse_Permutation.
  assert (∀ racc, foldl (λ racc x, sortSlice_insert less x racc) racc l ≡ₚ l ++ racc)
    as Hfold; [|by rewrite Hfold, app_nil_r].
  induction l as [|x l IH]; intros racc; [done|]. cbn [foldl].
  rewrite IH, sortSlice_insert_Permutation. cbn [app].
  first [apply Permutation_middle | symmetry; apply Permutation_middle].
Qed.

Lemma sortSlice_insert_Sorted (x : A) (racc : list A) :
  Sorted (λ a b, less a b = false) racc →
  Sorted (λ a b, less a b = false) (sortSlice_insert less x racc).
Proof.
  induction 1 as [|y racc Hs IH Hhd]; cbn; [by repeat constructor|].
  destruct (less x y) eqn:Hxy.
  - constructor; [done|].
    destruct Hhd as [|z racc Hyz]; cbn.
    + constructor. by apply less_asym.
    + destruct (less x z); constructor; [done|by apply less_asym].
  - constructor; [by constructor|by constructor].
Qed.

Lemma sortSlice_Sorted (l : list A) : Sorted (λ a b, less b a = false) (sortSlice less l).
Proof.
  unfold sortSlice. rewrite rev_reverse.
  apply (Sorted_reverse (λ a b, less a b = false)).
  assert (∀ racc, Sorted (λ a b, less a b = false) racc →
            Sorted (λ a b, less a b = false)
              (foldl (λ racc x, sortSlice_insert less x racc) racc l)) as Hfold;
    [|apply Hfold; constructor].
  induction l as [|x l IH]; intros racc Hs; [done|]. cbn [foldl].
  by apply IH, sortSlice_insert_Sorted.
Qed.

End sort.

Lemma NoDup_fst_functional {K V} (l : list (K * V)) (k : K) (x1 x2 : V) :
  NoDup (l.*1) → (k, x1) ∈ l → (k, x2) ∈ l → x1 = x2.
Proof.
  induction l as [|[k' x'] l IH]; intros Hnodup Hin1 Hin2.
  - by apply elem_of_nil in Hin1.
  - cbn in Hnodup. apply NoDup_cons in Hnodup as [Hfresh Hnodup].
    assert (∀ x, (k, x) ∈ l → k ∈ l.*1) as Hkey.
    { intros x Hin. apply list_elem_of_fmap. by exists (k, x). }
    apply elem_of_cons in Hin1 as [Heq1|Hin1];
      apply elem_of_cons in Hin2 as [Heq2|Hin2].
    + congruence.
    + injection Heq1 as -> ->. by apply Hkey in Hin2.
    + injection Heq2 as -> ->. by apply Hkey in Hin1.
    + by apply IH.
Qed.

(** X9.  Decoding what the encoder wrote gives the value back: for a
    canonical value the decoder, with the fuel that [Decode] gives it, reads
    the value from its encoding and leaves the bytes that follow; [Decode]
    of an encoded canonical dictionary returns the dictionary. *)
Theorem X9_bencode_round_trip (v : Value) (rest : list byte) :
  canonical v →
  decode (S (length (Encode v ++ rest))) KInterface (Encode v ++ rest) = Ok (v, rest) ∧
  (∀ top, v = Dict top → Decode (Encode v ++ rest) = Ok top).
Proof.
  intros Hc. unfold Encode. split.
  - apply decode_encode; [done|done|]. rewrite length_app. lia.
  - intros top ->. unfold Decode.
    rewrite (decode_encode _ Hc KMap); [done|done|]. rewrite length_app. lia.
Qed.

Lemma X9_bencode_round_trip_witness :
  decode (S (length (Encode (Dict fixture.metainfo1) ++ [7]))) KInterface
    (Encode (Dict fixture.metainfo1) ++ [7]) = Ok (Dict fixture.metainfo1, [7]) ∧
  (∀ top, Dict fixture.metainfo1 = Dict top →
          Decode (Encode (Dict fixture.metainfo1) ++ [7]) = Ok top).
Proof.
  apply (X9_bencode_round_trip (Dict fixture.metainfo1) [7]).
  vm_compute. repeat split; intros; discriminate.
Defined.

(** X10.  [encodeDict] writes every entry of the dictionary once, and in
    an order in which no key is less than the key before it. *)
Theorem X10_encode_dict_sorted (m : list (list byte * Value)) :
  ∃ entries,
    entries ≡ₚ (λ kv, (kv.1, encode kv.2)) <$> m ∧
    Sorted (λ a b, stringLess b.1 a.1 = false) entries ∧
    Encode (Dict m)
    = [ch_d] ++ concat ((λ e, encodeBytes e.1 ++ e.2) <$> entries) ++ [ch_e].
Proof.
  exists (sortSlice (λ a b, stringLess a.1 b.1) ((λ kv, (kv.1, encode kv.2)) <$> m)).
  split_and!.
  - apply sortSlice_Permutation.
  - apply (sortSlice_Sorted (λ a b : list byte * list byte, stringLess a.1 b.1)).
    intros a b. apply stringLess_asym.
  - apply encode_Dict_entries.
Qed.

(** X11.  The encoding of a dictionary does not depend on the order in
    which its entries are listed. *)
Theorem X11_encode_dict_order (m m' : list (list byte * Value)) :
  NoDup (m.*1) → m ≡ₚ m' → Encode (Dict m) = Encode (Dict m').
Proof.
  intros Hnodup Hperm. unfold Encode. rewrite !encode_Dict_entries. do 4 f_equal.
  set (entry := λ kv : list byte * Value, (kv.1, encode kv.2)).
  set (less := λ a b : list byte * list byte, stringLess a.1 b.1).
  assert (Transitive (λ a b : list byte * list byte, stringLess b.1 a.1 = false)).
  { intros a b c. apply notLess_trans. }
  apply (Sorted_unique_strong (λ a b : list byte * list byte, stringLess b.1 a.1 = false)).
  - intros e1 e2 Hin1 Hin2 H12 H21.
    rewrite sortSlice_Permutation in Hin1. rewrite sortSlice_Permutation in Hin2.
    rewrite <- Hperm in Hin2.
    apply list_elem_of_fmap in Hin1 as (kv1 & -> & Hin1).
    apply list_elem_of_fmap in Hin2 as (kv2 & -> & Hin2).
    cbn in H12, H21.
    assert (kv1.1 = kv2.1) as Hkey by (by apply stringLess_total).
    destruct kv1 as [k1 x1], kv2 as [k2 x2]. cbn in Hkey. subst k2.
    assert (x1 = x2) as ->; [|done].
    by apply (NoDup_fst_functional m k1).
  - apply (sortSlice_Sorted less). intros a b. apply stringLess_asym.
  - apply (sortSlice_Sorted less). intros a b. apply stringLess_asym.
  - rewrite !sortSlice_Permutation. by rewrite Hperm.
Qed.

Lemma X11_encode_dict_order_witness :
  Encode (Dict [(bytes "b", Int 1); (bytes "a", Str (bytes "x"))])
  = Encode (Dict [(bytes "a", Str (bytes "x")); (bytes "b", Int 1)]).
Proof.
  apply (X11_encode_dict_order [(bytes "b", Int 1); (bytes "a", Str (bytes "x"))]
           [(bytes "a", Str (bytes "x")); (bytes "b", Int 1)]).
  - apply (bool_decide_unpack _). vm_compute. exact I.
  - apply Permutation_swap.
Defined.



End bencode_encoder.

Section torrent_meta.
Import torrent.

Lemma addUrl_spec (urls tier : list (list byte)) :
  NoDup urls →
  NoDup (foldl (λ urls url, if decide (url ∈ urls) then urls else urls ++ [url]) urls tier) ∧
  ∀ url, url ∈ foldl (λ urls url, if decide (url ∈ urls) then urls else urls ++ [url])
                 urls tier
         ↔ url ∈ urls ∨ url ∈ tier.
Proof.
  revert urls. induction tier as [|u tier IH]; intros urls Hnodup; cbn [foldl].
  - split; [done|]. intros url. rewrite elem_of_nil. tauto.
  - case_decide as Hin.
    + destruct (IH urls Hnodup) as [Hn Hiff]. split; [done|].
      intros url. rewrite Hiff, elem_of_cons. split; [tauto|].
      intros [?|[->|?]]; tauto.
    + destruct (IH (urls ++ [u])) as [Hn Hiff].
      { apply NoDup_app. split_and!; [done| |apply NoDup_singleton].
        intros x Hx ->%list_elem_of_singleton. done. }
      split; [done|]. intros url.
      rewrite Hiff, elem_of_app, list_elem_of_singleton, elem_of_cons. tauto.
Qed.

Lemma addTiers_spec (tiers : list (list (list byte))) (urls : list (list byte)) :
  NoDup urls →
  NoDup (foldl (λ urls tier,
                  foldl (λ urls url, if decide (url ∈ urls) then urls else urls ++ [url])
                        urls tier) urls tiers) ∧
  ∀ url, url ∈ foldl (λ urls tier,
                  foldl (λ urls url, if decide (url ∈ urls) then urls else urls ++ [url])
                        urls tier) urls tiers
         ↔ url ∈ urls ∨ ∃ tier, tier ∈ tiers ∧ url ∈ tier.
Proof.
  revert urls. induction tiers as [|tier tiers IH]; intros urls Hnodup; cbn [foldl].
  - split; [done|]. intros url. split; [tauto|].
    intros [?|(tier & Hin & _)]; [done|]. by apply elem_of_nil in Hin.
  - destruct (addUrl_spec urls tier Hnodup) as [Hn1 H1].
    destruct (IH _ Hn1) as [Hn2 H2]. split; [done|].
    intros url. rewrite H2, H1. split.
    + intros [[?|?]|(tier' & Hin & Hurl)]; [tauto| |].
      * right. exists tier. split; [left|done].
      * right. exists tier'. split; [by right|done].
    + intros [?|(tier' & Hin & Hurl)]; [tauto|].
      apply elem_of_cons in Hin as [->|Hin]; [tauto|].
      right. by exists tier'.
Qed.

(** X13.  [GetAnnounceURLs] lists every URL once: the result has no
    duplicates, and it holds the announce URL, if there is one, and the URLs
    of every tier, and nothing else. *)
Theorem X13_announce_urls_distinct (t : Torrent.t) :
  NoDup (GetAnnounceURLs t) ∧
  ∀ url, url ∈ GetAnnounceURLs t
         ↔ (url = Torrent.Announce t ∧ url ≠ [])
           ∨ ∃ tier, tier ∈ Torrent.AnnounceList t ∧ url ∈ tier.
Proof.
  unfold GetAnnounceURLs.
  set (urls0 := if decide (Torrent.Announce t ≠ []) then [Torrent.Announce t] else []).
  assert (NoDup urls0) as Hn0.
  { unfold urls0. case_decide; [apply NoDup_singleton|constructor]. }
  assert (∀ url, url ∈ urls0 ↔ url = Torrent.Announce t ∧ url ≠ []) as H0.
  { intros url. unfold urls0. case_decide as Ha.
    - rewrite list_elem_of_singleton. split; [by intros ->|tauto].
    - rewrite elem_of_nil. split; [done|]. intros [-> ?]. done. }
  destruct (addTiers_spec (Torrent.AnnounceList t) urls0 Hn0) as [Hn H].
  split; [done|]. intros url. by rewrite H, H0.
Qed.

Lemma parseFile_Some (file : bencode.Value) (f : File.t) :
  parseFile file = Some f → 0 < File.Length f ∧ 0 < len (File.Path f).
Proof.
  unfold parseFile. destruct (asDict (Some file)) as [fileDict|]; [|done].
  cbv zeta. case_decide as Hok; [|done]. intros [= <-].
  cbn [File.Length File.Path]. unfold byte in *. lia.
Qed.

Lemma parseFiles_positive (files : list bencode.Value) :
  Forall (λ f, 0 < File.Length f ∧ 0 < len (File.Path f)) (omap parseFile files).
Proof.
  apply Forall_forall. intros f Hin. apply list_elem_of_omap in Hin as (file & _ & Hf).
  by apply parseFile_Some in Hf.
Qed.

Section parsed.
Context `{Sha1}.

(** X14.  A torrent that [Parse] returns passes [Validate]: its piece
    length is positive, the piece hashes are a whole number of 20-byte
    strings and the name is not empty.  Every file of its manifest has a
    positive length and a path (entries of length 0 are dropped), and a
    torrent without manifest has a positive length. *)
Theorem X14_parsed_torrent_valid (data : list byte) (t : Torrent.t) :
  Parse data = Ok t →
  Validate t = None ∧
  0 < Info.PieceLength (Torrent.Info t) ∧
  len (Info.Pieces (Torrent.Info t)) `rem` 20 = 0 ∧
  Info.Name (Torrent.Info t) ≠ [] ∧
  Forall (λ f, 0 < File.Length f ∧ 0 < len (File.Path f)) (Info.Files (Torrent.Info t)) ∧
  (IsSingleFile t = true → 0 < Info.Length (Torrent.Info t)).
Proof.
  unfold Parse. destruct (bencode.Decode data) as [raw|]; [|done]. cbn [mbind result_bind].
  destruct (asDict _) as [infoDict|]; [|done]. cbv zeta.
  set (lengthFiles := match asInt64 (bencode.mapIndex (bytes "length") infoDict) with
                      | Some length => (length, [])
                      | None => _
                      end).
  assert (Forall (λ f, 0 < File.Length f ∧ 0 < len (File.Path f)) lengthFiles.2) as Hfiles.
  { unfold lengthFiles. destruct (asInt64 _); [constructor|].
    destruct (asList _); [apply parseFiles_positive|constructor]. }
  destruct lengthFiles as [length files]. cbn [snd] in Hfiles.
  destruct (Validate _) eqn:Hvalid; [done|]. intros [= <-].
  split; [done|]. cbn [Torrent.Info Info.PieceLength Info.Pieces Info.Name Info.Files
                        Info.Length].
  unfold Validate in Hvalid.
  cbn [Torrent.Info Info.PieceLength Info.Pieces Info.Name Info.Files Info.Length]
    in Hvalid.
  repeat case_decide; try done.
  split_and!; [lia|lia|done|done|].
  unfold IsSingleFile. cbn [Torrent.Info Info.Files]. intros Hs%bool_decide_eq_true. lia.
Qed.

End parsed.

Section parsed_example.
#[local] Existing Instances fixture.toySha1.

Lemma X14_parsed_torrent_valid_witness :
  Validate fixture.parsed1 = None ∧
  0 < Info.PieceLength (Torrent.Info fixture.parsed1) ∧
  len (Info.Pieces (Torrent.Info fixture.parsed1)) `rem` 20 = 0 ∧
  Info.Name (Torrent.Info fixture.parsed1) ≠ [] ∧
  Forall (λ f, 0 < File.Length f ∧ 0 < len (File.Path f))
    (Info.Files (Torrent.Info fixture.parsed1)) ∧
  (IsSingleFile fixture.parsed1 = true → 0 < Info.Length (Torrent.Info fixture.parsed1)).
Proof.
  apply (@X14_parsed_torrent_valid fixture.toySha1
           (bencode.Encode (bencode.Dict fixture.metainfo1)) fixture.parsed1).
  vm_compute. reflexivity.
Defined.

End parsed_example.

(** X15.  The pieces tile the byte stream of the torrent.  When the number
    of piece hashes is the number of pieces that the total length needs,
    every piece has a size between 1 and the piece length, every piece but
    the last has the piece length, the bytes of the piece [i] lie within the
    total length, and the last piece ends where the stream ends. *)
Theorem X15_pieces_tile_the_stream (t : Torrent.t) (i : Z) :
  0 < Info.PieceLength (Torrent.Info t) →
  (NumPieces t - 1) * Info.PieceLength (Torrent.Info t) < TotalLength t →
  TotalLength t ≤ NumPieces t * Info.PieceLength (Torrent.Info t) →
  0 ≤ i < NumPieces t →
  0 < PieceSize i t ≤ Info.PieceLength (Torrent.Info t) ∧
  (i < NumPieces t - 1 → PieceSize i t = Info.PieceLength (Torrent.Info t)) ∧
  i * Info.PieceLength (Torrent.Info t) + PieceSize i t ≤ TotalLength t ∧
  (i = NumPieces t - 1 →
   i * Info.PieceLength (Torrent.Info t) + PieceSize i t = TotalLength t).
Proof.
  intros Hpl Hlo Hhi Hi. unfold PieceSize.
  set (pieceLength := Info.PieceLength (Torrent.Info t)) in *.
  set (n := NumPieces t) in *. set (total := TotalLength t) in *.
  rewrite decide_False by lia.
  assert (0 ≤ total) as Htotal by nia.
  pose proof (Z.rem_bound_pos total pieceLength Htotal Hpl) as Hr.
  pose proof (Z.quot_rem' total pieceLength) as Hq.
  case_decide as Hlast.
  - split_and!; [lia|lia|done|nia|lia].
  - assert (i = n - 1) as -> by lia.
    case_decide as Hzero.
    + assert (total `quot` pieceLength = n) by nia.
      split_and!; [lia|lia|done|nia|nia].
    + assert (total `quot` pieceLength = n - 1) by nia.
      split_and!; [lia|lia|lia|nia|nia].
Qed.

Lemma X15_pieces_tile_the_stream_witness :
  0 < PieceSize 1 fixture.torrent3 ≤ Info.PieceLength (Torrent.Info fixture.torrent3) ∧
  (1 < NumPieces fixture.torrent3 - 1 →
   PieceSize 1 fixture.torrent3 = Info.PieceLength (Torrent.Info fixture.torrent3)) ∧
  1 * Info.PieceLength (Torrent.Info fixture.torrent3) + PieceSize 1 fixture.torrent3
    ≤ TotalLength fixture.torrent3 ∧
  (1 = NumPieces fixture.torrent3 - 1 →
   1 * Info.PieceLength (Torrent.Info fixture.torrent3) + PieceSize 1 fixture.torrent3
   = TotalLength fixture.torrent3).
Proof.
  apply (X15_pieces_tile_the_stream fixture.torrent3 1).
  - vm_compute. reflexivity.
  - vm_compute. reflexivity.
  - vm_compute. discriminate.
  - vm_compute. split; [discriminate|reflexivity].
Defined.

End torrent_meta.

Section strategy_selection.
Import piece.

(** A piece that a peer can be asked for: it is not verified and the
    bitfield of the peer has it. *)
Lemma RarestFirst_candidates_eligible rf (i : nat) (pieces : list Piece.t) bf c :
  c ∈ RarestFirst_candidates rf i pieces bf →
  ∃ j p, pieceRarity.index c = (i + j)%nat ∧ pieces !! j = Some p ∧
         isVerified p = false ∧ peerHasPiece bf (Z.of_nat (pieceRarity.index c)) = true ∧
         pieceRarity.rarity c = rarityOf rf (pieceRarity.index c).
Proof.
  revert i. induction pieces as [|piece rest IH]; intros i Hin; cbn in Hin.
  - by apply elem_of_nil in Hin.
  - assert (c ∈ RarestFirst_candidates rf (S i) rest bf →
            ∃ j p, pieceRarity.index c = (i + j)%nat ∧ (piece :: rest) !! j = Some p ∧
                   isVerified p = false ∧
                   peerHasPiece bf (Z.of_nat (pieceRarity.index c)) = true ∧
                   pieceRarity.rarity c = rarityOf rf (pieceRarity.index c)) as Htail.
    { intros Hc. apply IH in Hc as (j & p & Hj & Hp & Hrest).
      exists (S j), p. split; [lia|done]. }
    destruct (isVerified piece) eqn:Hv; [by apply Htail|].
    destruct (peerHasPiece bf (Z.of_nat i)) eqn:Hh; cbn in Hin; [|by apply Htail].
    apply elem_of_cons in Hin as [->|Hin]; [|by apply Htail].
    exists 0%nat, piece. cbn. rewrite Nat.add_0_r. done.
Qed.

Lemma Priority_candidates_eligible priorities (i : nat) (pieces : list Piece.t) bf c :
  c ∈ Priority_candidates priorities i pieces bf →
  ∃ j p, c.1 = (i + j)%nat ∧ pieces !! j = Some p ∧
         isVerified p = false ∧ peerHasPiece bf (Z.of_nat c.1) = true.
Proof.
  revert i. induction pieces as [|piece rest IH]; intros i Hin; cbn in Hin.
  - by apply elem_of_nil in Hin.
  - assert (c ∈ Priority_candidates priorities (S i) rest bf →
            ∃ j p, c.1 = (i + j)%nat ∧ (piece :: rest) !! j = Some p ∧
                   isVerified p = false ∧ peerHasPiece bf (Z.of_nat c.1) = true) as Htail.
    { intros Hc. apply IH in Hc as (j & p & Hj & Hp & Hrest).
      exists (S j), p. split; [lia|done]. }
    destruct (isVerified piece) eqn:Hv; [by apply Htail|].
    destruct (peerHasPiece bf (Z.of_nat i)) eqn:Hh; cbn in Hin; [|by apply Htail].
    apply elem_of_cons in Hin as [->|Hin]; [|by apply Htail].
    exists 0%nat, piece. cbn. rewrite Nat.add_0_r. done.
Qed.

Lemma sortSlice_head {A} (less : A → A → bool) (l : list A) (c : A) (rest : list A) :
  sortSlice less l = c :: rest → c ∈ l.
Proof.
  intros Hs. rewrite <- (sortSlice_Permutation less l), Hs. left.
Qed.

Lemma Sequential_eligible (pieces : list Piece.t) bf (k : nat) :
  Sequential_SelectPiece 0 pieces bf = Some k →
  ∃ p, pieces !! k = Some p ∧ isVerified p = false ∧
       peerHasPiece bf (Z.of_nat k) = true.
Proof.
  intros (j & p & -> & Hp & Hv & Hh & _)%Sequential_SelectPiece_Some.
  by exists p.
Qed.

Lemma RarestFirst_eligible rf (pieces : list Piece.t) bf (k : nat) :
  RarestFirst_SelectPiece rf pieces bf = Some k →
  ∃ p, pieces !! k = Some p ∧ isVerified p = false ∧
       peerHasPiece bf (Z.of_nat k) = true.
Proof.
  unfold RarestFirst_SelectPiece.
  destruct (sortSlice _ _) as [|c rest] eqn:Hs; [done|]. intros [= <-].
  apply sortSlice_head, RarestFirst_candidates_eligible in Hs
    as (j & p & Hj & Hp & Hv & Hh & _).
  cbn in Hj. rewrite Hj in *. by exists p.
Qed.

(** X16.  Whatever the strategy, [SelectPiece] returns a piece of the
    slice that is not verified and that the bitfield of the peer has. *)
Theorem X16_selected_piece_is_eligible (s : SelectionStrategy)
    (pieces : list Piece.t) (peerBitfield : list byte) (k : nat) :
  SelectPiece s pieces peerBitfield = Some k →
  ∃ p, pieces !! k = Some p ∧ isVerified p = false ∧
       peerHasPiece peerBitfield (Z.of_nat k) = true.
Proof.
  revert k. induction s as [|rf|threshold base IH|st|priorities base IH]; intros k;
    cbn [SelectPiece].
  - apply Sequential_eligible.
  - apply RarestFirst_eligible.
  - unfold EndGame_SelectPiece. case_decide; [|apply IH].
    rewrite EndGame_scan_Sequential. apply Sequential_eligible.
  - unfold Smart_SelectPiece, EndGame_SelectPiece. cbv zeta.
    intros Hsel.
    repeat case_decide;
      repeat match type of Hsel with
             | context [match Sequential_SelectPiece 0 pieces peerBitfield with _ => _ end] =>
                 destruct (Sequential_SelectPiece 0 pieces peerBitfield) as [k'|] eqn:Hseq;
                 [injection Hsel as ->; by apply Sequential_eligible|]
             end;
      rewrite ?EndGame_scan_Sequential in Hsel;
      first [by apply Sequential_eligible in Hsel
            |by apply RarestFirst_eligible in Hsel].
  - destruct (sortSlice _ _) as [|c rest] eqn:Hs; [done|].
    case_decide; [apply IH|]. intros [= <-].
    apply sortSlice_head, Priority_candidates_eligible in Hs
      as (j & p & Hj & Hp & Hv & Hh).
    cbn in Hj. rewrite Hj in *. by exists p.
Qed.

Lemma X16_selected_piece_is_eligible_witness :
  ∃ p, fixture.pieces10 !! 7%nat = Some p ∧ isVerified p = false ∧
       peerHasPiece fixture.peerBitfield10 (Z.of_nat 7) = true.
Proof.
  apply (X16_selected_piece_is_eligible
           (PriorityStrategy {[ 7 := 3 ]} SequentialStrategy)
           fixture.pieces10 fixture.peerBitfield10 7).
  vm_compute. reflexivity.
Defined.

Lemma RarestFirst_candidates_complete rf (i j : nat) (pieces : list Piece.t) bf p :
  pieces !! j = Some p → isVerified p = false →
  peerHasPiece bf (Z.of_nat (i + j)) = true →
  pieceRarity.mk (i + j) (rarityOf rf (i + j)) ∈ RarestFirst_candidates rf i pieces bf.
Proof.
  revert i j. induction pieces as [|piece rest IH]; intros i j Hp Hv Hh; [done|].
  cbn [RarestFirst_candidates]. destruct j as [|j].
  - injection Hp as ->. rewrite Nat.add_0_r in *. rewrite Hv, Hh. cbn. left.
  - cbn in Hp. replace (i + S j)%nat with (S i + j)%nat in * by lia.
    pose proof (IH (S i) j Hp Hv Hh) as Hin.
    destruct (isVerified piece); [done|].
    destruct (negb _); [done|by right].
Qed.

Lemma Priority_candidates_complete priorities (i j : nat) (pieces : list Piece.t) bf p :
  pieces !! j = Some p → isVerified p = false →
  peerHasPiece bf (Z.of_nat (i + j)) = true →
  Priority_candidates priorities i pieces bf ≠ [].
Proof.
  revert i j. induction pieces as [|piece rest IH]; intros i j Hp Hv Hh; [done|].
  cbn [Priority_candidates]. destruct j as [|j].
  - injection Hp as ->. rewrite Nat.add_0_r in *. by rewrite Hv, Hh.
  - cbn in Hp. replace (i + S j)%nat with (S i + j)%nat in * by lia.
    pose proof (IH (S i) j Hp Hv Hh) as Hin.
    destruct (isVerified piece); [done|].
    by destruct (negb _).
Qed.

Lemma Sequential_complete (i j : nat) (pieces : list Piece.t) bf p :
  pieces !! j = Some p → isVerified p = false →
  peerHasPiece bf (Z.of_nat (i + j)) = true →
  Sequential_SelectPiece i pieces bf ≠ None.
Proof.
  revert i j. induction pieces as [|piece rest IH]; intros i j Hp Hv Hh; [done|].
  cbn [Sequential_SelectPiece]. destruct j as [|j].
  - injection Hp as ->. rewrite Nat.add_0_r in *. by rewrite Hv, Hh.
  - cbn in Hp. replace (i + S j)%nat with (S i + j)%nat in * by lia.
    pose proof (IH (S i) j Hp Hv Hh) as Hin.
    destruct (isVerified piece); [done|].
    by destruct (negb _).
Qed.

Lemma sortSlice_nil {A} (less : A → A → bool) (l : list A) :
  sortSlice less l = [] → l = [].
Proof.
  intros Hs. apply Permutation_nil_r. by rewrite <- (sortSlice_Permutation less l), Hs.
Qed.

Lemma RarestFirst_complete rf (j : nat) (pieces : list Piece.t) bf p :
  pieces !! j = Some p → isVerified p = false →
  peerHasPiece bf (Z.of_nat j) = true →
  RarestFirst_SelectPiece rf pieces bf ≠ None.
Proof.
  intros Hp Hv Hh. unfold RarestFirst_SelectPiece.
  destruct (sortSlice _ _) as [|c rest] eqn:Hs; [|done].
  apply sortSlice_nil in Hs.
  pose proof (RarestFirst_candidates_complete rf 0 j pieces bf p Hp Hv Hh) as Hin.
  rewrite Hs in Hin. by apply elem_of_nil in Hin.
Qed.

(** X17.  The piece that the rarest-first strategy returns is one that the
    fewest known peers have, among the pieces that are not verified and that
    the peer has. *)
Theorem X17_rarest_first_is_rarest (peerBitfields : gmap string (list byte))
    (pieces : list Piece.t) (peerBitfield : list byte) (k j : nat) (p : Piece.t) :
  RarestFirst_SelectPiece peerBitfields pieces peerBitfield = Some k →
  pieces !! j = Some p → isVerified p = false →
  peerHasPiece peerBitfield (Z.of_nat j) = true →
  rarityOf peerBitfields k ≤ rarityOf peerBitfields j.
Proof.
  unfold RarestFirst_SelectPiece.
  destruct (sortSlice _ _) as [|c rest] eqn:Hs; [done|]. intros [= <-] Hp Hv Hh.
  set (less := λ a b, pieceRarity.rarity a <? pieceRarity.rarity b) in Hs.
  set (candidates := RarestFirst_candidates peerBitfields 0 pieces peerBitfield) in Hs.
  pose proof (sortSlice_Sorted less) as Hsorted.
  specialize (Hsorted ltac:(intros a b; unfold less; lia) candidates).
  rewrite Hs in Hsorted.
  assert (Transitive (λ a b : pieceRarity.t, less b a = false)) as Htrans.
  { intros a b d. unfold less. lia. }
  apply Sorted_StronglySorted in Hsorted; [|done].
  apply StronglySorted_inv in Hsorted as [_ Hhead]. rewrite Forall_forall in Hhead.
  pose proof (sortSlice_head _ _ _ _ Hs) as Hc.
  apply RarestFirst_candidates_eligible in Hc as (_ & _ & _ & _ & _ & _ & Hrc).
  rewrite <- Hrc.
  pose proof (RarestFirst_candidates_complete peerBitfields 0 j pieces peerBitfield p
                Hp Hv Hh) as Hin.
  fold candidates in Hin. rewrite <- (sortSlice_Permutation less candidates), Hs in Hin.
  apply elem_of_cons in Hin as [Heq|Hin].
  - rewrite <- Heq. cbn. lia.
  - apply Hhead in Hin. unfold less in Hin. cbn in Hin. lia.
Qed.

Lemma X17_rarest_first_is_rarest_witness :
  rarityOf (SmartStrategy.rarestFirst fixture.smart10) 9
  ≤ rarityOf (SmartStrategy.rarestFirst fixture.smart10) 4.
Proof.
  apply (X17_rarest_first_is_rarest (SmartStrategy.rarestFirst fixture.smart10)
           fixture.pieces10 fixture.peerBitfield10 9 4
           (Piece.mk 4 16384 [] PieceStateMissing [] ∅)).
  - vm_compute. reflexivity.
  - vm_compute. reflexivity.
  - vm_compute. reflexivity.
  - vm_compute. reflexivity.
Defined.

(** X18.  Whatever the strategy, [SelectPiece] returns no piece only when
    no piece of the slice is eligible: every piece is verified or missing
    from the bitfield of the peer. *)
Theorem X18_no_selection_means_none_eligible (s : SelectionStrategy)
    (pieces : list Piece.t) (peerBitfield : list byte) (j : nat) (p : Piece.t) :
  SelectPiece s pieces peerBitfield = None →
  pieces !! j = Some p →
  isVerified p = true ∨ peerHasPiece peerBitfield (Z.of_nat j) = false.
Proof.
  intros Hnone Hp.
  destruct (isVerified p) eqn:Hv; [by left|]. right.
  destruct (peerHasPiece peerBitfield (Z.of_nat j)) eqn:Hh; [|done]. exfalso.
  pose proof (Sequential_complete 0 j pieces peerBitfield p Hp Hv Hh) as Hseq.
  pose proof (λ rf, RarestFirst_complete rf j pieces peerBitfield p Hp Hv Hh) as Hrf.
  induction s as [|rf|threshold base IH|st|priorities base IH]; cbn [SelectPiece] in Hnone.
  - done.
  - by apply (Hrf rf).
  - unfold EndGame_SelectPiece in Hnone. case_decide; [|by apply IH].
    by rewrite EndGame_scan_Sequential in Hnone.
  - unfold Smart_SelectPiece, EndGame_SelectPiece in Hnone. cbv zeta in Hnone.
    destruct (Sequential_SelectPiece 0 pieces peerBitfield) eqn:Hs; [|done].
    repeat case_decide; try done; rewrite ?EndGame_scan_Sequential, ?Hs in Hnone;
      try done; by apply (Hrf (SmartStrategy.rarestFirst st)).
  - destruct (sortSlice _ _) as [|c rest] eqn:Hsort.
    + apply sortSlice_nil in Hsort.
      by apply (Priority_candidates_complete priorities 0 j pieces peerBitfield p).
    + case_decide; [by apply IH|done].
Qed.

Lemma X18_no_selection_means_none_eligible_witness :
  isVerified (Piece.mk 0 16384 [] PieceStateVerified [] ∅) = true
  ∨ peerHasPiece [] (Z.of_nat 0) = false.
Proof.
  apply (X18_no_selection_means_none_eligible SequentialStrategy fixture.pieces10 [] 0
           (Piece.mk 0 16384 [] PieceStateVerified [] ∅)).
  - vm_compute. reflexivity.
  - vm_compute. reflexivity.
Defined.

End strategy_selection.

Section request_cap.
Import download.

(** The number of entries of the request map that point to the peer [q]. *)
Lemma count_insert_fresh (active : gmap string RequestInfo.t) k r (q : nat) :
  active !! k = None →
  size (filter (λ kr, RequestInfo.Peer kr.2 = q) (<[k := r]> active))
  = if decide (RequestInfo.Peer r = q)
    then S (size (filter (λ kr, RequestInfo.Peer kr.2 = q) active))
    else size (filter (λ kr, RequestInfo.Peer kr.2 = q) active).
Proof.
  intros Hfresh. case_decide as Hq.
  - rewrite map_filter_insert_True by done.
    rewrite map_size_insert_None; [done|].
    apply map_lookup_filter_None. by left.
  - rewrite map_filter_insert_False by done. by rewrite delete_id.
Qed.

Lemma count_subseteq (a b : gmap string RequestInfo.t) (q : nat) :
  a ⊆ b →
  (size (filter (λ kr, RequestInfo.Peer kr.2 = q) a)
   ≤ size (filter (λ kr, RequestInfo.Peer kr.2 = q) b))%nat.
Proof. intros Hsub. by apply map_subseteq_size, map_filter_subseteq_mono. Qed.

Section loop.
Context {PM : Type} `{PieceManager PM}.

(** The loop of [requestPiecesFromPeer] adds at most
    [requestsToMake - requestsMade] entries, all of them for the peer [p]. *)
Lemma requestLoop_count now p pieceIndex requestsToMake blockRequests (q : nat) :
  ∀ requestsMade active pr pm,
  0 ≤ requestsMade → requestsToMake < 2 ^ 63 →
  let active' :=
    (requestLoop now p pieceIndex requestsToMake blockRequests requestsMade
       active pr pm).1.1 in
  let count (a : gmap string RequestInfo.t) :=
    Z.of_nat (size (filter (λ kr, RequestInfo.Peer kr.2 = q) a)) in
  (q ≠ p → count active' = count active) ∧
  count active' ≤ count active + Z.max 0 (requestsToMake - requestsMade).
Proof.
  induction blockRequests as [|blockReq rest IH]; intros requestsMade active pr pm Hmade Hmax;
    cbn [requestLoop]; cbv zeta.
  - cbn. lia.
  - case_decide as Hstop; [cbn; lia|].
    destruct (active !! _) as [existing|] eqn:Hkey.
    { destruct (IH requestsMade active pr pm Hmade Hmax) as [Hother Hle]. split; [done|lia]. }
    destruct (peer.RequestPiece _ _ _ pr) as [pr' [err|]].
    { destruct (IH requestsMade active pr' pm Hmade Hmax) as [Hother Hle]. split; [done|lia]. }
    rewrite (int64_id (requestsMade + 1)) by lia.
    match goal with
    | |- context [requestLoop now p pieceIndex requestsToMake rest (requestsMade + 1)
                    ?a ?r ?m] =>
        destruct (IH (requestsMade + 1) a r m ltac:(lia) Hmax) as [Hother Hle]
    end.
    rewrite count_insert_fresh in Hother, Hle by done. cbn [RequestInfo.Peer] in *.
    split.
    + intros Hq. rewrite Hother by done. by rewrite decide_False by done.
    + case_decide; lia.
Qed.

Lemma requestPiecesFromPeer_capped now p neededPieces c pr pm :
  Coordinator.maxRequestsPerPeer c < 2 ^ 63 →
  capped c →
  Coordinator.maxRequestsPerPeer (requestPiecesFromPeer now p neededPieces c pr pm).1.1
  = Coordinator.maxRequestsPerPeer c ∧
  capped (requestPiecesFromPeer now p neededPieces c pr pm).1.1.
Proof.
  intros Hmax Hcap. unfold requestPiecesFromPeer. cbv zeta.
  case_decide as Hfull; [done|].
  destruct (peer.GetBitfield pr) as [bitfield|]; [|done].
  case_decide; [done|].
  destruct (SelectPieceForPeer bitfield pm) as [pieceIndex|]; [|done].
  assert (0 ≤ countActiveRequestsForPeer p c) as Hpos
    by (unfold countActiveRequestsForPeer; lia).
  rewrite int64_id by lia.
  set (toMake := Coordinator.maxRequestsPerPeer c - countActiveRequestsForPeer p c).
  destruct (requestLoop _ _ _ _ _ _ _ _ _) as [[active' pr'] pm'] eqn:Hloop.
  cbn [fst snd Coordinator.maxRequestsPerPeer Coordinator.with_activeRequests].
  split; [done|]. intros q.
  unfold countActiveRequestsForPeer.
  cbn [Coordinator.activeRequests Coordinator.maxRequestsPerPeer
       Coordinator.with_activeRequests].
  pose proof (requestLoop_count now p pieceIndex toMake (GetBlockRequests pieceIndex pm) q
                0 (Coordinator.activeRequests c) pr pm ltac:(lia) ltac:(unfold toMake; lia))
    as [Hother Hle].
  rewrite Hloop in Hother, Hle. cbn [fst snd] in Hother, Hle.
  specialize (Hcap q). unfold countActiveRequestsForPeer in Hcap, Hfull, toMake.
  destruct (decide (q = p)) as [->|Hq].
  - unfold toMake in Hle. lia.
  - rewrite Hother by done. done.
Qed.

Lemma requestAll_capped now peers neededPieces :
  ∀ c heap pm,
  Coordinator.maxRequestsPerPeer c < 2 ^ 63 → capped c →
  Coordinator.maxRequestsPerPeer (requestAll now peers neededPieces c heap pm).1.1
  = Coordinator.maxRequestsPerPeer c ∧
  capped (requestAll now peers neededPieces c heap pm).1.1.
Proof.
  induction peers as [|p rest IH]; intros c heap pm Hmax Hcap; cbn [requestAll]; [done|].
  destruct (heap !! p) as [pr|]; [|by apply IH].
  destruct (peer.CanDownload pr); [|by apply IH].
  pose proof (requestPiecesFromPeer_capped now p neededPieces c pr pm Hmax Hcap)
    as [Hsame Hcap'].
  destruct (requestPiecesFromPeer now p neededPieces c pr pm) as [[c' pr'] pm'].
  cbn [fst snd] in Hsame, Hcap'.
  destruct (IH c' (<[p := pr']> heap) pm') as [Hsame' Hcap'']; [lia|done|].
  split; [congruence|done].
Qed.

Lemma processDownloadCycle_capped now peers c heap pm :
  Coordinator.maxRequestsPerPeer c < 2 ^ 63 → capped c →
  Coordinator.maxRequestsPerPeer (processDownloadCycle now peers c heap pm).1.1
  = Coordinator.maxRequestsPerPeer c ∧
  capped (processDownloadCycle now peers c heap pm).1.1.
Proof.
  intros Hmax Hcap. unfold processDownloadCycle. cbv zeta.
  case_decide; [done|]. case_decide; [done|].
  match goal with
  | |- context [requestAll now peers ?needed c ?heap' pm] =>
      pose proof (requestAll_capped now peers needed c heap' pm Hmax Hcap) as [Hsame Hcap'];
      destruct (requestAll now peers needed c heap' pm) as [[c' heap''] pm']
  end.
  cbn [fst snd] in *. unfold updateProgress.
  destruct (GetProgressCounts pm') as [downloaded total].
  split; [done|]. intros q. apply (Hcap' q).
Qed.

End loop.

Lemma HandlePieceReceived_capped pieceIndex begin c :
  capped c →
  Coordinator.maxRequestsPerPeer (HandlePieceReceived pieceIndex begin c)
  = Coordinator.maxRequestsPerPeer c ∧
  capped (HandlePieceReceived pieceIndex begin c).
Proof.
  intros Hcap. unfold HandlePieceReceived. cbv zeta.
  destruct (_ !! _); [|done]. split; [done|]. intros q. specialize (Hcap q).
  unfold countActiveRequestsForPeer in *.
  cbn [Coordinator.activeRequests Coordinator.maxRequestsPerPeer
       Coordinator.with_activeRequests].
  pose proof (count_subseteq (delete (requestKey pieceIndex begin)
                                (Coordinator.activeRequests c))
                (Coordinator.activeRequests c) q (delete_subseteq _ _)).
  lia.
Qed.

Lemma cleanupTimedOutRequests_capped now c :
  capped c →
  Coordinator.maxRequestsPerPeer (cleanupTimedOutRequests now c)
  = Coordinator.maxRequestsPerPeer c ∧
  capped (cleanupTimedOutRequests now c).
Proof.
  intros Hcap. split; [done|]. intros q. specialize (Hcap q).
  unfold cleanupTimedOutRequests, countActiveRequestsForPeer in *.
  cbn [Coordinator.activeRequests Coordinator.maxRequestsPerPeer
       Coordinator.with_activeRequests].
  match goal with
  | |- context [size (filter _ (filter ?P ?a))] =>
      pose proof (count_subseteq (filter P a) a q (map_filter_subseteq _ _))
  end.
  lia.
Qed.

End request_cap.

Section request_cap_system.
Context {D : Type} `{piece.DiskManager D}.
Import download engine.

Lemma step_capped (s s' : System.t D) :
  step s s' →
  Coordinator.maxRequestsPerPeer (System.coordinator s) < 2 ^ 63 →
  capped (System.coordinator s) →
  Coordinator.maxRequestsPerPeer (System.coordinator s')
  = Coordinator.maxRequestsPerPeer (System.coordinator s) ∧
  capped (System.coordinator s').
Proof.
  intros Hstep Hmax Hcap.
  destruct Hstep as [s p now Hp|s p pr msg Hp|s p pr msg rest Hp Hq
                    |s index begin block m' st' c' Hi Hb Hpiece
                    |s pieceIndex rest m' Hpend Hver
                    |s now connected c' peers' st' Hcycle|s now];
    cbn [System.coordinator]; try done.
  - apply handlePieceData_coordinator in Hpiece as [->| ->]; [done|].
    by apply HandlePieceReceived_capped.
  - pose proof (processDownloadCycle_capped now connected (System.coordinator s)
                  (System.peers s) (System.store s) Hmax Hcap) as Hc.
    by rewrite Hcycle in Hc.
  - by apply cleanupTimedOutRequests_capped.
Qed.

(** X19.  In every state that the client reaches, no peer has more than
    10 requests outstanding: the coordinator stops asking a peer when the
    request map holds [maxRequestsPerPeer] entries for it, and the entries it
    adds in one call fill what is left of that number. *)
Theorem X19_requests_per_peer_bounded (m : piece.Manager.t D) (s : System.t D) (p : nat) :
  reachable (initial m) s →
  countActiveRequestsForPeer p (System.coordinator s) ≤ 10.
Proof.
  intros Hreach.
  assert (Coordinator.maxRequestsPerPeer (System.coordinator s) = 10 ∧
          capped (System.coordinator s)) as [Hmax Hcap].
  { induction Hreach as [|s s' _ [IHmax IHcap] Hstep].
    - split; [done|]. intros q. by vm_compute.
    - destruct (step_capped s s' Hstep) as [Hsame Hcap]; [lia|done|].
      split; [congruence|done]. }
  specialize (Hcap p). lia.
Qed.

End request_cap_system.

Section request_cap_example.
#[local] Existing Instances fixture.toySha1 fixture.toyJoin.
Import download engine.

Lemma X19_requests_per_peer_bounded_witness :
  countActiveRequestsForPeer 1 (System.coordinator fixture.sys_requested) ≤ 10.
Proof.
  apply (X19_requests_per_peer_bounded fixture.manager1 fixture.sys_requested 1).
  apply reachable_do_cycle, reachable_do_receive, reachable_do_receive,
    reachable_do_connect, reachable_refl.
Defined.

End request_cap_example.

Section bitfields.

Lemma land_bit_other (b i j : Z) :
  0 ≤ i → 0 ≤ j → i ≠ j → i `quot` 8 = j `quot` 8 →
  Z.land (Z.lor b (bit (7 - i `rem` 8))) (bit (7 - j `rem` 8))
  = Z.land b (bit (7 - j `rem` 8)).
Proof.
  intros Hi Hj Hne Hq. rewrite !bit_mask by done.
  rewrite !Z.quot_div_nonneg in Hq by lia.
  pose proof (Z.div_mod i 8 ltac:(lia)). pose proof (Z.div_mod j 8 ltac:(lia)).
  assert (0 ≤ i `mod` 8 < 8) by (apply Z.mod_pos_bound; lia).
  assert (0 ≤ j `mod` 8 < 8) by (apply Z.mod_pos_bound; lia).
  rewrite Z.land_lor_distr_l.
  assert (Z.land (2 ^ (7 - i `mod` 8)) (2 ^ (7 - j `mod` 8)) = 0) as ->.
  { apply Z.bits_inj'. intros n Hn.
    rewrite Z.land_spec, !Z.pow2_bits_eqb, Z.bits_0 by lia.
    destruct (Z.eqb_spec (7 - i `mod` 8) n), (Z.eqb_spec (7 - j `mod` 8) n); try done. lia. }
  apply Z.lor_0_r.
Qed.

Lemma index_in_range {A} (s : list A) (i : Z) :
  0 ≤ i < len s → ∃ x, index s i = Some x.
Proof.
  intros Hi. unfold index, len in *. rewrite decide_True by lia.
  apply lookup_lt_is_Some. lia.
Qed.

Import peer.

(** A bit that [setPieceUnsafe] does not set keeps its value. *)
Lemma setPieceUnsafe_other (p : Peer.t) (i j : Z) :
  0 ≤ i → 0 ≤ j → i ≠ j → HasPiece j (setPieceUnsafe i p) = HasPiece j p.
Proof.
  intros Hi Hj Hne. unfold setPieceUnsafe.
  destruct (Peer.bitfield p) as [bitfield|] eqn:Hb; [|done].
  case_decide as Hlen; [done|].
  destruct (index bitfield (i `quot` 8)) as [b|] eqn:Hix; [|done].
  unfold HasPiece. rewrite Hb. cbn [Peer.bitfield Peer.with_bitfield].
  rewrite len_insert. case_decide as Hjlen; [done|].
  assert (0 ≤ i `quot` 8) by (apply Z.quot_pos; lia).
  destruct (decide (i `quot` 8 = j `quot` 8)) as [Heq|Hdiff].
  - rewrite <- Heq. rewrite (index_insert_eq _ _ _ _ Hix), Hix.
    by rewrite land_bit_other.
  - by rewrite index_insert_ne.
Qed.

(** X20.  A HAVE message for a piece that the bitfield of the peer covers
    is accepted, sets the bit of that piece, and leaves every other bit as
    it was. *)
Theorem X20_have_sets_one_bit (p : Peer.t) (bitfield : list byte) (i : Z) :
  Peer.bitfield p = Some bitfield →
  0 ≤ i < 8 * len bitfield → i < 2 ^ 32 →
  ∃ p',
    handleMessage (Some (NewHaveMessage i)) p = (p', None) ∧
    HasPiece i p' = true ∧
    ∀ j, 0 ≤ j → j ≠ i → HasPiece j p' = HasPiece j p.
Proof.
  intros Hb Hi H32. exists (setPieceUnsafe i p). split_and!.
  - unfold handleMessage, ParseHave, NewHaveMessage, NewMessage.
    cbn [Message.ID Message.Payload].
    rewrite !(decide_False (P := MsgHave = _)) by done.
    rewrite decide_True by done.
    rewrite (decide_False (P := MsgHave ≠ MsgHave)) by (intros Hne; by apply Hne).
    rewrite (decide_False (P := len (PutUint32 i) ≠ 4))
      by (intros Hne; apply Hne; reflexivity).
    by rewrite Uint32_PutUint32_nil by lia.
  - apply (setPieceUnsafe_HasPiece p bitfield); [done|lia|].
    apply Z.quot_lt_upper_bound; lia.
  - intros j Hj Hne. apply setPieceUnsafe_other; [lia|done|congruence].
Qed.

Lemma X20_have_sets_one_bit_witness :
  ∃ p',
    handleMessage (Some (NewHaveMessage 9)) (Peer.mk NewPeerState (Some [0; 0]) [] false 0)
    = (p', None) ∧
    HasPiece 9 p' = true ∧
    ∀ j, 0 ≤ j → j ≠ 9 →
         HasPiece j p' = HasPiece j (Peer.mk NewPeerState (Some [0; 0]) [] false 0).
Proof.
  apply (X20_have_sets_one_bit (Peer.mk NewPeerState (Some [0; 0]) [] false 0) [0; 0] 9).
  - reflexivity.
  - vm_compute. split; [discriminate|reflexivity].
  - reflexivity.
Defined.

(** X21.  When [EnsureInterested] returns no error, the interest of the
    client in the peer is what the needed pieces call for: the client is
    interested exactly when the peer has a bitfield with one of the needed
    pieces.  At most one message is queued, INTERESTED or NOT INTERESTED, and
    only when the interest changes. *)
Theorem X21_interest_follows_need (neededPieces : list Z) (p p' : Peer.t) :
  EnsureInterested neededPieces p = (p', None) →
  PeerState.AmInterested (Peer.state p') = NeedsPieces neededPieces p ∧
  Peer.bitfield p' = Peer.bitfield p ∧
  (PeerState.AmInterested (Peer.state p) = NeedsPieces neededPieces p → p' = p) ∧
  (PeerState.AmInterested (Peer.state p) ≠ NeedsPieces neededPieces p →
   Peer.sendCh p' = Peer.sendCh p ++ [if NeedsPieces neededPieces p
                                      then NewInterestedMessage
                                      else NewNotInterestedMessage]).
Proof.
  unfold EnsureInterested, Interested, NotInterested, SendMessage, GetState. cbv zeta.
  destruct p as [[amChoking amInterested peerChoking peerInterested] bitfield sendCh
                   closed lastSeen].
  cbn [Peer.state Peer.closed Peer.sendCh Peer.bitfield PeerState.AmInterested
       set_AmInterested Peer.with_state Peer.with_sendCh].
  destruct (NeedsPieces neededPieces _) eqn:Hneed, amInterested; cbn [andb negb];
    destruct closed; try done; repeat case_decide; try done;
    intros [= <-]; cbn; split_and!; try done; intros Hne; by destruct Hne.
Qed.

Lemma X21_interest_follows_need_witness :
  PeerState.AmInterested
    (Peer.state (Peer.mk (PeerState.mk true true true false) (Some [128])
                   [NewInterestedMessage] false 0))
  = NeedsPieces [0] (Peer.mk NewPeerState (Some [128]) [] false 0) ∧
  Peer.bitfield (Peer.mk (PeerState.mk true true true false) (Some [128])
                   [NewInterestedMessage] false 0)
  = Peer.bitfield (Peer.mk NewPeerState (Some [128]) [] false 0) ∧
  (PeerState.AmInterested (Peer.state (Peer.mk NewPeerState (Some [128]) [] false 0))
   = NeedsPieces [0] (Peer.mk NewPeerState (Some [128]) [] false 0) →
   Peer.mk (PeerState.mk true true true false) (Some [128]) [NewInterestedMessage] false 0
   = Peer.mk NewPeerState (Some [128]) [] false 0) ∧
  (PeerState.AmInterested (Peer.state (Peer.mk NewPeerState (Some [128]) [] false 0))
   ≠ NeedsPieces [0] (Peer.mk NewPeerState (Some [128]) [] false 0) →
   Peer.sendCh (Peer.mk (PeerState.mk true true true false) (Some [128])
                  [NewInterestedMessage] false 0)
   = Peer.sendCh (Peer.mk NewPeerState (Some [128]) [] false 0)
       ++ [if NeedsPieces [0] (Peer.mk NewPeerState (Some [128]) [] false 0)
           then NewInterestedMessage else NewNotInterestedMessage]).
Proof.
  apply (X21_interest_follows_need [0] (Peer.mk NewPeerState (Some [128]) [] false 0)
           (Peer.mk (PeerState.mk true true true false) (Some [128])
              [NewInterestedMessage] false 0)).
  vm_compute. reflexivity.
Defined.

End bitfields.

Section manager_bitfield.
Context {D : Type} `{piece.DiskManager D}.
Import piece.

Lemma peerHasPiece_set (bitfield : list byte) (i b : Z) :
  0 ≤ i → index bitfield (i `quot` 8) = Some b →
  peerHasPiece (<[Z.to_nat (i `quot` 8) := Z.lor b (bit (7 - i `rem` 8))]> bitfield) i
  = true.
Proof.
  intros Hi Hix. pose proof (index_bounds _ _ _ Hix) as Hb.
  unfold peerHasPiece. rewrite len_insert.
  rewrite decide_False by lia. rewrite decide_False by lia.
  rewrite (index_insert_eq _ _ _ _ Hix). rewrite bit_mask by done.
  apply negb_true_iff, Z.eqb_neq, land_bit_self.
  assert (0 ≤ i `mod` 8 < 8) by (apply Z.mod_pos_bound; lia). lia.
Qed.

Lemma peerHasPiece_other (bitfield : list byte) (i j b : Z) :
  0 ≤ i → 0 ≤ j → i ≠ j → index bitfield (i `quot` 8) = Some b →
  peerHasPiece (<[Z.to_nat (i `quot` 8) := Z.lor b (bit (7 - i `rem` 8))]> bitfield) j
  = peerHasPiece bitfield j.
Proof.
  intros Hi Hj Hne Hix. pose proof (index_bounds _ _ _ Hix) as Hb.
  unfold peerHasPiece. rewrite len_insert.
  case_decide; [done|]. case_decide; [done|].
  destruct (decide (i `quot` 8 = j `quot` 8)) as [Heq|Hdiff].
  - rewrite <- Heq. rewrite (index_insert_eq _ _ _ _ Hix), Hix.
    by rewrite land_bit_other.
  - rewrite index_insert_ne by lia. done.
Qed.

Lemma MarkPieceVerified_in_range (m : Manager.t D) (i : Z) :
  0 ≤ i < len (Manager.pieces m) →
  i `quot` 8 < len (Manager.bitfield m) →
  ∃ m',
    MarkPieceVerified i m = (m', None) ∧
    HasPiece m' i = true ∧
    peerHasPiece (GetBitfield m') i = true ∧
    ∀ j, 0 ≤ j → j ≠ i →
         HasPiece m' j = HasPiece m j ∧
         peerHasPiece (GetBitfield m') j = peerHasPiece (GetBitfield m) j.
Proof.
  intros Hi Hbf. unfold MarkPieceVerified.
  assert (inRange m i = true) as Hin.
  { unfold inRange. apply negb_true_iff, bool_decide_eq_false. lia. }
  rewrite Hin. cbn [negb].
  destruct (index_in_range (Manager.pieces m) i Hi) as [piece Hpiece].
  rewrite Hpiece. cbv zeta.
  assert (0 ≤ i `quot` 8) as Hq by (apply Z.quot_pos; lia).
  destruct (index_in_range (Manager.bitfield m) (i `quot` 8) ltac:(lia)) as [b Hb].
  cbn [setPiece Manager.bitfield Manager.with_pieces].
  rewrite decide_True by done. rewrite Hb.
  eexists. split; [reflexivity|].
  unfold HasPiece, GetBitfield, inRange, setPiece.
  cbn [Manager.pieces Manager.bitfield Manager.with_stats Manager.with_bitfield
       Manager.with_pieces].
  rewrite !len_insert. split_and!.
  - rewrite bool_decide_eq_false_2 by lia. cbn [negb].
    by rewrite (index_insert_eq _ _ _ _ Hpiece).
  - apply peerHasPiece_set; [lia|done].
  - intros j Hj Hne. split.
    + destruct (negb _); [|done]. rewrite index_insert_ne by lia. done.
    + apply peerHasPiece_other; [lia|done|congruence|done].
Qed.

(** X22.  [MarkPieceVerified] of a piece in range, with a bitfield that
    covers it, returns no error; after it [HasPiece] answers true for the
    piece and the bitfield that [GetBitfield] returns has its bit, in the
    layout that the selection strategies read; for every other piece both
    are as before. *)
Theorem X22_mark_piece_verified (m : Manager.t D) (i : Z) :
  0 ≤ i < len (Manager.pieces m) →
  i `quot` 8 < len (Manager.bitfield m) →
  ∃ m',
    MarkPieceVerified i m = (m', None) ∧
    HasPiece m' i = true ∧
    peerHasPiece (GetBitfield m') i = true ∧
    ∀ j, 0 ≤ j → j ≠ i →
         HasPiece m' j = HasPiece m j ∧
         peerHasPiece (GetBitfield m') j = peerHasPiece (GetBitfield m) j.
Proof. apply MarkPieceVerified_in_range. Qed.

End manager_bitfield.

Section manager_bitfield_example.
#[local] Existing Instances fixture.toySha1 fixture.toyJoin.
Import piece.

Lemma X22_mark_piece_verified_witness :
  ∃ m',
    MarkPieceVerified 0 fixture.manager1 = (m', None) ∧
    HasPiece m' 0 = true ∧
    peerHasPiece (GetBitfield m') 0 = true ∧
    ∀ j, 0 ≤ j → j ≠ 0 →
         HasPiece m' j = HasPiece fixture.manager1 j ∧
         peerHasPiece (GetBitfield m') j = peerHasPiece (GetBitfield fixture.manager1) j.
Proof.
  apply (X22_mark_piece_verified fixture.manager1 0).
  - vm_compute. split; [discriminate|reflexivity].
  - vm_compute. reflexivity.
Defined.

End manager_bitfield_example.

Section piece_blocks_layout.
Import piece.

(** X23.  The blocks of a new piece tile the piece: block [i] starts at
    [i * BlockSize] and holds no data, every block but the last has
    [BlockSize] bytes, the last one ends where the piece ends, and there are
    as many blocks as the length needs.  A new piece is not complete. *)
Theorem X23_new_piece_blocks (index length : Z) (hash : Hash) :
  0 < length < 2 ^ 62 →
  ∃ p,
    NewPiece index length hash = Returns p ∧
    Piece.Length p = length ∧
    Piece.State p = PieceStateMissing ∧
    IsComplete p = false ∧
    len (Piece.Blocks p) = (length + BlockSize - 1) `quot` BlockSize ∧
    ∀ i b, go.index (Piece.Blocks p) i = Some b →
      Block.Index b = index ∧
      Block.Begin b = i * BlockSize ∧
      Block.Data b = None ∧
      0 < Block.Length b ≤ BlockSize ∧
      (i < len (Piece.Blocks p) - 1 → Block.Length b = BlockSize) ∧
      (i = len (Piece.Blocks p) - 1 → Block.Begin b + Block.Length b = length).
Proof.
  intros Hlen. unfold NewPiece. cbv zeta.
  rewrite (int64_id (length + BlockSize)) by (unfold BlockSize; lia).
  rewrite (int64_id (length + BlockSize - 1)) by (unfold BlockSize; lia).
  set (n := (length + BlockSize - 1) `quot` BlockSize).
  pose proof (Z.quot_rem' (length + BlockSize - 1) BlockSize) as Hqr.
  pose proof (Z.rem_bound_pos (length + BlockSize - 1) BlockSize
                ltac:(unfold BlockSize; lia) ltac:(unfold BlockSize; lia)) as Hr.
  fold n in Hqr. unfold BlockSize in Hqr, Hr.
  assert (1 ≤ n) as Hn by lia.
  rewrite decide_False by lia.
  eexists. split; [reflexivity|].
  cbn [Piece.Length Piece.State Piece.Blocks].
  assert (len (NewPiece_block index length n <$> seq 0 (Z.to_nat n)) = n) as Hblocks.
  { unfold len. rewrite length_fmap, length_seq. lia. }
  rewrite Hblocks. split_and!; try done.
  - unfold IsComplete. cbn [Piece.Blocks].
    destruct (Z.to_nat n) as [|k] eqn:Hk; [lia|]. done.
  - intros i b [Hi Hb]%index_Some.
    rewrite list_lookup_fmap in Hb.
    destruct (seq 0 (Z.to_nat n) !! Z.to_nat i) as [j|] eqn:Hj; [|done].
    apply lookup_seq in Hj as [-> Hlt]. injection Hb as <-.
    unfold NewPiece_block. cbv zeta. cbn [Block.Index Block.Begin Block.Data Block.Length].
    cbn [Nat.add]. rewrite Z2Nat.id by done.
    rewrite (int64_id (i * BlockSize)) by (unfold BlockSize; lia).
    rewrite (int64_id (length - i * BlockSize)) by (unfold BlockSize; lia).
    unfold BlockSize. split_and!; try done; repeat case_decide; lia.
Qed.

Lemma X23_new_piece_blocks_witness :
  ∃ p,
    NewPiece 3 20000 [] = Returns p ∧
    Piece.Length p = 20000 ∧
    Piece.State p = PieceStateMissing ∧
    IsComplete p = false ∧
    len (Piece.Blocks p) = (20000 + BlockSize - 1) `quot` BlockSize ∧
    ∀ i b, go.index (Piece.Blocks p) i = Some b →
      Block.Index b = 3 ∧
      Block.Begin b = i * BlockSize ∧
      Block.Data b = None ∧
      0 < Block.Length b ≤ BlockSize ∧
      (i < len (Piece.Blocks p) - 1 → Block.Length b = BlockSize) ∧
      (i = len (Piece.Blocks p) - 1 → Block.Begin b + Block.Length b = 20000).
Proof. apply (X23_new_piece_blocks 3 20000 []). lia. Defined.

End piece_blocks_layout.

Section piece_assembly.
Import piece.

Lemma storeBlocks_cons begin data payloads p :
  storeBlocks ((begin, data) :: payloads) p =
    match SetBlockData begin data p with
    | (q, None) => storeBlocks payloads q
    | (q, Some err) => (q, Some err)
    end.
Proof.
  unfold storeBlocks. cbn [foldl fst snd].
  destruct (SetBlockData begin data p) as [q [err|]]; [|done].
  induction payloads as [|payload payloads IH]; [done|]. cbn [foldl]. apply IH.
Qed.

Lemma storeBlocks_blocks (stored rest : list Block.t) (datas : list (list byte)) :
  ∀ p,
  Piece.Blocks p = stored ++ rest →
  NoDup (Block.Begin <$> stored ++ rest) →
  Forall2 (λ b d, len d = Block.Length b) rest datas →
  ∃ p',
    storeBlocks (zip (Block.Begin <$> rest) datas) p = (p', None) ∧
    Piece.Blocks p' = stored ++ zip_with (λ b d, Block.with_Data (Some d) b) rest datas.
Proof.
  intros p Hblocks Hnodup Hall. revert stored p Hblocks Hnodup.
  induction Hall as [|b d rest datas Hlen Hall IH]; intros stored p Hblocks Hnodup.
  - exists p. by split.
  - cbn [fmap list_fmap zip zip_with]. rewrite storeBlocks_cons.
    assert (list_find (λ x, Block.Begin x = Block.Begin b) (Piece.Blocks p)
            = Some (length stored, b)) as Hfind.
    { apply list_find_Some. rewrite Hblocks. split_and!.
      - by rewrite list_lookup_middle.
      - done.
      - intros j y Hy Hj Heq. rewrite lookup_app_l in Hy by done.
        rewrite fmap_app in Hnodup. apply NoDup_app in Hnodup as (_ & Hdisj & _).
        apply (Hdisj (Block.Begin y)).
        + apply list_elem_of_fmap. exists y. split; [done|]. by eapply list_elem_of_lookup_2.
        + rewrite Heq. cbn. left. }
    rewrite (SetBlockData_stored _ _ _ _ _ Hfind Hlen).
    set (b' := Block.with_Data (Some d) b).
    set (p1 := Piece.with_Requests _ _).
    destruct (IH (stored ++ [b']) p1) as (p' & Hstore & Hp').
    { unfold p1. cbn [Piece.Blocks Piece.with_Requests Piece.with_Blocks].
      rewrite Hblocks, insert_app_r_alt by done. rewrite Nat.sub_diag. cbn.
      by rewrite <- app_assoc. }
    { rewrite <- app_assoc. cbn [app]. rewrite !fmap_app in *. done. }
    exists p'. split; [done|]. rewrite Hp'. by rewrite <- app_assoc.
Qed.

(** X24.  A piece whose blocks start at distinct offsets is assembled from
    its blocks: when a payload of the right length is stored for every block,
    no [SetBlockData] returns an error, the piece is complete and [GetData]
    returns the payloads joined in the order of the blocks. *)
Theorem X24_piece_assembled_from_blocks (p : Piece.t) (datas : list (list byte)) :
  NoDup (Block.Begin <$> Piece.Blocks p) →
  Forall2 (λ b d, len d = Block.Length b) (Piece.Blocks p) datas →
  ∃ p',
    storeBlocks (zip (Block.Begin <$> Piece.Blocks p) datas) p = (p', None) ∧
    IsComplete p' = true ∧
    GetData p' = Ok (concat datas).
Proof.
  intros Hnodup Hall.
  destruct (storeBlocks_blocks [] (Piece.Blocks p) datas p eq_refl Hnodup Hall)
    as (p' & Hstore & Hblocks).
  exists p'. split; [done|]. cbn [app] in Hblocks.
  assert (IsComplete p' = true) as Hc.
  { unfold IsComplete. rewrite Hblocks. clear. revert datas.
    induction (Piece.Blocks p) as [|b bs IH]; intros [|d ds]; try done. cbn. apply IH. }
  split; [done|]. unfold GetData. rewrite Hc, Hblocks. f_equal. f_equal.
  clear -Hall. induction Hall as [|b d bs ds _ _ IH]; [done|]. cbn. by rewrite IH.
Qed.

Lemma X24_piece_assembled_from_blocks_witness :
  ∃ p',
    storeBlocks (zip (Block.Begin <$> Piece.Blocks fixture.piece2) fixture.payloads2)
      fixture.piece2 = (p', None) ∧
    IsComplete p' = true ∧
    GetData p' = Ok (concat fixture.payloads2).
Proof.
  apply (X24_piece_assembled_from_blocks fixture.piece2 fixture.payloads2).
  - apply (bool_decide_unpack _). vm_compute. exact I.
  - apply (bool_decide_unpack _). vm_compute. exact I.
Defined.

End piece_assembly.

Section disk_blocks.
Context `{Sha1} `{FilePath}.
Import torrent.

(** X25.  For a manager that [NewManager] made for a torrent,
    [VerifyPiece(i, data)] is true exactly when [i] is the index of a piece
    and the SHA-1 of [data] is the 20 bytes that [PieceHash(i)] cuts out of
    the piece hashes of the torrent. *)
Theorem X25_verify_piece_checks_piece_hash (t : Torrent.t) (downloadDir : list byte)
    (fs : gmap (list byte) (list byte)) (i : Z) (data : list byte) :
  disk.VerifyPiece i data (disk.NewManager t downloadDir fs) = true
  ↔ PieceHash i t = Ok (sha1_Sum data).
Proof.
  unfold disk.VerifyPiece, disk.NewManager. cbn [disk.Manager.pieceHashes].
  set (hashes := (λ i : nat, match PieceHash (Z.of_nat i) t with
                             | Ok hash => hash
                             | Err _ => replicate 20 0
                             end) <$> seq 0 (Z.to_nat (NumPieces t))).
  assert (0 ≤ NumPieces t) as Hn.
  { unfold NumPieces. apply Z.quot_pos; unfold len; lia. }
  assert (len hashes = NumPieces t) as Hlen.
  { unfold hashes, len. rewrite length_fmap, length_seq. lia. }
  rewrite Hlen. unfold PieceHash at 1. fold (NumPieces t).
  case_decide as Hrange.
  - by split.
  - assert (index hashes i = Some (slice (Info.Pieces (Torrent.Info t)) (i * 20)
                                     (i * 20 + 20))) as ->.
    { apply index_Some. split; [lia|]. unfold hashes.
      rewrite list_lookup_fmap, lookup_seq_lt by lia. cbn [fmap option_fmap option_map].
      rewrite Nat.add_0_l, Z2Nat.id by lia.
      unfold PieceHash. by rewrite decide_False. }
    rewrite bool_decide_eq_true. split; [by intros <-|by intros [= <-]].
Qed.

(** X26.  [ReadBlock] returns the bytes of the piece from [begin], as many
    as [length] asks for and the piece has: the result never goes beyond
    the end of the piece.  An offset outside the piece is an error. *)
Theorem X26_read_block_within_piece (d : disk.Manager.t) (pieceIndex begin length : Z)
    (pieceData : list byte) :
  disk.ReadPiece pieceIndex d = Ok pieceData →
  0 ≤ length → begin + length < 2 ^ 63 →
  (0 ≤ begin < len pieceData →
   ∃ block,
     disk.ReadBlock pieceIndex begin length d = Returns (Ok block) ∧
     block = take (Z.to_nat length) (drop (Z.to_nat begin) pieceData) ∧
     len block = Z.min length (len pieceData - begin)) ∧
  (begin < 0 ∨ begin >= len pieceData →
   disk.ReadBlock pieceIndex begin length d
   = Returns (Err "block begin offset out of range")).
Proof.
  intros Hread Hlength Hmax. unfold disk.ReadBlock. rewrite Hread. split.
  - intros Hbegin. rewrite decide_False by lia. cbv zeta.
    rewrite int64_id by lia.
    eexists. split; [|split; [reflexivity|]].
    + destruct (decide (begin + length > len pieceData)) as [Hend|Hend].
      * rewrite decide_False by lia. f_equal. f_equal. unfold slice.
        rewrite !take_ge; [done| |]; rewrite length_drop; unfold len in *; lia.
      * rewrite decide_False by lia. do 2 f_equal. unfold slice. f_equal. lia.
    + unfold len in *. rewrite length_take, length_drop. lia.
  - intros Hout. by rewrite decide_True.
Qed.

Lemma createFile_exists (path : list byte) (size : Z) (d d' : disk.Manager.t) :
  disk.createFile path size d = (d', None) →
  is_Some (disk.Manager.fs d' !! path) ∧
  ∀ q, is_Some (disk.Manager.fs d !! q) → is_Some (disk.Manager.fs d' !! q).
Proof.
  unfold disk.createFile. case_decide; [done|]. intros [= <-]. cbn. split.
  - rewrite lookup_insert_eq. by eexists.
  - intros q Hq. apply lookup_insert_is_Some'. by right.
Qed.

Lemma Initialize_files_exist (fileInfos : list File.t) (d d' : disk.Manager.t) :
  disk.Initialize_files fileInfos d = (d', None) →
  (∀ q, is_Some (disk.Manager.fs d !! q) → is_Some (disk.Manager.fs d' !! q)) ∧
  Forall (λ fileInfo, is_Some (disk.Manager.fs d' !! disk.fullPath d fileInfo)) fileInfos.
Proof.
  revert d. induction fileInfos as [|fileInfo rest IH]; intros d Hinit.
  - injection Hinit as <-. done.
  - cbn [disk.Initialize_files] in Hinit.
    destruct (disk.createFile _ _ d) as [d1 [err|]] eqn:Hcreate; [done|].
    pose proof (createFile_opens _ _ _ _ Hcreate) as (Ht1 & Hd1 & _).
    apply createFile_exists in Hcreate as [Hnew Hold].
    apply IH in Hinit as [Hkeep Hall]. split; [by auto|].
    constructor; [by apply Hkeep|].
    eapply Forall_impl; [exact Hall|]. intros f Hf. cbn in Hf.
    by rewrite <- (fullPath_same d d1).
Qed.

(** X27.  When [Initialize] returns no error, every file of the torrent
    is open and exists on the file system, for a single file as for a
    manifest, and the torrent and the download directory of the manager are
    unchanged. *)
Theorem X27_initialize_opens_files (d d' : disk.Manager.t) :
  disk.Initialize d = (d', None) →
  disk.Manager.torrent d' = disk.Manager.torrent d ∧
  disk.Manager.downloadDir d' = disk.Manager.downloadDir d ∧
  Forall (λ path, path ∈ disk.Manager.files d' ∧ is_Some (disk.Manager.fs d' !! path))
    (disk.paths d').
Proof.
  intros Hinit. pose proof (Initialize_opens d d' Hinit) as Hopen.
  unfold disk.Initialize, disk.paths in *.
  destruct (IsSingleFile (disk.Manager.torrent d)) eqn:Hsingle.
  - pose proof (createFile_opens _ _ _ _ Hinit) as (Ht & Hd & _).
    apply createFile_exists in Hinit as [Hnew _].
    split_and!; [done|done|]. rewrite Ht, Hsingle in *.
    rewrite Forall_singleton in *. split; [done|].
    unfold disk.filePath, disk.info in *. by rewrite Ht, Hd.
  - pose proof (Initialize_files_opens _ _ _ Hinit) as (Ht & Hd & _ & _).
    apply Initialize_files_exist in Hinit as [_ Hall].
    split_and!; [done|done|]. rewrite Ht, Hsingle in *.
    unfold disk.info in *. rewrite Ht in *.
    rewrite Forall_fmap in *. rewrite Forall_forall in *. intros f Hf. cbn. split.
    + by apply (Hopen f).
    + rewrite (fullPath_same d d') by done. by apply Hall.
Qed.

End disk_blocks.

Section disk_blocks_example.
#[local] Existing Instances fixture.toySha1 fixture.toyJoin.

Lemma X26_read_block_within_piece_witness :
  (0 ≤ 1 < len [0; 0; 0; 0] →
   ∃ block,
     disk.ReadBlock 0 1 10 fixture.disk3 = Returns (Ok block) ∧
     block = take (Z.to_nat 10) (drop (Z.to_nat 1) [0; 0; 0; 0]) ∧
     len block = Z.min 10 (len [0; 0; 0; 0] - 1)) ∧
  (1 < 0 ∨ 1 >= len [0; 0; 0; 0] →
   disk.ReadBlock 0 1 10 fixture.disk3
   = Returns (Err "block begin offset out of range")).
Proof.
  apply (X26_read_block_within_piece fixture.disk3 0 1 10 [0; 0; 0; 0]).
  - vm_compute. reflexivity.
  - lia.
  - lia.
Defined.

Lemma X27_initialize_opens_files_witness :
  disk.Manager.torrent fixture.disk3
  = disk.Manager.torrent (disk.NewManager fixture.torrent3 (bytes "out") ∅) ∧
  disk.Manager.downloadDir fixture.disk3
  = disk.Manager.downloadDir (disk.NewManager fixture.torrent3 (bytes "out") ∅) ∧
  Forall (λ path, path ∈ disk.Manager.files fixture.disk3
                  ∧ is_Some (disk.Manager.fs fixture.disk3 !! path))
    (disk.paths fixture.disk3).
Proof.
  apply (X27_initialize_opens_files
           (disk.NewManager fixture.torrent3 (bytes "out") ∅) fixture.disk3).
  vm_compute. reflexivity.
Defined.

End disk_blocks_example.

Section verification_success.
Context {D : Type} `{piece.DiskManager D}.
Import piece.

(** X28.  The piece [i] is complete, its data has the hash that the disk
    manager expects, and the bitfield covers it.  If [WritePiece] returns no
    error, [verifyAndStorePiece] stores the data, keeps the disk manager that
    [WritePiece] returned and marks the piece verified, in the state of the
    piece and in the bitfield.  If [WritePiece] returns an error, the piece
    is not marked: its state and the bitfield are what they were. *)
Theorem X28_verified_piece_is_stored (m : Manager.t D) (i : Z) (piece : Piece.t)
    (data : list byte) (dm dm' : D) (err : option error) :
  index (Manager.pieces m) i = Some piece →
  GetData piece = Ok data →
  Manager.diskManager m = Some dm →
  VerifyPiece dm i data = true →
  WritePiece dm i data = Returns (dm', err) →
  i `quot` 8 < len (Manager.bitfield m) →
  ∃ m',
    verifyAndStorePiece i m = Returns m' ∧
    Manager.diskManager m' = Some dm' ∧
    match err with
    | None => HasPiece m' i = true ∧ peerHasPiece (GetBitfield m') i = true
    | Some _ =>
        Manager.pieces m' = Manager.pieces m ∧ GetBitfield m' = GetBitfield m
    end.
Proof.
  intros Hpiece Hdata Hdm Hverify Hwrite Hbf.
  unfold verifyAndStorePiece. rewrite Hpiece, Hdm, Hdata, Hverify, Hwrite.
  cbn [negb mbind outcome_bind fst snd].
  destruct err as [e|].
  - eexists. split; [reflexivity|]. by split.
  - set (m1 := Manager.with_diskManager (Some dm') m).
    pose proof (index_bounds _ _ _ Hpiece) as Hi.
    destruct (MarkPieceVerified_in_range m1 i Hi Hbf) as (m' & Hmark & Hhas & Hbit & _).
    exists m'. rewrite Hmark. split; [done|]. split; [|done].
    unfold MarkPieceVerified in Hmark.
    destruct (negb (inRange m1 i)); [by injection Hmark as <-|].
    destruct (index (Manager.pieces m1) i); [|by injection Hmark as <-].
    cbv zeta in Hmark. injection Hmark as <-.
    cbn [Manager.diskManager Manager.with_stats]. by repeat case_match.
Qed.

End verification_success.

Section verification_success_example.
#[local] Existing Instances fixture.toySha1 fixture.toyJoin.
Import piece.

Lemma X28_verified_piece_is_stored_witness :
  ∃ m',
    verifyAndStorePiece 0
      (setPiece 0 fixture.piece1_stored fixture.manager1) = Returns m' ∧
    Manager.diskManager m'
    = Some (disk.WritePiece 0 fixture.goodData fixture.disk1).1 ∧
    (HasPiece m' 0 = true ∧ peerHasPiece (GetBitfield m') 0 = true).
Proof.
  apply (X28_verified_piece_is_stored
           (setPiece 0 fixture.piece1_stored fixture.manager1) 0 fixture.piece1_stored
           fixture.goodData fixture.disk1
           (disk.WritePiece 0 fixture.goodData fixture.disk1).1 None).
  - vm_compute. reflexivity.
  - vm_compute. reflexivity.
  - vm_compute. reflexivity.
  - vm_compute. reflexivity.
  - vm_compute. reflexivity.
  - vm_compute. reflexivity.
Defined.

End verification_success_example.
